(** * Junk Mover: a shallow embedding of [Junk_Mover/junk_mover.py]

    The mover pipeline moves aged tracks from a source playlist into
    year-bucketed "Junk Drawer" playlists through a remote HTTP API.
    Pure helpers ([chunked], [iso_to_date], [group_tracks_by_year_suffix],
    [require_env]) are ordinary functions; everything that talks to the
    remote service runs in a state-and-exception monad over a model of
    the service ([world]), which also records every request made. *)

From Stdlib Require Import ZArith Lia List String Ascii DecimalString.
From stdpp Require Import base option list strings gmap.

Local Open Scope Z_scope.

(** ** Exceptions and results

    [Exhausted] is not an exception of the script: it marks a paginated
    loop that ran out of the fuel its model was given, which
    [main_terminates] rules out. *)

Inductive exn :=
| ValueError (msg : string)
| RuntimeError (msg : string)
| OverflowError (msg : string)
| KeyError (key : string)
| Exhausted.

Inductive result (A : Type) :=
| Ok (a : A)
| Err (e : exn).
Arguments Ok {A} a.
Arguments Err {A} e.

Definition is_ok {A} (r : result A) : bool :=
  match r with Ok _ => true | Err _ => false end.

(** ** Python's [datetime.date]

    The three fields, the lexicographic order, and day arithmetic through
    proleptic Gregorian ordinals, as in the standard library. *)

Module Calendar.

Record date := mkdate { year : Z; month : Z; day : Z }.

Definition MINYEAR : Z := 1.
Definition MAXYEAR : Z := 9999.
Definition MAXORDINAL : Z := 3652059.

Definition is_leap (y : Z) : bool :=
  (y mod 4 =? 0) && (negb (y mod 100 =? 0) || (y mod 400 =? 0)).

Definition DAYS_IN_MONTH (m : Z) : Z :=
  match m with
  | 1 => 31 | 2 => 28 | 3 => 31 | 4 => 30 | 5 => 31 | 6 => 30
  | 7 => 31 | 8 => 31 | 9 => 30 | 10 => 31 | 11 => 30 | 12 => 31
  | _ => -1
  end.

Definition DAYS_BEFORE_MONTH (m : Z) : Z :=
  match m with
  | 1 => 0 | 2 => 31 | 3 => 59 | 4 => 90 | 5 => 120 | 6 => 151
  | 7 => 181 | 8 => 212 | 9 => 243 | 10 => 273 | 11 => 304 | 12 => 334
  | _ => -1
  end.

Definition days_in_month (y m : Z) : Z :=
  if (m =? 2) && is_leap y then 29 else DAYS_IN_MONTH m.

Definition days_before_year (y : Z) : Z :=
  let y := y - 1 in y * 365 + y / 4 - y / 100 + y / 400.

Definition days_before_month (y m : Z) : Z :=
  DAYS_BEFORE_MONTH m + (if (m >? 2) && is_leap y then 1 else 0).

Definition ymd2ord (y m d : Z) : Z :=
  days_before_year y + days_before_month y m + d.

Definition ord2ymd (n : Z) : date :=
  let n := n - 1 in
  let n400 := n / 146097 in
  let n := n mod 146097 in
  let year := n400 * 400 + 1 in
  let n100 := n / 36524 in
  let n := n mod 36524 in
  let n4 := n / 1461 in
  let n := n mod 1461 in
  let n1 := n / 365 in
  let n := n mod 365 in
  let year := year + n100 * 100 + n4 * 4 + n1 in
  if (n1 =? 4) || (n100 =? 4) then mkdate (year - 1) 12 31
  else
    let leapyear := (n1 =? 3) && (negb (n4 =? 24) || (n100 =? 3)) in
    let month := Z.shiftr (n + 50) 5 in
    let preceding :=
      DAYS_BEFORE_MONTH month + (if (month >? 2) && leapyear then 1 else 0) in
    if preceding >? n then
      let month := month - 1 in
      let preceding :=
        preceding
        - (DAYS_IN_MONTH month + (if (month =? 2) && leapyear then 1 else 0)) in
      mkdate year month (n - preceding + 1)
    else mkdate year month (n - preceding + 1).

Definition toordinal (d : date) : Z := ymd2ord (year d) (month d) (day d).

Definition fromordinal (n : Z) : date := ord2ymd n.

(** The dates a [date] object can hold. *)
Definition valid_date (d : date) : Prop :=
  MINYEAR <= year d <= MAXYEAR /\ 1 <= month d <= 12
  /\ 1 <= day d <= days_in_month (year d) (month d).

Definition valid_dateb (d : date) : bool :=
  (MINYEAR <=? year d) && (year d <=? MAXYEAR)
  && (1 <=? month d) && (month d <=? 12)
  && (1 <=? day d) && (day d <=? days_in_month (year d) (month d)).

(** [a <= b] on dates compares (year, month, day) lexicographically. *)
Definition date_le (a b : date) : bool :=
  if year a =? year b then
    if month a =? month b then day a <=? day b else month a <? month b
  else year a <? year b.

(** [d - timedelta(days=n)]: [timedelta] refuses more than 999999999 days,
    and the result must be an ordinal of a representable date. *)
Definition date_sub_days (d : date) (n : Z) : result date :=
  if Z.abs n >? 999999999 then
    Err (OverflowError "days out of range for timedelta")
  else
    let o := toordinal d + - n in
    if (0 <? o) && (o <=? MAXORDINAL) then Ok (fromordinal o)
    else Err (OverflowError "date value out of range").

End Calendar.
Export Calendar.

(** ** Python built-ins used by the script *)

Module Py.

(** Truthiness of an optional string: [None] and the empty string are falsy. *)
Definition truthy (v : option string) : bool :=
  match v with
  | Some (String _ _) => true
  | _ => false
  end.

Fixpoint contains_char (chars : string) (c : ascii) : bool :=
  match chars with
  | EmptyString => false
  | String c' rest => Ascii.eqb c' c || contains_char rest c
  end.

(** [s.rstrip(chars)]: drop every trailing character that occurs in [chars]. *)
Fixpoint rstrip (chars : string) (s : string) : string :=
  match s with
  | EmptyString => EmptyString
  | String c rest =>
      match rstrip chars rest with
      | EmptyString => if contains_char chars c then EmptyString else String c EmptyString
      | r => String c r
      end
  end.

Fixpoint lstrip_by (p : ascii -> bool) (s : string) : string :=
  match s with
  | EmptyString => EmptyString
  | String c rest => if p c then lstrip_by p rest else s
  end.

Fixpoint rstrip_by (p : ascii -> bool) (s : string) : string :=
  match s with
  | EmptyString => EmptyString
  | String c rest =>
      match rstrip_by p rest with
      | EmptyString => if p c then EmptyString else String c EmptyString
      | r => String c r
      end
  end.

(** ASCII characters [str.isspace] accepts, which [str.strip] drops. *)
Definition isspace (c : ascii) : bool :=
  let n := nat_of_ascii c in
  ((9 <=? n) && (n <=? 13) || (28 <=? n) && (n <=? 32))%nat.

Definition digit_val (c : ascii) : option Z :=
  let n := nat_of_ascii c in
  if ((48 <=? n) && (n <=? 57))%nat then Some (Z.of_nat n - 48) else None.

(** Digits after the first one; a single underscore may separate two digits. *)
Fixpoint int_digits (acc : Z) (s : string) : option Z :=
  match s with
  | EmptyString => Some acc
  | String c rest =>
      match digit_val c with
      | Some d => int_digits (10 * acc + d) rest
      | None =>
          if Ascii.eqb c "_" then
            match rest with
            | String c2 rest2 =>
                match digit_val c2 with
                | Some d => int_digits (10 * acc + d) rest2
                | None => None
                end
            | EmptyString => None
            end
          else None
      end
  end.

Definition int_unsigned (s : string) : option Z :=
  match s with
  | String c rest =>
      match digit_val c with
      | Some d => int_digits d rest
      | None => None
      end
  | EmptyString => None
  end.

(** The blanks [int] skips around a number: tab to carriage return, and
    the space.  (The separators 28 to 31, which [str.isspace] accepts, are
    refused.) *)
Definition int_space (c : ascii) : bool :=
  let n := nat_of_ascii c in
  ((9 <=? n) && (n <=? 13) || (n =? 32))%nat.

(** [sys.get_int_max_str_digits()]: the most decimal digits [int] converts. *)
Definition int_max_str_digits : Z := 4300.

Fixpoint count_digits (s : string) : Z :=
  match s with
  | EmptyString => 0
  | String c rest =>
      match digit_val c with
      | Some _ => 1 + count_digits rest
      | None => count_digits rest
      end
  end.

(** [int(s)] for a string in base 10: surrounding blanks, one optional
    sign, decimal digits, no more than [int_max_str_digits] of them;
    [None] stands for the [ValueError]. *)
Definition int (s : string) : option Z :=
  match rstrip_by int_space (lstrip_by int_space s) with
  | EmptyString => None
  | String c rest as t =>
      let digits := if Ascii.eqb c "-" || Ascii.eqb c "+" then rest else t in
      if int_max_str_digits <? count_digits digits then None
      else if Ascii.eqb c "-" then Z.opp <$> int_unsigned rest
      else if Ascii.eqb c "+" then int_unsigned rest
      else int_unsigned t
  end.

(** [str(n)] and ["%d" % n]. *)
Definition str (n : Z) : string := NilZero.string_of_int (Z.to_int n).

Fixpoint zfill_left (k : nat) (s : string) : string :=
  match k with
  | O => s
  | S k' => String "0" (zfill_left k' s)
  end.

(** [format(n, "02d")]: zero padding to width 2 goes between the sign and
    the digits. *)
Definition format_02d (n : Z) : string :=
  let digits := str (Z.abs n) in
  if n <? 0 then
    String "-" (zfill_left (1 - String.length digits) digits)
  else zfill_left (2 - String.length digits) digits.

(** [sep.join(parts)]. *)
Definition join (sep : string) (parts : list string) : string :=
  String.concat sep parts.

(** [range(start, stop, step)] for a non-zero step. *)
Definition range_length (start stop step : Z) : Z :=
  if 0 <? step then
    if start <? stop then (stop - start - 1) / step + 1 else 0
  else
    if stop <? start then (start - stop - 1) / (- step) + 1 else 0.

Definition range (start stop step : Z) : list Z :=
  map (fun k : nat => start + Z.of_nat k * step)
      (seq 0 (Z.to_nat (range_length start stop step))).

(** [l[i:j]] with Python's treatment of negative and oversized bounds. *)
Definition slice_bound (len k : Z) : Z :=
  if k <? 0 then Z.max 0 (k + len) else Z.min k len.

Definition slice {A} (l : list A) (i j : Z) : list A :=
  let len := Z.of_nat (length l) in
  let i' := slice_bound len i in
  let j' := slice_bound len j in
  take (Z.to_nat (j' - i')) (drop (Z.to_nat i') l).

End Py.

(** ** [datetime.fromisoformat]

    The model reads the forms documented for Python 3.7 to 3.10,
    [YYYY-MM-DD[*HH[:MM[:SS[.fff[fff]]]][+HH:MM[:SS[.ffffff]]]]] with [*]
    any one character and [+] either sign, which every later version
    reads to the same date.  For any other string it answers [None].  The
    library raises [ValueError] for a string that does not start with the
    four digits of a year, in every version; from Python 3.11 on it also
    reads further ISO 8601 forms (dates without hyphens, week dates,
    fractions of other lengths), which the model does not cover: on those
    the model's [None] is an under-approximation of the library. *)

Module Iso.

Record datetime := mkdatetime {
  dt_date : date;
  dt_hour : Z;
  dt_minute : Z;
  dt_second : Z;
  dt_microsecond : Z
}.

(** Read exactly [k] decimal digits. *)
Fixpoint take_digits (k : nat) (acc : Z) (s : string) : option (Z * string) :=
  match k with
  | O => Some (acc, s)
  | S k' =>
      match s with
      | String c rest =>
          match Py.digit_val c with
          | Some d => take_digits k' (10 * acc + d) rest
          | None => None
          end
      | EmptyString => None
      end
  end.

Definition expect (c : ascii) (s : string) : option string :=
  match s with
  | String c' rest => if Ascii.eqb c' c then Some rest else None
  | EmptyString => None
  end.

Definition parse_date (s : string) : option (date * string) :=
  '(y, s) ← take_digits 4 0 s;
  s ← expect "-" s;
  '(m, s) ← take_digits 2 0 s;
  s ← expect "-" s;
  '(d, s) ← take_digits 2 0 s;
  let dd := mkdate y m d in
  if valid_dateb dd then Some (dd, s) else None.

Definition parse_fraction (s : string) : option Z :=
  match s with
  | EmptyString => Some 0
  | String c rest =>
      if Ascii.eqb c "." then
        match take_digits 3 0 rest with
        | Some (ms, EmptyString) => Some (ms * 1000)
        | Some (ms, rest3) =>
            match take_digits 3 ms rest3 with
            | Some (us, EmptyString) => Some us
            | _ => None
            end
        | None => None
        end
      else None
  end.

(** [HH[:MM[:SS[.fff[fff]]]]] *)
Definition parse_hh_mm_ss_ff (s : string) : option (Z * Z * Z * Z) :=
  '(hh, s) ← take_digits 2 0 s;
  match s with
  | EmptyString => Some (hh, 0, 0, 0)
  | String _ _ =>
      s ← expect ":" s;
      '(mm, s) ← take_digits 2 0 s;
      match s with
      | EmptyString => Some (hh, mm, 0, 0)
      | String _ _ =>
          s ← expect ":" s;
          '(ss, s) ← take_digits 2 0 s;
          us ← parse_fraction s;
          Some (hh, mm, ss, us)
      end
  end.

(** The time of day, and what follows the first sign after it. *)
Fixpoint split_offset (s : string) : string * option string :=
  match s with
  | EmptyString => (EmptyString, None)
  | String c rest =>
      if Ascii.eqb c "+" || Ascii.eqb c "-" then (EmptyString, Some rest)
      else let '(t, o) := split_offset rest in (String c t, o)
  end.

(** [HH:MM], [HH:MM:SS] or [HH:MM:SS.ffffff], below 24 hours. *)
Definition parse_offset (s : string) : option unit :=
  let n := String.length s in
  if (n =? 5)%nat || (n =? 8)%nat || (n =? 15)%nat then
    '(hh, mm, ss, _) ← parse_hh_mm_ss_ff s;
    if (hh <? 24) && (mm <? 60) && (ss <? 60) then Some tt else None
  else None.

Definition parse_time (s : string) : option (Z * Z * Z * Z) :=
  let '(tstr, offset) := split_offset s in
  '(hh, mm, ss, us) ← parse_hh_mm_ss_ff tstr;
  _ ← match offset with
      | Some o => parse_offset o
      | None => Some tt
      end;
  if (hh <? 24) && (mm <? 60) && (ss <? 60) then Some (hh, mm, ss, us) else None.

Definition fromisoformat (s : string) : option datetime :=
  '(d, rest) ← parse_date s;
  match rest with
  | EmptyString => Some (mkdatetime d 0 0 0 0)
  | String _sep tstr =>
      '(hh, mm, ss, us) ← parse_time tstr;
      Some (mkdatetime d hh mm ss us)
  end.

End Iso.

(** ** Pure helpers of [junk_mover.py] *)

Definition chunked {A} (seq : list A) (size : Z) : result (list (list A)) :=
  if size =? 0 then Err (ValueError "range() arg 3 must not be zero")
  else
    Ok (map (fun i => Py.slice seq i (i + size))
            (Py.range 0 (Z.of_nat (length seq)) size)).

Definition iso_to_date (iso_ts : string) : result date :=
  let clean := Py.rstrip "Z" iso_ts in
  match Iso.fromisoformat clean with
  | Some t => Ok (Iso.dt_date t)
  | None => Err (ValueError "Invalid isoformat string")
  end.

(** A candidate: the track URI and the date it was added to the source. *)
Abbreviation track_ref := (string * date)%type.

(** [buckets.setdefault(key, []).append(x)] on an insertion-ordered dict. *)
Fixpoint setdefault_append {V} (key : string) (x : V)
    (buckets : list (string * list V)) : list (string * list V) :=
  match buckets with
  | [] => [(key, [x])]
  | (k, xs) :: rest =>
      if String.eqb k key then (k, xs ++ [x]) :: rest
      else (k, xs) :: setdefault_append key x rest
  end.

Definition year_suffix_of (added_date : date) : string :=
  Py.format_02d (year added_date mod 100).

Definition group_tracks_by_year_suffix (tracks : list track_ref)
    : list (string * list track_ref) :=
  fold_left
    (fun buckets '(uri, added_date) =>
       let year_suffix := year_suffix_of added_date in
       setdefault_append year_suffix (uri, added_date) buckets)
    tracks [].

Definition missing_keys (keys : list string) (environ : gmap string string)
    : list string :=
  List.filter (fun key => negb (Py.truthy (environ !! key))) keys.

Definition require_env (keys : list string) (environ : gmap string string)
    : result unit :=
  let missing := missing_keys keys environ in
  match missing with
  | [] => Ok tt
  | _ :: _ =>
      Err (ValueError ("Missing environment variables: "
                       +:+ Py.join ", " missing +:+ ". Fill them in .env."))
  end.

#[global] Instance result_ret : MRet result := fun _ a => Ok a.
#[global] Instance result_bind : MBind result := fun _ _ f r =>
  match r with
  | Ok a => f a
  | Err e => Err e
  end.

(** ** Configuration (lines 269-291 of [main]) *)

Record config := mkconfig {
  client_id : string;
  client_secret : string;
  refresh_token : string;
  source_playlist_name : string;
  duration_days : Z
}.

Definition required_keys : list string :=
  [ "JUNK_MOVER_CLIENT_ID"; "JUNK_MOVER_CLIENT_SECRET";
    "JUNK_MOVER_REFRESH_TOKEN"; "JUNK_MOVER_SOURCE_PLAYLIST";
    "JUNK_MOVER_DURATION_DAYS" ]%string.

(** [os.environ[key]]; the keys read here have passed [require_env]. *)
Definition environ_item (environ : gmap string string) (key : string) : string :=
  default EmptyString (environ !! key).

Definition parse_duration_days (raw : string) : result Z :=
  match Py.int raw with
  | None => Err (ValueError "JUNK_MOVER_DURATION_DAYS must be an integer")
  | Some duration_days =>
      if duration_days <? 0 then
        Err (ValueError
               "JUNK_MOVER_DURATION_DAYS cannot be negative; use 0 for 'today'.")
      else Ok duration_days
  end.

Definition load_config (environ : gmap string string) : result config :=
  _ ← require_env required_keys environ;
  duration_days ←
    parse_duration_days (environ_item environ "JUNK_MOVER_DURATION_DAYS");
  Ok (mkconfig (environ_item environ "JUNK_MOVER_CLIENT_ID")
               (environ_item environ "JUNK_MOVER_CLIENT_SECRET")
               (environ_item environ "JUNK_MOVER_REFRESH_TOKEN")
               (environ_item environ "JUNK_MOVER_SOURCE_PLAYLIST")
               duration_days).

(** ** The remote service

    The service is a black box to the script; this is the model of it the
    development reasons against.  A playlist is identified by its position
    in the user's library, entries are added at the end, removing a URI
    removes every entry that carries it, and any request may fail: the
    fault schedule [w_faults] decides the fate of each request in turn
    ([Some detail] fails it with that detail; an empty schedule lets every
    request through).  Every request is recorded in [w_log] with its
    outcome. *)

Module Remote.

(** A JSON object field as [dict.get] sees it: absent, [null], or a value. *)
Inductive jfield (A : Type) :=
| Missing
| Null
| Present (a : A).
Arguments Missing {A}.
Arguments Null {A}.
Arguments Present {A} a.

Definition get {A} (f : jfield A) : option A :=
  match f with
  | Present a => Some a
  | Missing | Null => None
  end.

(** Entries of a playlist as the service documents them: [added_at] is a
    string or [null], [track] an object or [null], and the track's [uri]
    a string. *)
Record track_obj := mktrack { uri : jfield string }.

Record item := mkitem {
  added_at : jfield string;
  track : jfield track_obj
}.

Record playlist := mkplaylist {
  pl_name : string;
  pl_owner : string;
  pl_description : string;
  pl_public : bool;
  pl_items : list item
}.

Inductive request :=
| TokenRefresh (client_id client_secret refresh_token : string)
    (* POST accounts.spotify.com/api/token *)
| GetMe
    (* GET /v1/me *)
| GetPlaylists (limit offset : nat)
    (* GET /v1/me/playlists *)
| GetPlaylistItems (playlist_id : nat) (limit offset : nat)
    (* GET /v1/playlists/{id}/tracks *)
| CreatePlaylist (user_id name description : string) (public : bool)
    (* POST /v1/users/{user_id}/playlists *)
| AddTracks (playlist_id : nat) (uris : list string)
    (* POST /v1/playlists/{id}/tracks *)
| RemoveTracks (playlist_id : nat) (uris : list string)
    (* DELETE /v1/playlists/{id}/tracks *)
| PutDescription (playlist_id : nat) (description : string).
    (* PUT /v1/playlists/{id} *)

Inductive response :=
| RespEmpty
| RespToken (access_token : string)
| RespUser (id : string)
| RespPlaylists (items : list (nat * playlist)) (next : bool)
| RespItems (items : list item) (next : bool)
| RespCreated (id : nat).

Record world := mkworld {
  w_user : string;                  (* id of the authenticated user *)
  w_token : string;                 (* bearer token the service hands out *)
  w_today : date;                   (* date.today() *)
  w_now : string;                   (* datetime.now(utc).isoformat(...) *)
  w_stamp : string;                 (* added_at given to new entries *)
  w_playlists : list playlist;
  w_faults : list (option string);
  w_log : list (request * bool)
}.

Definition item_uri (it : item) : option string :=
  t ← get (track it); get (uri t).

Definition has_uri (p : playlist) (u : string) : Prop :=
  Exists (fun it => item_uri it = Some u) (pl_items p).

Definition new_item (stamp : string) (u : string) : item :=
  mkitem (Present stamp) (Present (mktrack (Present u))).

Definition keeps (uris : list string) (it : item) : bool :=
  match item_uri it with
  | Some u => negb (existsb (String.eqb u) uris)
  | None => true
  end.

Definition with_items (p : playlist) (items : list item) : playlist :=
  mkplaylist (pl_name p) (pl_owner p) (pl_description p) (pl_public p) items.

Definition with_description (p : playlist) (d : string) : playlist :=
  mkplaylist (pl_name p) (pl_owner p) d (pl_public p) (pl_items p).

Definition indexed {A} (l : list A) : list (nat * A) :=
  zip (seq 0 (length l)) l.

Definition page_of {A} (l : list A) (limit offset : nat) : list A * bool :=
  (take limit (drop offset l), (offset + limit <? length l)%nat).

Definition not_found : exn := RuntimeError "Spotify API error 404".

(** What a request that gets through does: the response and the playlists
    afterwards. *)
Definition serve (w : world) (req : request)
    : result (response * list playlist) :=
  let pls := w_playlists w in
  match req with
  | TokenRefresh _ _ _ => Ok (RespToken (w_token w), pls)
  | GetMe => Ok (RespUser (w_user w), pls)
  | GetPlaylists limit offset =>
      let '(items, next) := page_of (indexed pls) limit offset in
      Ok (RespPlaylists items next, pls)
  | GetPlaylistItems pid limit offset =>
      match pls !! pid with
      | Some p =>
          let '(items, next) := page_of (pl_items p) limit offset in
          Ok (RespItems items next, pls)
      | None => Err not_found
      end
  | CreatePlaylist _ name description public =>
      Ok (RespCreated (length pls),
          pls ++ [mkplaylist name (w_user w) description public []])
  | AddTracks pid uris =>
      match pls !! pid with
      | Some p =>
          Ok (RespEmpty,
              <[pid := with_items p (pl_items p ++ map (new_item (w_stamp w)) uris)]> pls)
      | None => Err not_found
      end
  | RemoveTracks pid uris =>
      match pls !! pid with
      | Some p =>
          Ok (RespEmpty,
              <[pid := with_items p (List.filter (keeps uris) (pl_items p))]> pls)
      | None => Err not_found
      end
  | PutDescription pid description =>
      match pls !! pid with
      | Some p => Ok (RespEmpty, <[pid := with_description p description]> pls)
      | None => Err not_found
      end
  end.

Definition record (w : world) (faults : list (option string))
    (pls : list playlist) (req : request) (ok : bool) : world :=
  mkworld (w_user w) (w_token w) (w_today w) (w_now w) (w_stamp w)
          pls faults (w_log w ++ [(req, ok)]).

(** One HTTP exchange. *)
Definition exchange (req : request) (w : world) : result response * world :=
  match w_faults w with
  | Some detail :: rest =>
      (Err (RuntimeError detail), record w rest (w_playlists w) req false)
  | faults =>
      match serve w req with
      | Ok (resp, pls) => (Ok resp, record w (tail faults) pls req true)
      | Err e => (Err e, record w (tail faults) (w_playlists w) req false)
      end
  end.

End Remote.
Export Remote.

(** ** The monad of the script: state over [world], with exceptions *)

Definition M (A : Type) : Type := world -> result A * world.

Definition ret {A} (a : A) : M A := fun w => (Ok a, w).

Definition raise {A} (e : exn) : M A := fun w => (Err e, w).

Definition bind {A B} (m : M A) (k : A -> M B) : M B :=
  fun w =>
    match m w with
    | (Ok a, w') => k a w'
    | (Err e, w') => (Err e, w')
    end.

Definition lift {A} (r : result A) : M A := fun w => (r, w).

Definition reads {A} (f : world -> A) : M A := fun w => (Ok (f w), w).

Notation "'let!' x ':=' c 'in' k" := (bind c (fun x => k))
  (at level 10, x pattern, c at level 200, k at level 200).
Notation "'do!' c 'in' k" := (bind c (fun _ => k))
  (at level 10, c at level 200, k at level 200).

(** [for x in xs: body(x)] *)
Fixpoint for_in {X} (xs : list X) (body : X -> M unit) : M unit :=
  match xs with
  | [] => ret tt
  | x :: rest => do! body x in for_in rest body
  end.

(** How a loop body leaves an iteration: on to the next one, or out of the
    enclosing function with a value. *)
Inductive flow (S R : Type) :=
| Continue (s : S)
| Return (r : R).
Arguments Continue {S R} s.
Arguments Return {S R} r.

Fixpoint for_each {X S R} (body : X -> S -> result (flow S R))
    (xs : list X) (s : S) : result (flow S R) :=
  match xs with
  | [] => Ok (Continue s)
  | x :: rest =>
      match body x s with
      | Ok (Continue s') => for_each body rest s'
      | other => other
      end
  end.

(** [for x in <paginated generator>: body]: pages are requested one at a
    time, each only when the loop has consumed the one before it. *)
Fixpoint paginate {X S R} (fuel : nat) (fetch : nat -> M (list X * bool))
    (limit : nat) (body : X -> S -> result (flow S R))
    (offset : nat) (s : S) : M (flow S R) :=
  match fuel with
  | O => raise Exhausted
  | Datatypes.S fuel' =>
      let! page := fetch offset in
      let! r := lift (for_each body (fst page) s) in
      match r with
      | Return v => ret (Return v)
      | Continue s' =>
          if snd page then paginate fuel' fetch limit body (offset + limit)%nat s'
          else ret (Continue s')
      end
  end.

(** ** API wrappers *)

Definition spotify_request (req : request) (access_token : string) : M response :=
  exchange req.

Definition fetch_access_token (client_id client_secret refresh_token : string)
    : M string :=
  let! payload := exchange (TokenRefresh client_id client_secret refresh_token) in
  match payload with
  | RespToken access_token => ret access_token
  | _ => raise (KeyError "access_token")
  end.

Definition update_playlist_description (access_token : string)
    (playlist_id : nat) (description : string) : M unit :=
  do! spotify_request (PutDescription playlist_id description) access_token in
  ret tt.

Definition get_current_user (access_token : string) : M response :=
  spotify_request GetMe access_token.

(** [me.get("id")] *)
Definition user_id_of (me : response) : string :=
  match me with
  | RespUser id => id
  | _ => EmptyString
  end.

(** [page.get("items", [])] and [page.get("next")] of a playlist listing. *)
Definition playlists_page (page : response) : list (nat * playlist) * bool :=
  match page with
  | RespPlaylists items next => (items, next)
  | _ => ([], false)
  end.

Definition items_page (page : response) : list item * bool :=
  match page with
  | RespItems items next => (items, next)
  | _ => ([], false)
  end.

Definition paginate_playlists {S R} (access_token : string)
    (body : nat * playlist -> S -> result (flow S R)) (s : S) : M (flow S R) :=
  fun w =>
    paginate (Datatypes.S (length (w_playlists w)))
      (fun offset =>
         let! page := spotify_request (GetPlaylists 50 offset) access_token in
         ret (playlists_page page))
      50%nat body 0%nat s w.

Definition find_playlist_by_name_owner (access_token owner_id target_name : string)
    : M (option (nat * playlist)) :=
  let! r :=
    paginate_playlists access_token
      (fun playlist (_ : unit) =>
         if String.eqb (pl_name (snd playlist)) target_name
            && String.eqb (pl_owner (snd playlist)) owner_id
         then Ok (Return playlist)
         else Ok (Continue tt))
      tt in
  ret (match r with
       | Return playlist => Some playlist
       | Continue _ => None
       end).

Definition items_fuel (w : world) (playlist_id : nat) : nat :=
  match w_playlists w !! playlist_id with
  | Some p => Datatypes.S (length (pl_items p))
  | None => 1
  end.

Definition paginate_playlist_items {S R} (access_token : string)
    (playlist_id : nat) (body : item -> S -> result (flow S R)) (s : S)
    : M (flow S R) :=
  fun w =>
    paginate (items_fuel w playlist_id)
      (fun offset =>
         let! page :=
           spotify_request (GetPlaylistItems playlist_id 100 offset) access_token in
         ret (items_page page))
      100%nat body 0%nat s w.

Definition ensure_junk_drawer_playlist
    (access_token user_id name description : string) : M nat :=
  let! existing := find_playlist_by_name_owner access_token user_id name in
  match existing with
  | Some (id, _) => ret id
  | None =>
      let! created :=
        spotify_request (CreatePlaylist user_id name description false)
                        access_token in
      match created with
      | RespCreated id => ret id
      | _ => raise (KeyError "id")
      end
  end.

Definition add_tracks_to_playlist (access_token : string) (playlist_id : nat)
    (uris : list string) : M unit :=
  let! chunks := lift (chunked uris 100) in
  for_in chunks (fun chunk =>
    do! spotify_request (AddTracks playlist_id chunk) access_token in
    ret tt).

Definition remove_tracks_from_playlist (access_token : string)
    (playlist_id : nat) (uris : list string) : M unit :=
  let! chunks := lift (chunked uris 100) in
  for_in chunks (fun chunk =>
    do! spotify_request (RemoveTracks playlist_id chunk) access_token in
    ret tt).

(** ** The pipeline ([main]) *)

(** [item.get("track") or {}] followed by [.get("uri")]. *)
Definition track_or_empty (it : item) : track_obj :=
  default (mktrack Missing) (get (track it)).

(** Body of the candidate loop (lines 311-318). *)
Definition candidate_step (cutoff_date : date) (it : item)
    (candidates : list track_ref) : result (flow (list track_ref) Empty_set) :=
  let added_at := get (added_at it) in
  let track := track_or_empty it in
  let uri := get (uri track) in
  if negb (Py.truthy added_at && Py.truthy uri) then Ok (Continue candidates)
  else
    match added_at, uri with
    | Some added_at, Some uri =>
        added_date ← iso_to_date added_at;
        if date_le added_date cutoff_date then
          Ok (Continue (candidates ++ [(uri, added_date)]))
        else Ok (Continue candidates)
    | _, _ => Ok (Continue candidates)
    end.

Definition collect_candidates (access_token : string)
    (source_playlist_id : nat) (cutoff_date : date) : M (list track_ref) :=
  let! r :=
    paginate_playlist_items access_token source_playlist_id
      (candidate_step cutoff_date) [] in
  match r with
  | Continue candidates => ret candidates
  | Return v => match v with end
  end.

Definition junk_drawer_name (year_suffix : string) : string :=
  year_suffix +:+ " Junk Drawer".

Definition base_description_of (year_suffix source_playlist_name : string)
    : string :=
  "Junk drawer of tracks added in " +:+ year_suffix +:+ " from "
  +:+ source_playlist_name.

Definition len {A} (l : list A) : Z := Z.of_nat (length l).

(** Body of the bucket loop (lines 331-351); the result is [len(uris)]. *)
Definition process_bucket
    (access_token user_id source_playlist_name : string)
    (source_playlist_id : nat) (run_timestamp : string)
    (year_suffix : string) (tracks : list track_ref) : M Z :=
  let playlist_name := junk_drawer_name year_suffix in
  let base_description := base_description_of year_suffix source_playlist_name in
  let! target_playlist_id :=
    ensure_junk_drawer_playlist access_token user_id playlist_name
                                base_description in
  let uris := map fst tracks in
  do! add_tracks_to_playlist access_token target_playlist_id uris in
  do! remove_tracks_from_playlist access_token source_playlist_id uris in
  let description :=
    base_description +:+ ". Last run " +:+ run_timestamp +:+ " moved "
    +:+ Py.str (len uris) +:+ " tracks." in
  do! update_playlist_description access_token target_playlist_id description in
  ret (len uris).

Fixpoint move_buckets
    (access_token user_id source_playlist_name : string)
    (source_playlist_id : nat) (run_timestamp : string)
    (buckets : list (string * list track_ref)) (total_moved : Z) : M Z :=
  match buckets with
  | [] => ret total_moved
  | (year_suffix, tracks) :: rest =>
      let! moved :=
        process_bucket access_token user_id source_playlist_name
                       source_playlist_id run_timestamp year_suffix tracks in
      move_buckets access_token user_id source_playlist_name
                   source_playlist_id run_timestamp rest (total_moved + moved)
  end.

Definition source_description_of
    (source_playlist_name run_timestamp : string) (total_moved : Z) : string :=
  source_playlist_name +:+ " (managed by Junk Mover). "
  +:+ "Last run " +:+ run_timestamp +:+ " moved " +:+ Py.str total_moved
  +:+ " tracks to junk drawers.".

(** Lines 323-357: what happens to the candidates. *)
Definition move_candidates
    (access_token user_id source_playlist_name : string)
    (source_playlist_id : nat) (candidates : list track_ref) : M unit :=
  match candidates with
  | [] => ret tt
  | _ :: _ =>
      let! run_timestamp := reads w_now in
      let buckets := group_tracks_by_year_suffix candidates in
      let! total_moved :=
        move_buckets access_token user_id source_playlist_name
                     source_playlist_id run_timestamp buckets 0 in
      update_playlist_description access_token source_playlist_id
        (source_description_of source_playlist_name run_timestamp total_moved)
  end.

(** Lines 293-318: authenticate, find the source, collect the candidates. *)
Definition find_candidates (cfg : config)
    : M (string * string * nat * list track_ref) :=
  let! access_token :=
    fetch_access_token (client_id cfg) (client_secret cfg) (refresh_token cfg) in
  let! me := get_current_user access_token in
  let user_id := user_id_of me in
  let! source_playlist :=
    find_playlist_by_name_owner access_token user_id (source_playlist_name cfg) in
  match source_playlist with
  | None =>
      raise (RuntimeError ("Could not find playlist '" +:+ source_playlist_name cfg
                           +:+ "' owned by this user."))
  | Some (source_playlist_id, _) =>
      let! today := reads w_today in
      let! cutoff_date := lift (date_sub_days today (duration_days cfg)) in
      let! candidates :=
        collect_candidates access_token source_playlist_id cutoff_date in
      ret (access_token, user_id, source_playlist_id, candidates)
  end.

Definition main (environ : gmap string string) : M unit :=
  let! cfg := lift (load_config environ) in
  let! (access_token, user_id, source_playlist_id, candidates) :=
    find_candidates cfg in
  move_candidates access_token user_id (source_playlist_name cfg)
                  source_playlist_id candidates.


(** ** Vocabulary of the statements *)

(** [ceil(n / s)] for a positive [s]. *)
Definition ceil_div (n s : Z) : Z := (n + s - 1) / s.

(** The decimal digit [0 <= n <= 9] as a character. *)
Definition digit_char (n : Z) : ascii := ascii_of_nat (48 + Z.to_nat n).

(** A number below 100 written with exactly two decimal digits. *)
Definition two_digits (n : Z) : string :=
  String (digit_char (n / 10)) (String (digit_char (n mod 10)) EmptyString).

(** What [group_tracks_by_year_suffix] guarantees, by induction over the loop. *)
Record grouped (tracks : list track_ref)
    (buckets : list (string * list track_ref)) : Prop := {
  grouped_keys : NoDup (map fst buckets);
  grouped_key_of : forall k ts t,
    In (k, ts) buckets -> In t ts -> k = year_suffix_of (snd t) /\ In t tracks;
  grouped_mem : forall t,
    In t tracks -> exists ts, In (year_suffix_of (snd t), ts) buckets /\ In t ts;
  grouped_perm : concat (map snd buckets) ≡ₚ tracks;
  grouped_nonempty : Forall (fun b => snd b <> []) buckets
}.


(** Requests that only read the remote state. *)
Definition is_read (req : request) : bool :=
  match req with
  | TokenRefresh _ _ _ | GetMe | GetPlaylists _ _ | GetPlaylistItems _ _ _ => true
  | _ => false
  end.

Definition is_put (req : request) : bool :=
  match req with
  | PutDescription _ _ => true
  | _ => false
  end.

(** The clock, the identity and the token do not change during a run. *)
Definition static (w w' : world) : Prop :=
  w_user w' = w_user w /\ w_token w' = w_token w /\ w_today w' = w_today w
  /\ w_now w' = w_now w /\ w_stamp w' = w_stamp w.

(** The requests made between [w] and [w'] all satisfy [Q]. *)
Definition logged (Q : request -> Prop) (w w' : world) : Prop :=
  exists tr, w_log w' = w_log w ++ tr /\ Forall (fun e => Q (fst e)) tr.

(** Playlists are never deleted, renamed or handed to another owner. *)
Definition grows (w w' : world) : Prop :=
  (length (w_playlists w) <= length (w_playlists w'))%nat
  /\ forall pid p, w_playlists w !! pid = Some p ->
       exists p', w_playlists w' !! pid = Some p'
                  /\ pl_name p' = pl_name p /\ pl_owner p' = pl_owner p.

Definition quiet (w w' : world) : Prop := w_playlists w' = w_playlists w.

(** Every run of [m] relates the world before to the world after by [P],
    whatever the outcome. *)
Definition preserves {A} (P : world -> world -> Prop) (m : M A) : Prop :=
  forall w r w', m w = (r, w') -> P w w'.

(** A computation never runs out of the fuel its loops were given. *)
Definition terminates {A} (m : M A) : Prop :=
  forall w, fst (m w) <> Err Exhausted.

Definition items_of (w : world) (pid : nat) : option (list item) :=
  pl_items <$> w_playlists w !! pid.

Definition name_of (w : world) (pid : nat) : option string :=
  pl_name <$> w_playlists w !! pid.

(** Playlist [pid] holds an entry for the track [u]. *)
Definition holds (pls : list playlist) (pid : nat) (u : string) : Prop :=
  exists p, pls !! pid = Some p /\ has_uri p u.

Definition has_uri_at (w : world) (pid : nat) (u : string) : Prop :=
  holds (w_playlists w) pid u.

(** A string field that is missing, [null] or empty. *)
Definition falsy_field (f : jfield string) : Prop :=
  f = Missing \/ f = Null \/ f = Present EmptyString.

(** The item record lacks its timestamp or its track URI. *)
Definition lacks_field (it : item) : Prop :=
  falsy_field (added_at it)
  \/ track it = Missing \/ track it = Null
  \/ exists t, track it = Present t /\ falsy_field (uri t).

(** The value of [JUNK_MOVER_DURATION_DAYS]. *)
Definition duration_raw (environ : gmap string string) : string :=
  environ_item environ "JUNK_MOVER_DURATION_DAYS".

(** The playlist a lookup by name and owner answers with: the first match
    in listing order. *)
Definition first_match (owner_id target_name : string) (pls : list playlist)
    : option (nat * playlist) :=
  List.find
    (fun playlist : nat * playlist =>
       String.eqb (pl_name (snd playlist)) target_name
       && String.eqb (pl_owner (snd playlist)) owner_id)
    (indexed pls).

(** The entries a listing of playlist [pid] goes through. *)
Definition listed_items (pid : nat) (pls : list playlist) : list item :=
  match pls !! pid with
  | Some p => pl_items p
  | None => []
  end.


(** The playlists after the URIs [uris] were appended to playlist [pid]. *)
Definition add_items (stamp : string) (pid : nat) (uris : list string)
    (pls : list playlist) : list playlist :=
  match pls !! pid with
  | Some p =>
      <[pid := with_items p (pl_items p ++ map (new_item stamp) uris)]> pls
  | None => pls
  end.

(** The playlists after the URIs [uris] were removed from playlist [pid]. *)
Definition remove_items (pid : nat) (uris : list string)
    (pls : list playlist) : list playlist :=
  match pls !! pid with
  | Some p => <[pid := with_items p (List.filter (keeps uris) (pl_items p))]> pls
  | None => pls
  end.

(** Some successful add request of the log carried the URI. *)
Definition added_in (tr : list (request * bool)) (u : string) : Prop :=
  exists pid uris, In (AddTracks pid uris, true) tr /\ In u uris.

(** Every removal request of the log comes after successful adds of all
    the URIs it names. *)
Definition removals_follow_adds (tr : list (request * bool)) : Prop :=
  forall before pid uris ok after,
    tr = before ++ (RemoveTracks pid uris, ok) :: after ->
    forall u, In u uris -> added_in before u.

Definition is_remove (req : request) : bool :=
  match req with
  | RemoveTracks _ _ => true
  | _ => false
  end.

(** The requests made between [w] and [w'] keep removals behind adds. *)
Definition follows (w w' : world) : Prop :=
  exists tr, w_log w' = w_log w ++ tr /\ removals_follow_adds tr.

Abbreviation not_remove := (fun req : request => is_remove req = false).

Abbreviation not_put := (fun req : request => is_put req = false).

(** ** A sample library and sample runs

    A source playlist "Inbox" with three tracks added in 2023, two added in
    2024 and one entry without fields, next to an unrelated playlist; the
    threshold is 0 days. *)

Module Sample.

Definition environ : gmap string string :=
  list_to_map
    [ ("JUNK_MOVER_CLIENT_ID", "id"); ("JUNK_MOVER_CLIENT_SECRET", "secret");
      ("JUNK_MOVER_REFRESH_TOKEN", "refresh");
      ("JUNK_MOVER_SOURCE_PLAYLIST", "Inbox");
      ("JUNK_MOVER_DURATION_DAYS", "0") ]%string.

Definition cfg : config := mkconfig "id" "secret" "refresh" "Inbox" 0.

Definition entry (u ts : string) : item :=
  mkitem (Present ts) (Present (mktrack (Present u))).

Definition blank : item := mkitem Null Null.

Definition inbox : playlist :=
  mkplaylist "Inbox" "me" EmptyString false
    [ entry "a" "2023-01-02T00:00:00Z"; entry "b" "2024-01-02T00:00:00Z";
      entry "c" "2023-05-02T00:00:00Z"; blank;
      entry "d" "2023-05-02T00:00:00Z"; entry "e" "2024-05-02T00:00:00Z" ].

Definition library : list playlist :=
  [ mkplaylist "Other" "me" EmptyString false []; inbox ].

Definition start (playlists : list playlist) (faults : list (option string))
    : world :=
  mkworld "me" "token" (mkdate 2025 11 29) "2025-11-29T10:00:00+00:00"
          "2025-11-29T10:00:00Z" playlists faults [].

(** A run in which the twelfth request, the add of the second bucket,
    fails. *)
Definition faulty : world :=
  start library (repeat None 11 ++ [Some "boom"%string]).

Definition candidates : list track_ref :=
  [ ("a", mkdate 2023 1 2); ("b", mkdate 2024 1 2); ("c", mkdate 2023 5 2);
    ("d", mkdate 2023 5 2); ("e", mkdate 2024 5 2) ]%string.

Definition tracks23 : list track_ref :=
  [ ("a", mkdate 2023 1 2); ("c", mkdate 2023 5 2); ("d", mkdate 2023 5 2) ]%string.

Definition tracks24 : list track_ref :=
  [ ("b", mkdate 2024 1 2); ("e", mkdate 2024 5 2) ]%string.

(** The worlds the faulty run goes through. *)
Definition w0 : world := Eval vm_compute in snd (find_candidates cfg faulty).

Definition w1 : world :=
  Eval vm_compute in
    snd (process_bucket "token" "me" "Inbox" 1 (w_now w0) "23" tracks23 w0).

Definition w2 : world :=
  Eval vm_compute in
    snd (ensure_junk_drawer_playlist "token" "me" (junk_drawer_name "24")
           (base_description_of "24" "Inbox") w1).

Definition w3 : world :=
  Eval vm_compute in snd (add_tracks_to_playlist "token" 3 (map fst tracks24) w2).

(** A library whose source has nothing old enough: with a threshold of
    0 days and a clock set before every entry was added. *)
Definition early : world :=
  mkworld "me" "token" (mkdate 2022 1 1) "2022-01-01T10:00:00+00:00"
          "2022-01-01T10:00:00Z" library [] [].

Definition early_done : world :=
  Eval vm_compute in snd (find_candidates cfg early).

End Sample.

(** The distinct elements of a list, in the order of their first
    occurrence. *)
Definition first_occurrences (keys : list string) : list string :=
  fold_left
    (fun seen k => if existsb (String.eqb k) seen then seen else seen ++ [k])
    keys [].

(** The tracks of a list that fall under a bucket key, in list order. *)
Definition tracks_under (key : string) (tracks : list track_ref)
    : list track_ref :=
  List.filter (fun t => String.eqb (year_suffix_of (snd t)) key) tracks.

(** [s.endswith(suffix)] *)
Fixpoint ends_with (suffix s : string) : bool :=
  String.eqb s suffix
  || match s with
     | EmptyString => false
     | String _ rest => ends_with suffix rest
     end.

(** A playlist name of the form "<key> Junk Drawer". *)
Definition drawer_like (name : string) : bool := ends_with " Junk Drawer" name.

(** The source exists and is not named like a destination. *)
Definition source_apart (src : nat) (w : world) : Prop :=
  exists p, w_playlists w !! src = Some p /\ drawer_like (pl_name p) = false.

(** What a run does to the tracks when the source is a playlist of its
    own: the source gains nothing, the other playlists lose nothing and
    keep their names, and a track that leaves the source is in another
    playlist. *)
Definition conserves (src : nat) (w w' : world) : Prop :=
  source_apart src w ->
  source_apart src w'
  /\ (forall u, has_uri_at w' src u -> has_uri_at w src u)
  /\ (forall pid p u, pid <> src -> w_playlists w !! pid = Some p -> has_uri p u ->
        exists p', w_playlists w' !! pid = Some p'
                   /\ pl_name p' = pl_name p /\ has_uri p' u)
  /\ (forall u, has_uri_at w src u ->
        has_uri_at w' src u \/ exists pid, pid <> src /\ has_uri_at w' pid u).

(** The requests a step may make without touching the source's tracks. *)
Definition spares (src : nat) (req : request) : Prop :=
  match req with
  | RemoveTracks _ _ => False
  | AddTracks pid _ => pid <> src
  | _ => True
  end.

(** A run over the sample library in which no request fails. *)
Module Moved.

Definition start : world := Sample.start Sample.library [].

Definition found : world :=
  Eval vm_compute in snd (find_candidates Sample.cfg start).

Definition finish : world :=
  Eval vm_compute in snd (main Sample.environ start).

End Moved.

(** No request of the run is scheduled to fail. *)
Definition fault_free (w : world) : Prop := w_faults w = [].

(** A step that starts without scheduled faults ends without them, and
    keeps the number of playlists or adds to it. *)
Definition steady (w w' : world) : Prop :=
  fault_free w -> fault_free w'.

(** The candidate loop as a function of the entries it goes through. *)
Definition candidates_of (cutoff : date) (items : list item)
    : result (list track_ref) :=
  match for_each (candidate_step cutoff) items [] with
  | Ok (Continue candidates) => Ok candidates
  | Ok (Return v) => match v with end
  | Err e => Err e
  end.

(** An entry the candidate loop can digest: it lacks a field, or its
    timestamp is an ISO timestamp. *)
Definition digestible (it : item) : Prop :=
  lacks_field it \/ exists T d, get (added_at it) = Some T /\ iso_to_date T = Ok d.

(** An entry with a URI whose timestamp, once its trailing "Z"s are gone,
    does not start with the four digits of a year. *)
Definition undated (it : item) : Prop :=
  exists T u,
    get (added_at it) = Some T /\ T <> EmptyString
    /\ item_uri it = Some u /\ u <> EmptyString
    /\ Iso.take_digits 4 0 (Py.rstrip "Z" T) = None.

(** The outcome of the first part of a run in which no request fails. *)
Definition found (cfg : config) (w : world)
    : result (string * string * nat * list track_ref) :=
  match first_match (w_user w) (source_playlist_name cfg) (w_playlists w) with
  | None =>
      Err (RuntimeError ("Could not find playlist '" +:+ source_playlist_name cfg
                         +:+ "' owned by this user."))
  | Some (source_playlist_id, p) =>
      cutoff_date ← date_sub_days (w_today w) (duration_days cfg);
      candidates ← candidates_of cutoff_date (pl_items p);
      Ok (w_token w, w_user w, source_playlist_id, candidates)
  end.

(** Sample runs that stop early: a source with one entry whose timestamp
    is no date, and a day count that reaches back before year 1. *)
Module Edge.

Definition inbox : playlist :=
  with_items Sample.inbox
    (pl_items Sample.inbox ++ [Sample.entry "x" "someday"]).

Definition start : world := Sample.start [inbox] [].

Definition environ : gmap string string :=
  <["JUNK_MOVER_DURATION_DAYS" := "800000"]> Sample.environ.

Definition cfg : config := mkconfig "id" "secret" "refresh" "Inbox" 800000.

End Edge.

(** The [j]-th batch of a list of URIs. *)
Definition batch (uris : list string) (j : nat) : list string :=
  take 100 (drop (j * 100) uris).

(** The log entries of [k] accepted batches, followed by the refused one
    if the loop stopped on an error. *)
Definition batch_log (mk : list string -> request) (uris : list string)
    (k : nat) (failed : bool) : list (request * bool) :=
  map (fun j => (mk (batch uris j), true)) (seq 0 k)
  ++ (if failed then [(mk (batch uris k), false)] else []).


(** ** Loading [.env] ([load_env_from_root], lines 28-39)

    The file is given as the list of its lines, which is what
    [read_text().splitlines()] hands to the loop, or as [None] when it does
    not exist.  [os.environ] refuses a variable whose name is empty or
    contains "=", and a name or value with a NUL character; the exception
    it raises then ends the script (its class depends on the platform), so
    the loader answers [None]. *)

(** [s.strip()] and [s.lstrip()] for ASCII text. *)
Definition lstrip (s : string) : string := Py.lstrip_by Py.isspace s.

Definition strip (s : string) : string := Py.rstrip_by Py.isspace (lstrip s).

(** [s.startswith("#")] *)
Definition startswith_hash (s : string) : bool :=
  match s with
  | String c _ => Ascii.eqb c "#"
  | EmptyString => false
  end.

(** [line.split("=", 1)] when it yields two parts. *)
Fixpoint split_eq (line : string) : option (string * string) :=
  match line with
  | EmptyString => None
  | String c rest =>
      if Ascii.eqb c "=" then Some (EmptyString, rest)
      else '(key, value) ← split_eq rest; Some (String c key, value)
  end.

Definition has_nul (s : string) : bool := Py.contains_char s Ascii.zero.

(** [os.environ.setdefault(key, value)] *)
Definition setdefault (environ : gmap string string) (key value : string)
    : option (gmap string string) :=
  match environ !! key with
  | Some _ => Some environ
  | None =>
      if has_nul key || has_nul value || String.eqb key EmptyString
         || Py.contains_char key "="
      then None
      else Some (<[key := value]> environ)
  end.

(** Body of the loop over the lines. *)
Definition load_line (environ : gmap string string) (line : string)
    : option (gmap string string) :=
  if String.eqb line EmptyString || startswith_hash (lstrip line)
     || negb (Py.contains_char line "=")
  then Some environ
  else
    '(key, value) ← split_eq line;
    setdefault environ (strip key) (strip value).

Fixpoint load_lines (lines : list string) (environ : gmap string string)
    : option (gmap string string) :=
  match lines with
  | [] => Some environ
  | line :: rest => environ' ← load_line environ line; load_lines rest environ'
  end.

Definition load_env_from_root (env_file : option (list string))
    (environ : gmap string string) : option (gmap string string) :=
  match env_file with
  | None => Some environ
  | Some lines => load_lines lines environ
  end.

(** The assignment a line stands for, if it is not skipped. *)
Definition assignment (line : string) : option (string * string) :=
  if String.eqb line EmptyString || startswith_hash (lstrip line)
     || negb (Py.contains_char line "=")
  then None
  else '(key, value) ← split_eq line; Some (strip key, strip value).

(** The value of the first assignment to a key in a list of lines. *)
Fixpoint first_assignment (key : string) (lines : list string) : option string :=
  match lines with
  | [] => None
  | line :: rest =>
      match assignment line with
      | Some (k, v) => if String.eqb k key then Some v else first_assignment key rest
      | None => first_assignment key rest
      end
  end.

(** A name and a value [os.environ] accepts. *)
Definition accepted (key value : string) : bool :=
  negb (has_nul key || has_nul value || String.eqb key EmptyString
        || Py.contains_char key "=").


(** ** Timestamps in the service's format *)

(** A number below 10000 written with exactly four decimal digits. *)
Definition four_digits (n : Z) : string :=
  String (digit_char (n / 1000))
    (String (digit_char (n / 100 mod 10)) (two_digits (n mod 100))).

(** "YYYY-MM-DDTHH:MM:SSZ", the form in which the service reports when an
    entry was added. *)
Definition spotify_timestamp (d : date) (hh mm ss : Z) : string :=
  four_digits (year d) +:+ "-" +:+ two_digits (month d) +:+ "-"
  +:+ two_digits (day d) +:+ "T" +:+ two_digits hh +:+ ":" +:+ two_digits mm
  +:+ ":" +:+ two_digits ss +:+ "Z".


(** ** Storing the refresh token ([generate_refresh_token.py], lines 89-104)

    The file is its text, or [None] when it does not exist; the result is
    the text written back.  The model covers ASCII text ([ascii_text]): on
    it the UTF-8 codec of the script and the default codec of the loader
    in [junk_mover.py] agree, and the line boundaries of [str.splitlines]
    are the seven characters of [is_line_break].  [read_text] turns "\r\n"
    and "\r" into "\n" before [splitlines] sees them, which gives the same
    lines as [splitlines] on the text as stored. *)

Definition ascii_text (s : string) : bool :=
  forallb (fun c => (nat_of_ascii c <? 128)%nat) (list_ascii_of_string s).

Definition LF : ascii := "010".

Definition CR : ascii := "013".

(** The line boundaries of [str.splitlines]: line feed, vertical tab, form
    feed, carriage return, and the file, group and record separators. *)
Definition is_line_break (c : ascii) : bool :=
  let n := nat_of_ascii c in
  ((10 <=? n) && (n <=? 13) || (28 <=? n) && (n <=? 30))%nat.

(** [text.splitlines()], with the line read so far in [cur]. *)
Fixpoint splitlines_from (text cur : string) : list string :=
  match text with
  | EmptyString =>
      match cur with
      | EmptyString => []
      | String _ _ => [cur]
      end
  | String c rest =>
      if is_line_break c then
        cur :: match rest with
               | String c2 rest2 =>
                   if Ascii.eqb c CR && Ascii.eqb c2 LF
                   then splitlines_from rest2 EmptyString
                   else splitlines_from rest EmptyString
               | EmptyString => []
               end
      else splitlines_from rest (cur +:+ String c EmptyString)
  end.

Definition splitlines (text : string) : list string :=
  splitlines_from text EmptyString.

(** ["\n".join(lines) + "\n"] *)
Definition write_lines (lines : list string) : string :=
  Py.join (String LF EmptyString) lines +:+ String LF EmptyString.

Definition has_line_break (s : string) : bool :=
  existsb is_line_break (list_ascii_of_string s).

Definition refresh_token_key : string := "JUNK_MOVER_REFRESH_TOKEN".

Definition refresh_token_prefix : string := "JUNK_MOVER_REFRESH_TOKEN=".

(** The loop over [enumerate(lines)]: the first line that starts with the
    prefix is replaced; [None] stands for [updated = False]. *)
Fixpoint replace_first (new : string) (lines : list string)
    : option (list string) :=
  match lines with
  | [] => None
  | line :: rest =>
      if String.prefix refresh_token_prefix line then Some (new :: rest)
      else cons line <$> replace_first new rest
  end.

Definition update_env_refresh_token (env_file : option string)
    (refresh_token : string) : string :=
  let new := refresh_token_prefix +:+ refresh_token in
  match env_file with
  | None => new +:+ String LF EmptyString
  | Some text =>
      let lines := splitlines text in
      write_lines
        match replace_first new lines with
        | Some updated => updated
        | None => lines ++ [new]
        end
  end.

(** The lines of the file as the script reads them. *)
Definition lines_of (env_file : option string) : list string :=
  match env_file with
  | Some text => splitlines text
  | None => []
  end.

(** A step on the sample library that is cut right after its adds: the
    lookup, the creation and the add go through, the first removal fails. *)
Module Between.

Definition start : world :=
  Sample.start Sample.library [None; None; None; Some "cut"%string].

Definition created : world :=
  Eval vm_compute in
    snd (ensure_junk_drawer_playlist "token" "me" (junk_drawer_name "23")
           (base_description_of "23" "Inbox") start).

Definition added : world :=
  Eval vm_compute in
    snd (add_tracks_to_playlist "token" 2 (map fst Sample.tracks23) created).

End Between.

(** The sample library with a threshold of 700 days: on 29 November 2025
    the cutoff is 30 December 2023. *)
Module Aged.

Definition cfg : config := mkconfig "id" "secret" "refresh" "Inbox" 700.

Definition found : world :=
  Eval vm_compute in snd (find_candidates cfg Moved.start).

End Aged.


(** ** Entries that are not candidates *)

(** The entries of playlist [src] that carry none of the URIs [uris] are
    still there. *)
Definition stays (uris : list string) (src : nat) (w w' : world) : Prop :=
  forall it, In it (listed_items src (w_playlists w)) ->
    keeps uris it = true -> In it (listed_items src (w_playlists w')).

(** Requests that remove, if anything, only URIs among [uris]. *)
Definition removes_within (uris : list string) (req : request) : Prop :=
  match req with
  | RemoveTracks _ chunk => forall u, In u chunk -> In u uris
  | _ => True
  end.

(** A source in which an entry without a timestamp shares its URI with a
    dated entry, and the run over it. *)
Module Twin.

Definition undated : item := mkitem Null (Present (mktrack (Present "a"))).

Definition inbox : playlist :=
  mkplaylist "Inbox" "me" EmptyString false
    [Sample.entry "a" "2023-01-02T00:00:00Z"; undated].

Definition start : world := Sample.start [inbox] [].

Definition finish : world :=
  Eval vm_compute in snd (main Sample.environ start).

End Twin.
(** * Properties *)

(** ** Calendar arithmetic *)

Section CalendarFacts.

Lemma div_mod_pack d q r :
  0 <= r < d -> (d * q + r) / d = q /\ (d * q + r) mod d = r.
Proof.
  intros H. split; symmetry.
  - apply (Z.div_unique_pos _ d q r); lia.
  - apply (Z.mod_unique_pos _ d q r); lia.
Qed.

(** Leap years in terms of the position of [y - 1] in the 400-year cycle. *)
Lemma is_leap_cycle y :
  1 <= y ->
  let q := y - 1 in
  let e := q mod 4 in
  let c := (q / 4) mod 25 in
  let b := (q / 100) mod 4 in
  is_leap y = (e =? 3) && (negb (c =? 24) || (b =? 3)).
Proof.
  intros Hy q e c b. unfold is_leap.
  assert (H4 : (y mod 4 =? 0) = (e =? 3)).
  { subst e q.
    destruct (Z.eqb_spec (y mod 4) 0), (Z.eqb_spec ((y - 1) mod 4) 3);
      try reflexivity; exfalso; Z.to_euclidean_division_equations; lia. }
  rewrite H4. destruct (Z.eqb_spec e 3) as [He|He]; [|reflexivity].
  cbn [andb].
  assert (H100 : (y mod 100 =? 0) = (c =? 24)).
  { subst e c q.
    destruct (Z.eqb_spec (y mod 100) 0),
             (Z.eqb_spec (((y - 1) / 4) mod 25) 24);
      try reflexivity; exfalso; Z.to_euclidean_division_equations; lia. }
  rewrite H100. destruct (Z.eqb_spec c 24) as [Hc|Hc]; [|reflexivity].
  cbn [negb orb]. subst e c b q.
  destruct (Z.eqb_spec (y mod 400) 0),
           (Z.eqb_spec (((y - 1) / 100) mod 4) 3);
    try reflexivity; exfalso; Z.to_euclidean_division_equations; lia.
Qed.

Ltac month_cases m :=
  let H := fresh "Hcases" in
  assert (H : m = 1 \/ m = 2 \/ m = 3 \/ m = 4 \/ m = 5 \/ m = 6 \/ m = 7 \/
              m = 8 \/ m = 9 \/ m = 10 \/ m = 11 \/ m = 12) by lia;
  repeat (destruct H as [-> | H]); try subst m.

Lemma day_of_year_bounds (leap : bool) m d :
  1 <= m <= 12 ->
  1 <= d <= (if (m =? 2) && leap then 29 else DAYS_IN_MONTH m) ->
  let n := DAYS_BEFORE_MONTH m + (if (m >? 2) && leap then 1 else 0) + d - 1 in
  0 <= n <= 364 + (if leap then 1 else 0) /\ (n = 365 -> m = 12 /\ d = 31).
Proof.
  intros Hm Hd. destruct leap; month_cases m; cbn in Hd |- *; lia.
Qed.

(** The month search of [ord2ymd] recovers month and day from the day of
    the year. *)
Lemma month_day_of_day_of_year (leap : bool) m d :
  1 <= m <= 12 ->
  1 <= d <= (if (m =? 2) && leap then 29 else DAYS_IN_MONTH m) ->
  let n := DAYS_BEFORE_MONTH m + (if (m >? 2) && leap then 1 else 0) + d - 1 in
  let month := Z.shiftr (n + 50) 5 in
  let preceding :=
    DAYS_BEFORE_MONTH month + (if (month >? 2) && leap then 1 else 0) in
  (if preceding >? n then
     let month := month - 1 in
     let preceding :=
       preceding
       - (DAYS_IN_MONTH month + (if (month =? 2) && leap then 1 else 0)) in
     (month, n - preceding + 1)
   else (month, n - preceding + 1)) = (m, d).
Proof.
  intros Hm Hd. cbv zeta.
  rewrite Z.shiftr_div_pow2 by lia. change (2 ^ 5) with 32.
  destruct leap; month_cases m;
    cbn [DAYS_BEFORE_MONTH DAYS_IN_MONTH Z.eqb Z.gtb Z.compare Pos.compare
         Pos.compare_cont Pos.eqb andb] in Hd |- *;
    match goal with
    | |- context [ ?x / 32 ] =>
        let k := fresh "k" in
        let Hk := fresh "Hk" in
        let Hc := fresh "Hc" in
        remember (x / 32) as k eqn:Hk;
        assert (k = 1 \/ k = 2 \/ k = 3 \/ k = 4 \/ k = 5 \/ k = 6 \/ k = 7 \/
                k = 8 \/ k = 9 \/ k = 10 \/ k = 11 \/ k = 12 \/ k = 13) as Hc
          by (subst k; Z.to_euclidean_division_equations; lia);
        repeat (destruct Hc as [-> | Hc]); try subst k;
        try (exfalso; Z.to_euclidean_division_equations; lia)
    end.
  all: cbn [DAYS_BEFORE_MONTH DAYS_IN_MONTH Z.eqb Z.gtb Z.compare Pos.compare
            Pos.compare_cont Pos.eqb andb Z.sub Z.add Z.opp Z.pos_sub Pos.add
            Pos.succ Pos.pred_double Z.double Z.succ_double Z.pred_double].
  all: match goal with
       | |- context [ ?a >? ?b ] => destruct (Z.gtb_spec a b)
       end.
  all: try (exfalso; Z.to_euclidean_division_equations; lia).
  all: repeat match goal with
       | |- context [Z.pos ?a - 1] =>
           let v := eval compute in (Z.pos a - 1) in
           change (Z.pos a - 1) with v
       end.
  all: cbn [DAYS_BEFORE_MONTH DAYS_IN_MONTH Z.eqb Pos.eqb andb].
  all: f_equal; lia.
Qed.

(** Ordinals identify dates: [fromordinal] undoes [toordinal]. *)
Lemma ord2ymd_ymd2ord y m d :
  1 <= y -> 1 <= m <= 12 -> 1 <= d <= days_in_month y m ->
  ord2ymd (ymd2ord y m d) = mkdate y m d.
Proof.
  intros Hy Hm Hd.
  pose proof (is_leap_cycle y Hy) as Hleap. cbv zeta in Hleap.
  set (q := y - 1) in *. set (a := q / 400).
  set (e := q mod 4) in *. set (c := (q / 4) mod 25) in *.
  set (b := (q / 100) mod 4) in *.
  assert (Hq : q = 400 * a + 100 * b + 4 * c + e /\ 0 <= a /\ 0 <= b < 4
               /\ 0 <= c < 25 /\ 0 <= e < 4).
  { subst a b c e. Z.to_euclidean_division_equations. lia. }
  destruct Hq as (Hq & Ha & Hb & Hc & He).
  assert (Hdby : days_before_year y
                 = 146097 * a + 36524 * b + 1461 * c + 365 * e).
  { unfold days_before_year. cbv zeta. fold q.
    replace (q / 4) with (100 * a + 25 * b + c)
      by (rewrite Hq; Z.to_euclidean_division_equations; lia).
    replace (q / 100) with (4 * a + b)
      by (rewrite Hq; Z.to_euclidean_division_equations; lia).
    fold a. lia. }
  unfold days_in_month in Hd. set (leap := is_leap y) in *.
  pose proof (day_of_year_bounds leap m d Hm Hd) as Hdoy. cbv zeta in Hdoy.
  pose proof (month_day_of_day_of_year leap m d Hm Hd) as Hmd.
  cbv zeta in Hmd.
  unfold ymd2ord, days_before_month. fold leap. rewrite Hdby.
  set (doy := DAYS_BEFORE_MONTH m + (if (m >? 2) && leap then 1 else 0) + d - 1)
    in *.
  unfold ord2ymd. cbv zeta.
  replace (146097 * a + 36524 * b + 1461 * c + 365 * e
           + (DAYS_BEFORE_MONTH m + (if (m >? 2) && leap then 1 else 0)) + d - 1)
    with (146097 * a + (36524 * b + 1461 * c + 365 * e + doy))
    by (subst doy; lia).
  destruct Hdoy as [Hdoy Hlast].
  assert (Hleapdoy : doy = 365 -> e = 3 /\ (c <> 24 \/ b = 3)).
  { intros H365. destruct leap eqn:El; [|lia]. symmetry in Hleap.
    apply andb_true_iff in Hleap as [H1 H2]. apply orb_true_iff in H2.
    rewrite negb_true_iff in H2. lia. }
  assert (Hr1 : 0 <= 36524 * b + 1461 * c + 365 * e + doy < 146097)
    by (destruct leap; lia).
  destruct (div_mod_pack 146097 a _ Hr1) as [-> ->].
  destruct (Z.eq_dec doy 365) as [H365 | H365].
  - (* 31 December of a leap year *)
    destruct (Hlast H365) as [-> ->]. destruct (Hleapdoy H365) as [-> Hcb].
    rewrite H365.
    destruct (Z.eq_dec c 24) as [-> | Hc24].
    + assert (b = 3) as -> by lia.
      replace y with (400 * a + 400) by lia. vm_compute (_ / 36524).
      vm_compute ((36524 * 3 + 1461 * 24 + 365 * 3 + 365) mod 36524).
      rewrite orb_true_r. change (0 / 1461) with 0.
      change (0 mod 1461 / 365) with 0. f_equal. lia.
    + replace (36524 * b + 1461 * c + 365 * 3 + 365)
        with (36524 * b + (1461 * c + 1460)) by lia.
      destruct (div_mod_pack 36524 b (1461 * c + 1460) ltac:(lia)) as [-> ->].
      destruct (div_mod_pack 1461 c 1460 ltac:(lia)) as [-> ->].
      change (1460 / 365) with 4. cbn [Z.eqb Pos.eqb orb]. f_equal. lia.
  - assert (Hr2 : 0 <= 1461 * c + 365 * e + doy < 36524)
      by (destruct leap; lia).
    replace (36524 * b + 1461 * c + 365 * e + doy)
      with (36524 * b + (1461 * c + 365 * e + doy)) by lia.
    destruct (div_mod_pack 36524 b _ Hr2) as [-> ->].
    replace (1461 * c + 365 * e + doy) with (1461 * c + (365 * e + doy)) by lia.
    destruct (div_mod_pack 1461 c (365 * e + doy) ltac:(destruct leap; lia))
      as [-> ->].
    destruct (div_mod_pack 365 e doy ltac:(destruct leap; lia)) as [-> ->].
    replace (e =? 4) with false by (symmetry; apply Z.eqb_neq; lia).
    replace (b =? 4) with false by (symmetry; apply Z.eqb_neq; lia).
    cbn [orb]. rewrite <- Hleap.
    replace (a * 400 + 1 + b * 100 + c * 4 + e) with y by lia.
    destruct (_ >? doy); injection Hmd as -> ->; reflexivity.
Qed.

Lemma fromordinal_toordinal d :
  valid_date d -> fromordinal (toordinal d) = d.
Proof.
  intros (Hy & Hm & Hd). unfold fromordinal, toordinal, MINYEAR in *.
  rewrite ord2ymd_ymd2ord by lia. by destruct d.
Qed.

Lemma days_before_year_bounds y :
  1 <= y <= 9999 ->
  0 <= days_before_year y <= 3651694
  /\ (y <= 9998 -> days_before_year y <= 3651329).
Proof.
  intros Hy. unfold days_before_year. cbv zeta.
  Z.to_euclidean_division_equations; lia.
Qed.

Lemma is_leap_mod4 y : is_leap y = true -> y mod 4 = 0.
Proof.
  unfold is_leap. intros [H _]%andb_true_iff. by apply Z.eqb_eq.
Qed.

(** Ordinals of representable dates are within the range [date] accepts. *)
Lemma toordinal_range d :
  valid_date d -> 0 < toordinal d <= MAXORDINAL.
Proof.
  destruct d as [y m dd]. unfold valid_date, toordinal, ymd2ord.
  cbn [year month day]. unfold MINYEAR, MAXYEAR, MAXORDINAL.
  intros (Hy & Hm & Hd).
  unfold days_in_month in Hd. unfold days_before_month.
  pose proof (day_of_year_bounds (is_leap y) m dd Hm Hd) as [Hb _].
  pose proof (days_before_year_bounds y Hy) as [H1 H2].
  destruct (is_leap y) eqn:Hleap.
  - apply is_leap_mod4 in Hleap.
    assert (y <= 9998) by (Z.to_euclidean_division_equations; lia). lia.
  - lia.
Qed.

Lemma date_sub_days_0 d : valid_date d -> date_sub_days d 0 = Ok d.
Proof.
  intros Hd. unfold date_sub_days. cbn [Z.abs Z.gtb Z.compare Z.opp].
  rewrite Z.add_0_r. pose proof (toordinal_range d Hd) as [H1 H2].
  destruct (Z.ltb_spec 0 (toordinal d)); [|lia].
  destruct (Z.leb_spec (toordinal d) MAXORDINAL); [|lia].
  cbn [andb]. by rewrite fromordinal_toordinal.
Qed.

Lemma valid_dateb_spec d : valid_dateb d = true <-> valid_date d.
Proof.
  unfold valid_dateb, valid_date. rewrite !andb_true_iff, !Z.leb_le. tauto.
Qed.

Lemma date_le_refl d : date_le d d = true.
Proof.
  unfold date_le. rewrite !Z.eqb_refl. apply Z.leb_refl.
Qed.

End CalendarFacts.

(** ** Batch chunking *)

Section Chunking.
Context {A : Type}.
Implicit Types (l : list A) (size : Z).

(** Chunks taken at multiples of the size rebuild a prefix of the list. *)
Lemma concat_take_drop l (s m : nat) :
  concat (map (fun k : nat => take s (drop (k * s) l)) (seq 0 m)) = take (m * s) l.
Proof.
  induction m as [|m IH].
  - by rewrite take_0.
  - rewrite seq_S, map_app, concat_app, IH. cbn [map concat].
    rewrite app_nil_r, take_take_drop. f_equal. lia.
Qed.

Lemma slice_chunk l (i size : Z) :
  0 <= i <= len l -> 0 < size ->
  Py.slice l i (i + size) = take (Z.to_nat size) (drop (Z.to_nat i) l).
Proof.
  intros Hi Hs. unfold Py.slice, Py.slice_bound, len in *. cbv zeta.
  destruct (Z.ltb_spec i 0); [lia|].
  destruct (Z.ltb_spec (i + size) 0); [lia|].
  rewrite (Z.min_l i) by lia.
  destruct (Z.le_ge_cases (i + size) (Z.of_nat (length l))).
  - rewrite Z.min_l by lia. f_equal. lia.
  - rewrite Z.min_r by lia.
    rewrite !take_ge; [done| |]; rewrite length_drop; lia.
Qed.

Lemma ceil_div_spec n s : 0 <= n -> 0 < s ->
  0 <= ceil_div n s /\ n <= ceil_div n s * s < n + s.
Proof.
  unfold ceil_div. intros. split; [apply Z.div_pos; lia|].
  Z.to_euclidean_division_equations. nia.
Qed.

Lemma range_length_ceil n s : 0 <= n -> 0 < s ->
  Py.range_length 0 n s = ceil_div n s.
Proof.
  intros Hn Hs. unfold Py.range_length, ceil_div.
  destruct (Z.ltb_spec 0 s); [|lia].
  destruct (Z.ltb_spec 0 n).
  - rewrite Z.sub_0_r. replace (n + s - 1) with ((n - 1) + 1 * s) by lia.
    rewrite Z.div_add by lia. done.
  - assert (n = 0) as -> by lia. symmetry. apply Z.div_small. lia.
Qed.

Lemma chunked_eq l size : 0 < size ->
  chunked l size =
    Ok (map (fun k : nat => take (Z.to_nat size) (drop (k * Z.to_nat size) l))
            (seq 0 (Z.to_nat (ceil_div (len l) size)))).
Proof.
  intros Hs. unfold chunked. destruct (Z.eqb_spec size 0); [lia|].
  f_equal. unfold Py.range. fold (len l).
  rewrite range_length_ceil by (unfold len; lia).
  rewrite map_map. apply map_ext_in. intros k Hk%in_seq.
  pose proof (ceil_div_spec (len l) size ltac:(unfold len; lia) Hs) as Hc.
  rewrite slice_chunk; [|nia|lia]. do 2 f_equal. nia.
Qed.

End Chunking.

(** C5. For a positive batch size, [chunked] yields exactly
    [ceil(N / S)] chunks (the least count whose total capacity covers the
    list), each of length at most [S], and their concatenation in order is
    the original list. *)
Theorem chunked_spec {A} (l : list A) (size : Z) :
  0 < size ->
  exists chunks,
    chunked l size = Ok chunks
    /\ len chunks = ceil_div (len l) size
    /\ len l <= len chunks * size < len l + size
    /\ Forall (fun chunk => len chunk <= size) chunks
    /\ concat chunks = l.
Proof.
  intros Hs. eexists. split; [by apply chunked_eq|].
  pose proof (ceil_div_spec (len l) size ltac:(unfold len; lia) Hs) as Hc.
  assert (Hlen : len (map (fun k : nat => take (Z.to_nat size) (drop (k * Z.to_nat size) l))
            (seq 0 (Z.to_nat (ceil_div (len l) size)))) = ceil_div (len l) size).
  { unfold len at 1. rewrite length_map, length_seq. lia. }
  split; [done|]. split; [rewrite Hlen; apply Hc|]. split.
  - apply List.Forall_forall. intros c (k & <- & _)%in_map_iff.
    unfold len. rewrite length_take. lia.
  - rewrite concat_take_drop. apply take_ge. unfold len in *.
    apply Nat2Z.inj_le. rewrite Nat2Z.inj_mul, !Z2Nat.id by lia. lia.
Qed.

(** ** Bucketing *)

Section Bucketing.

Lemma format_02d_two_digits n :
  0 <= n < 100 -> Py.format_02d n = two_digits n.
Proof.
  intros Hn. rewrite <- (Z2Nat.id n) by lia.
  assert (Hk : (Z.to_nat n < 100)%nat) by lia.
  generalize dependent (Z.to_nat n). clear. intros k Hk.
  do 100 (destruct k as [|k]; [reflexivity|]). lia.
Qed.

Lemma year_suffix_two_digits d :
  year_suffix_of d = two_digits (year d mod 100).
Proof.
  unfold year_suffix_of. apply format_02d_two_digits.
  apply Z.mod_pos_bound. lia.
Qed.

Context {V : Type}.
Implicit Types (buckets : list (string * list V)).

Lemma setdefault_append_keys key x buckets :
  map fst (setdefault_append key x buckets)
  = if decide (key ∈ map fst buckets) then map fst buckets
    else map fst buckets ++ [key].
Proof.
  induction buckets as [|[k xs] rest IH]; cbn [setdefault_append map fst].
  - rewrite decide_False; [done|]. by intros ?%elem_of_nil.
  - destruct (String.eqb_spec k key) as [->|Hne]; cbn [map fst].
    + rewrite decide_True; [done|]. apply elem_of_cons. by left.
    + rewrite IH. destruct (decide (key ∈ map fst rest)) as [Hin|Hin].
      * rewrite decide_True; [done|]. apply elem_of_cons. by right.
      * rewrite decide_False; [done|]. intros [?|?]%elem_of_cons; congruence.
Qed.

Lemma setdefault_append_NoDup key x buckets :
  NoDup (map fst buckets) -> NoDup (map fst (setdefault_append key x buckets)).
Proof.
  intros Hnd. rewrite setdefault_append_keys. case_decide; [done|].
  apply NoDup_app. split; [done|]. split; [|apply NoDup_singleton].
  intros k Hk ->%list_elem_of_singleton. done.
Qed.

Lemma setdefault_append_In key x buckets k xs y :
  In (k, xs) (setdefault_append key x buckets) -> In y xs ->
  (k = key /\ y = x) \/ exists xs', In (k, xs') buckets /\ In y xs'.
Proof.
  induction buckets as [|[k' xs'] rest IH]; cbn [setdefault_append].
  - intros [[= <- <-]|[]] [<-|[]]. by left.
  - destruct (String.eqb_spec k' key) as [->|Hne].
    + intros [[= <- <-]|Hin] Hy.
      * apply in_app_or in Hy as [Hy|[<-|[]]]; [|by left].
        right. exists xs'. split; [by left|done].
      * right. exists xs. split; [by right|done].
    + intros [[= <- <-]|Hin] Hy.
      * right. exists xs'. split; [by left|done].
      * destruct (IH Hin Hy) as [?|(xs0 & ? & ?)]; [by left|].
        right. exists xs0. split; [by right|done].
Qed.

Lemma setdefault_append_mem key x buckets :
  exists xs, In (key, xs) (setdefault_append key x buckets) /\ In x xs.
Proof.
  induction buckets as [|[k' xs'] rest IH]; cbn [setdefault_append].
  - exists [x]. split; by left.
  - destruct (String.eqb_spec k' key) as [->|Hne].
    + exists (xs' ++ [x]). split; [by left|]. apply in_or_app. right. by left.
    + destruct IH as (xs & ? & ?). exists xs. split; [by right|done].
Qed.

Lemma setdefault_append_keep key x buckets k xs y :
  In (k, xs) buckets -> In y xs ->
  exists xs', In (k, xs') (setdefault_append key x buckets) /\ In y xs'.
Proof.
  induction buckets as [|[k' xs'] rest IH]; cbn [setdefault_append]; [done|].
  destruct (String.eqb_spec k' key) as [->|Hne].
  - intros [[= -> ->]|Hin] Hy.
    + exists (xs ++ [x]). split; [by left|]. apply in_or_app. by left.
    + exists xs. split; [by right|done].
  - intros [[= -> ->]|Hin] Hy.
    + exists xs. split; [by left|done].
    + destruct (IH Hin Hy) as (xs0 & ? & ?). exists xs0. split; [by right|done].
Qed.

Lemma setdefault_append_perm key x buckets :
  concat (map snd (setdefault_append key x buckets))
  ≡ₚ concat (map snd buckets) ++ [x].
Proof.
  induction buckets as [|[k' xs'] rest IH]; cbn [setdefault_append map snd concat].
  - done.
  - destruct (String.eqb_spec k' key) as [->|Hne]; cbn [map snd concat].
    + rewrite <- !app_assoc. apply Permutation_app_head.
      apply Permutation_app_comm.
    + rewrite IH. by rewrite app_assoc.
Qed.

Lemma setdefault_append_nonempty key x buckets :
  Forall (fun b => snd b <> []) buckets ->
  Forall (fun b => snd b <> []) (setdefault_append key x buckets).
Proof.
  induction 1 as [|[k xs] rest Hx Hrest IH]; cbn [setdefault_append].
  - repeat constructor. done.
  - destruct (String.eqb k key); constructor; try done.
    cbn. by destruct xs.
Qed.

End Bucketing.

Lemma group_loop_grouped tracks done buckets :
  grouped done buckets ->
  grouped (done ++ tracks)
    (fold_left
       (fun buckets '(uri, added_date) =>
          let year_suffix := year_suffix_of added_date in
          setdefault_append year_suffix (uri, added_date) buckets)
       tracks buckets).
Proof.
  revert done buckets.
  induction tracks as [|[u d] rest IH]; intros done buckets Hg; cbn [fold_left].
  - by rewrite app_nil_r.
  - rewrite (cons_middle (u, d) done rest), app_assoc.
    apply IH. destruct Hg as [Hk Hof Hmem Hperm Hne]. split.
    + by apply setdefault_append_NoDup.
    + intros k ts t Hin Ht.
      destruct (setdefault_append_In _ _ _ _ _ _ Hin Ht)
        as [[-> ->]|(xs' & Hin' & Ht')].
      * split; [done|]. apply in_or_app. right. by left.
      * destruct (Hof _ _ _ Hin' Ht') as [-> ?]. split; [done|].
        apply in_or_app. by left.
    + intros t [Ht|[<-|[]]]%in_app_or.
      * destruct (Hmem t Ht) as (ts & Hin & Hts).
        eapply setdefault_append_keep; eauto.
      * apply setdefault_append_mem.
    + by rewrite setdefault_append_perm, Hperm.
    + by apply setdefault_append_nonempty.
Qed.

Lemma group_tracks_grouped tracks :
  grouped tracks (group_tracks_by_year_suffix tracks).
Proof.
  apply (group_loop_grouped tracks [] []).
  split; cbn; try done; constructor.
Qed.

Lemma string_length_app (a b : string) :
  String.length (a +:+ b) = (String.length a + String.length b)%nat.
Proof.
  induction a as [|c a IH]; [done|].
  change (S (String.length (a +:+ b))
          = S (String.length a + String.length b)). by rewrite IH.
Qed.

Lemma string_app_inj_l (s k1 k2 : string) :
  k1 +:+ s = k2 +:+ s -> k1 = k2.
Proof.
  intros H.
  assert (Hlen : String.length k1 = String.length k2).
  { apply (f_equal String.length) in H. rewrite !string_length_app in H. lia. }
  revert k2 H Hlen. induction k1 as [|c k1 IH]; intros [|c2 k2] H Hlen;
    try done.
  cbn in H, Hlen. injection H as -> H. f_equal. apply IH; [done|lia].
Qed.

Lemma junk_drawer_name_inj k1 k2 :
  junk_drawer_name k1 = junk_drawer_name k2 -> k1 = k2.
Proof. apply string_app_inj_l. Qed.

(** C2. Every track of a bucket has the bucket's key equal to its added
    year modulo 100 written with exactly two decimal digits, and every
    grouped track sits under that key; 2005, 2099 and 2025 give "05", "99"
    and "25". *)
Theorem bucket_key_two_digits (tracks : list track_ref) :
  (forall key ts t,
      In (key, ts) (group_tracks_by_year_suffix tracks) -> In t ts ->
      key = two_digits (year (snd t) mod 100))
  /\ (forall t, In t tracks ->
      exists ts, In (two_digits (year (snd t) mod 100), ts)
                    (group_tracks_by_year_suffix tracks) /\ In t ts)
  /\ year_suffix_of (mkdate 2005 1 1) = "05"%string
  /\ year_suffix_of (mkdate 2099 1 1) = "99"%string
  /\ year_suffix_of (mkdate 2025 1 1) = "25"%string.
Proof.
  pose proof (group_tracks_grouped tracks) as Hg. split; [|split].
  - intros key ts t Hin Ht. rewrite <- year_suffix_two_digits.
    by destruct (grouped_key_of _ _ Hg _ _ _ Hin Ht).
  - intros t Ht. rewrite <- year_suffix_two_digits. by apply (grouped_mem _ _ Hg).
  - repeat split; reflexivity.
Qed.

Lemma NoDup_fst_In_eq {K V} (l : list (K * V)) k a b :
  NoDup (map fst l) -> In (k, a) l -> In (k, b) l -> a = b.
Proof.
  induction l as [|[k' v'] rest IH]; [done|].
  cbn [map fst]. intros [Hk Hnd]%NoDup_cons Ha Hb.
  assert (Hfresh : forall v, In (k', v) rest -> False).
  { intros v Hv. apply Hk, list_elem_of_In, in_map_iff. by exists (k', v). }
  destruct Ha as [Ha|Ha], Hb as [Hb|Hb].
  - congruence.
  - injection Ha as -> _. exfalso. eauto.
  - injection Hb as -> _. exfalso. eauto.
  - by apply IH.
Qed.

(** C6. Bucket keys are pairwise distinct, the buckets together hold each
    candidate exactly once, a track reference found in two buckets is in
    one and the same bucket, keyed by its added date, and distinct keys
    name distinct "Junk Drawer" playlists. *)
Theorem bucket_uniqueness (tracks : list track_ref) :
  let buckets := group_tracks_by_year_suffix tracks in
  NoDup (map fst buckets)
  /\ concat (map snd buckets) ≡ₚ tracks
  /\ (forall k1 ts1 k2 ts2 t,
        In (k1, ts1) buckets -> In (k2, ts2) buckets ->
        In t ts1 -> In t ts2 ->
        k1 = year_suffix_of (snd t) /\ k2 = k1 /\ ts2 = ts1)
  /\ (forall k1 k2,
        junk_drawer_name k1 = junk_drawer_name k2 -> k1 = k2).
Proof.
  cbv zeta. pose proof (group_tracks_grouped tracks) as Hg.
  split; [apply Hg|]. split; [apply Hg|]. split; [|apply junk_drawer_name_inj].
  intros k1 ts1 k2 ts2 t H1 H2 Ht1 Ht2.
  destruct (grouped_key_of _ _ Hg _ _ _ H1 Ht1) as [-> _].
  destruct (grouped_key_of _ _ Hg _ _ _ H2 Ht2) as [-> _].
  split; [done|]. split; [done|].
  eapply NoDup_fst_In_eq; eauto. apply Hg.
Qed.

(** ** Running the monad *)

Lemma bind_run {A B} (m : M A) (k : A -> M B) w r w' :
  bind m k w = (r, w') ->
  (exists a w1, m w = (Ok a, w1) /\ k a w1 = (r, w'))
  \/ (exists e, m w = (Err e, w') /\ r = Err e).
Proof.
  unfold bind. destruct (m w) as [[a|e] w1].
  - intros H. left. eauto.
  - intros [= <- <-]. right. eauto.
Qed.

Lemma bind_ok {A B} (m : M A) (k : A -> M B) w a w1 :
  m w = (Ok a, w1) -> bind m k w = k a w1.
Proof. unfold bind. by intros ->. Qed.

Lemma bind_err {A B} (m : M A) (k : A -> M B) w e w1 :
  m w = (Err e, w1) -> bind m k w = (Err e, w1).
Proof. unfold bind. by intros ->. Qed.

Tactic Notation "run_bind" hyp(H) "as" ident(a) ident(w1) ident(H1) :=
  let e := fresh "e" in
  apply bind_run in H as [(a & w1 & H1 & H)|(e & H1 & H)].

Tactic Notation "run_bind" hyp(H) :=
  let a := fresh "a" in
  let w1 := fresh "w1" in
  let H1 := fresh "Hrun" in
  run_bind H as a w1 H1.

Section Preservation.
Context (P : world -> world -> Prop).
Context (P_refl : forall w, P w w).
Context (P_trans : forall w1 w2 w3, P w1 w2 -> P w2 w3 -> P w1 w3).

Lemma preserves_ret {A} (a : A) : preserves P (ret a).
Proof using P_refl. intros w r w' [= <- <-]. apply P_refl. Qed.

Lemma preserves_raise {A} e : preserves P (@raise A e).
Proof using P_refl. intros w r w' [= <- <-]. apply P_refl. Qed.

Lemma preserves_lift {A} (x : result A) : preserves P (lift x).
Proof using P_refl. intros w r w' [= <- <-]. apply P_refl. Qed.

Lemma preserves_reads {A} (f : world -> A) : preserves P (reads f).
Proof using P_refl. intros w r w' [= <- <-]. apply P_refl. Qed.

Lemma preserves_bind {A B} (m : M A) (k : A -> M B) :
  preserves P m -> (forall a, preserves P (k a)) -> preserves P (bind m k).
Proof using P_trans.
  intros Hm Hk w r w' H. run_bind H.
  - eapply P_trans; [eapply Hm|eapply Hk]; eauto.
  - eapply Hm; eauto.
Qed.

Lemma preserves_for_in {X} (xs : list X) (body : X -> M unit) :
  (forall x, preserves P (body x)) -> preserves P (for_in xs body).
Proof using P_refl P_trans.
  intros Hbody. induction xs as [|x xs IH]; cbn [for_in].
  - apply preserves_ret.
  - apply preserves_bind; auto.
Qed.

Lemma preserves_paginate {X S R} fuel (fetch : nat -> M (list X * bool))
    limit (body : X -> S -> result (flow S R)) offset s :
  (forall o, preserves P (fetch o)) ->
  preserves P (paginate fuel fetch limit body offset s).
Proof using P_refl P_trans.
  intros Hfetch. revert offset s.
  induction fuel as [|fuel IH]; intros offset s; cbn [paginate].
  - apply preserves_raise.
  - apply preserves_bind; [done|]. intros page.
    apply preserves_bind; [apply preserves_lift|]. intros [s'|v].
    + destruct (snd page); [apply IH|apply preserves_ret].
    + apply preserves_ret.
Qed.

End Preservation.

(** ** One exchange *)

Lemma exchange_run req w r w' :
  exchange req w = (r, w') ->
  static w w'
  /\ w_log w' = w_log w ++ [(req, is_ok r)]
  /\ w_faults w' = tail (w_faults w)
  /\ match r with
     | Ok resp => serve w req = Ok (resp, w_playlists w')
     | Err _ => w_playlists w' = w_playlists w
     end.
Proof.
  unfold exchange, static.
  destruct (w_faults w) as [|[detail|] rest].
  - destruct (serve w req) as [[resp pls]|e] eqn:Hs; intros [= <- <-]; cbn; done.
  - intros [= <- <-]; cbn; done.
  - destruct (serve w req) as [[resp pls]|e] eqn:Hs; intros [= <- <-]; cbn; done.
Qed.

Lemma exchange_not_exhausted req w : fst (exchange req w) <> Err Exhausted.
Proof.
  unfold exchange.
  destruct (w_faults w) as [|[detail|] rest]; cbn; [|done|];
    (destruct (serve w req) as [[resp pls]|e] eqn:Hs; cbn; [done|]);
    destruct req; cbn in Hs; repeat case_match; simplify_eq; done.
Qed.

Lemma static_refl w : static w w.
Proof. by unfold static. Qed.

Lemma static_trans w1 w2 w3 : static w1 w2 -> static w2 w3 -> static w1 w3.
Proof. unfold static. intuition congruence. Qed.

Lemma logged_refl Q w : logged Q w w.
Proof. exists []. by rewrite app_nil_r. Qed.

Lemma logged_trans Q w1 w2 w3 : logged Q w1 w2 -> logged Q w2 w3 -> logged Q w1 w3.
Proof.
  intros (t1 & H1 & F1) (t2 & H2 & F2). exists (t1 ++ t2). split.
  - by rewrite H2, H1, app_assoc.
  - by apply Forall_app.
Qed.

Lemma logged_weaken (Q Q' : request -> Prop) w w' :
  (forall req, Q req -> Q' req) -> logged Q w w' -> logged Q' w w'.
Proof.
  intros HQ (tr & H & F). exists tr. split; [done|].
  eapply Forall_impl; [exact F|]. intros e. apply HQ.
Qed.

Lemma grows_refl w : grows w w.
Proof. split; [lia|]. intros pid p Hp. by exists p. Qed.

Lemma grows_trans w1 w2 w3 : grows w1 w2 -> grows w2 w3 -> grows w1 w3.
Proof.
  intros [L1 H1] [L2 H2]. split; [lia|]. intros pid p Hp.
  destruct (H1 _ _ Hp) as (p' & Hp' & Hn & Ho).
  destruct (H2 _ _ Hp') as (p'' & Hp'' & Hn' & Ho').
  exists p''. split; [done|]. split; congruence.
Qed.

Lemma quiet_refl w : quiet w w.
Proof. done. Qed.

Lemma quiet_trans w1 w2 w3 : quiet w1 w2 -> quiet w2 w3 -> quiet w1 w3.
Proof. unfold quiet. congruence. Qed.

Lemma serve_read w req resp pls :
  is_read req = true -> serve w req = Ok (resp, pls) -> pls = w_playlists w.
Proof.
  destruct req; try done; cbn; intros _ H; repeat case_match; by simplify_eq.
Qed.

Lemma insert_same_shape (pls : list playlist) pid p q :
  pls !! pid = Some p -> pl_name q = pl_name p -> pl_owner q = pl_owner p ->
  forall j pj, pls !! j = Some pj ->
    exists p', <[pid := q]> pls !! j = Some p'
               /\ pl_name p' = pl_name pj /\ pl_owner p' = pl_owner pj.
Proof.
  intros Hp Hn Ho j pj Hj. destruct (decide (pid = j)) as [->|Hne].
  - exists q. rewrite list_lookup_insert_eq by (by eapply lookup_lt_Some).
    split; [done|]. split; congruence.
  - exists pj. by rewrite list_lookup_insert_ne.
Qed.

Lemma serve_grows w req resp pls :
  serve w req = Ok (resp, pls) ->
  (length (w_playlists w) <= length pls)%nat
  /\ forall pid p, w_playlists w !! pid = Some p ->
       exists p', pls !! pid = Some p'
                  /\ pl_name p' = pl_name p /\ pl_owner p' = pl_owner p.
Proof.
  destruct req; cbn; intros H; repeat case_match; simplify_eq;
    try (split; [lia|]; intros ? q ?; by exists q).
  - split; [rewrite length_app; lia|]. intros ? q ?. exists q.
    split; [by apply lookup_app_l_Some|done].
  - split; [by rewrite length_insert|]. by eapply insert_same_shape.
  - split; [by rewrite length_insert|]. by eapply insert_same_shape.
  - split; [by rewrite length_insert|]. by eapply insert_same_shape.
Qed.

Lemma exchange_static req : preserves static (exchange req).
Proof. intros w r w' H. by apply exchange_run in H as (? & _). Qed.

Lemma exchange_grows req : preserves grows (exchange req).
Proof.
  intros w r w' H. apply exchange_run in H as (_ & _ & _ & H).
  destruct r as [resp|e].
  - by apply serve_grows in H.
  - unfold grows. rewrite H. split; [lia|]. intros pid p Hp. by exists p.
Qed.

Lemma exchange_logged (Q : request -> Prop) req :
  Q req -> preserves (logged Q) (exchange req).
Proof.
  intros HQ w r w' H. apply exchange_run in H as (_ & H & _).
  exists [(req, is_ok r)]. split; [done|]. by constructor.
Qed.

Lemma exchange_quiet req : is_read req = true -> preserves quiet (exchange req).
Proof.
  intros Hr w r w' H. apply exchange_run in H as (_ & _ & _ & H).
  unfold quiet. destruct r as [resp|e]; [|done]. by eapply serve_read.
Qed.

(** ** Paginated loops *)

Lemma for_each_app {X S R} (body : X -> S -> result (flow S R)) xs ys s :
  for_each body (xs ++ ys) s =
  match for_each body xs s with
  | Ok (Continue s') => for_each body ys s'
  | other => other
  end.
Proof.
  revert s. induction xs as [|x xs IH]; intros s; cbn [for_each app]; [done|].
  destruct (body x s) as [[s'|v]|e]; [apply IH|done|done].
Qed.

Lemma for_each_not_exhausted {X S R} (body : X -> S -> result (flow S R)) xs s :
  (forall x s, body x s <> Err Exhausted) ->
  for_each body xs s <> Err Exhausted.
Proof.
  intros Hbody. revert s. induction xs as [|x xs IH]; intros s; cbn [for_each];
    [done|].
  pose proof (Hbody x s). destruct (body x s) as [[s'|v]|e]; [apply IH|done|done].
Qed.

Section PaginateSpec.
Context {X S R : Type}.
Context (mkreq : nat -> request) (unpack : response -> list X * bool).
Context (limit : nat) (body : X -> S -> result (flow S R)).
Context (listing : list playlist -> list X) (access_token : string).
Context (Hlimit : (0 < limit)%nat).
Context (Hread : forall o, is_read (mkreq o) = true).
Context (Hserve : forall w o resp pls,
            serve w (mkreq o) = Ok (resp, pls) ->
            unpack resp = page_of (listing (w_playlists w)) limit o).

Let fetch (offset : nat) : M (list X * bool) :=
  let! page := spotify_request (mkreq offset) access_token in
  ret (unpack page).

Lemma fetch_run offset w page w1 :
  fetch offset w = (Ok page, w1) ->
  w_playlists w1 = w_playlists w
  /\ page = page_of (listing (w_playlists w)) limit offset.
Proof using Hread Hserve.
  unfold fetch, spotify_request. intros H. run_bind H; [|done].
  injection H as <- <-.
  pose proof (exchange_quiet _ (Hread offset) _ _ _ Hrun) as Hq.
  apply exchange_run in Hrun as (_ & _ & _ & Hs).
  split; [done|]. by eapply Hserve.
Qed.

(** A paginated loop that returns has run its body over the whole listing,
    from the first offset on, in listing order. *)
Lemma paginate_result fuel offset s w r w' :
  paginate fuel fetch limit body offset s w = (Ok r, w') ->
  for_each body (drop offset (listing (w_playlists w))) s = Ok r.
Proof using Hread Hserve Hlimit.
  revert offset s w. induction fuel as [|fuel IH]; intros offset s w;
    cbn [paginate]; [done|].
  intros H. run_bind H; [|done].
  apply fetch_run in Hrun as [Hpls ->]. cbn [page_of fst snd] in H.
  run_bind H as r0 w2 Hbody; [|done]. injection Hbody as Hbody <-.
  rewrite <- (take_drop limit (drop offset _)), for_each_app, Hbody.
  destruct r0 as [s'|v]; [|by injection H as <- _].
  destruct (Nat.ltb_spec (offset + limit) (length (listing (w_playlists w)))).
  - apply IH in H. rewrite Hpls in H. by rewrite drop_drop.
  - injection H as <- _. rewrite drop_drop, drop_ge by lia. done.
Qed.

(** With fuel for one request per listed element and one more, the loop
    does not run dry. *)
Lemma paginate_terminates fuel offset s w :
  (forall x s, body x s <> Err Exhausted) ->
  (length (listing (w_playlists w)) - offset < fuel)%nat ->
  fst (paginate fuel fetch limit body offset s w) <> Err Exhausted.
Proof using Hread Hserve Hlimit.
  intros Hbody. revert offset s w.
  induction fuel as [|fuel IH]; intros offset s w Hfuel; [lia|].
  cbn [paginate]. unfold bind at 1.
  destruct (fetch offset w) as [[page|e] w1] eqn:Hf.
  - apply fetch_run in Hf as [Hpls ->]. cbn [page_of fst snd].
    unfold bind, lift.
    pose proof (for_each_not_exhausted body
                  (take limit (drop offset (listing (w_playlists w)))) s Hbody).
    destruct (Nat.ltb_spec (offset + limit) (length (listing (w_playlists w))));
      destruct (for_each body _ s) as [[s'|v]|e]; cbn; try done.
    apply IH. rewrite Hpls. lia.
  - cbn. unfold fetch, spotify_request, bind in Hf.
    pose proof (exchange_not_exhausted (mkreq offset) w) as Hne.
    destruct (exchange (mkreq offset) w) as [[resp|e'] w2]; [done|].
    cbn in Hne. injection Hf as Hf _. intros [= He]. apply Hne. congruence.
Qed.

End PaginateSpec.

Lemma for_each_find {X} (f : X -> bool) (l : list X) :
  for_each (fun x (_ : unit) => if f x then Ok (Return x) else Ok (Continue tt))
           l tt
  = Ok (match List.find f l with
        | Some x => Return x
        | None => Continue tt
        end).
Proof.
  induction l as [|x l IH]; cbn [for_each List.find]; [done|].
  by destruct (f x).
Qed.

Lemma serve_playlists w o resp pls :
  serve w (GetPlaylists 50 o) = Ok (resp, pls) ->
  playlists_page resp = page_of (indexed (w_playlists w)) 50 o.
Proof. cbn. by intros [= <- <-]. Qed.

Lemma serve_items pid w o resp pls :
  serve w (GetPlaylistItems pid 100 o) = Ok (resp, pls) ->
  items_page resp = page_of (listed_items pid (w_playlists w)) 100 o.
Proof.
  cbn. unfold listed_items. destruct (w_playlists w !! pid); [|done].
  by intros [= <- <-].
Qed.

(** A lookup that answers gives the first playlist of the listing with
    that name and owner, and leaves the remote state alone. *)
Lemma find_playlist_result access_token owner_id target_name w r w' :
  find_playlist_by_name_owner access_token owner_id target_name w = (Ok r, w') ->
  r = first_match owner_id target_name (w_playlists w).
Proof.
  unfold find_playlist_by_name_owner, paginate_playlists. intros H.
  run_bind H; [|done]. injection H as <- _.
  eapply (paginate_result (GetPlaylists 50) playlists_page 50 _ indexed) in Hrun;
    [|lia|done|apply serve_playlists].
  rewrite drop_0, for_each_find in Hrun. injection Hrun as <-.
  unfold first_match. by destruct (List.find _ _).
Qed.

Lemma terminates_bind {A B} (m : M A) (k : A -> M B) :
  terminates m -> (forall a, terminates (k a)) -> terminates (bind m k).
Proof.
  intros Hm Hk w. unfold bind. specialize (Hm w).
  destruct (m w) as [[a|e] w1]; cbn in *; [apply Hk|].
  intros [= ->]. done.
Qed.

Lemma terminates_ret {A} (a : A) : terminates (ret a).
Proof. by intros w. Qed.

Lemma terminates_reads {A} (f : world -> A) : terminates (reads f).
Proof. by intros w. Qed.

Lemma terminates_lift {A} (r : result A) :
  r <> Err Exhausted -> terminates (lift r).
Proof. by intros H w. Qed.

Lemma terminates_raise {A} e : e <> Exhausted -> terminates (@raise A e).
Proof. intros H w [= ?]. done. Qed.

Lemma terminates_exchange req : terminates (exchange req).
Proof. intros w. apply exchange_not_exhausted. Qed.

Lemma terminates_for_in {X} (xs : list X) (body : X -> M unit) :
  (forall x, terminates (body x)) -> terminates (for_in xs body).
Proof.
  intros Hbody. induction xs as [|x xs IH]; cbn [for_in].
  - apply terminates_ret.
  - apply terminates_bind; auto.
Qed.

Lemma paginate_playlists_terminates {S R} access_token
    (body : nat * playlist -> S -> result (flow S R)) s :
  (forall x s, body x s <> Err Exhausted) ->
  terminates (paginate_playlists access_token body s).
Proof.
  intros Hbody w. unfold paginate_playlists.
  apply (paginate_terminates (GetPlaylists 50) playlists_page 50 body indexed
           access_token); [lia|done|apply serve_playlists|done|].
  unfold indexed. rewrite length_zip, length_seq. lia.
Qed.

Lemma paginate_playlist_items_terminates {S R} access_token pid
    (body : item -> S -> result (flow S R)) s :
  (forall x s, body x s <> Err Exhausted) ->
  terminates (paginate_playlist_items access_token pid body s).
Proof.
  intros Hbody w. unfold paginate_playlist_items.
  apply (paginate_terminates (GetPlaylistItems pid 100) items_page 100 body
           (listed_items pid) access_token);
    [lia|done|apply serve_items|done|].
  unfold items_fuel, listed_items. destruct (w_playlists w !! pid); cbn; lia.
Qed.

Lemma find_playlist_terminates access_token owner_id target_name :
  terminates (find_playlist_by_name_owner access_token owner_id target_name).
Proof.
  unfold find_playlist_by_name_owner. apply terminates_bind.
  - apply paginate_playlists_terminates. intros x s. by destruct (_ && _).
  - intros r. apply terminates_ret.
Qed.

(** ** Candidate selection *)

Lemma item_uri_track it : get (uri (track_or_empty it)) = item_uri it.
Proof. unfold track_or_empty, item_uri. by destruct (get (track it)). Qed.

Lemma falsy_field_truthy f : falsy_field f -> Py.truthy (get f) = false.
Proof. by intros [->|[->| ->]]. Qed.

Lemma lacks_field_truthy it :
  lacks_field it ->
  Py.truthy (get (added_at it)) = false \/ Py.truthy (item_uri it) = false.
Proof.
  unfold item_uri. intros [H|[H|[H|(t & H & Hu)]]].
  - left. by apply falsy_field_truthy.
  - right. by rewrite H.
  - right. by rewrite H.
  - right. rewrite H. cbn. by apply falsy_field_truthy.
Qed.

Lemma candidate_step_skip cutoff it candidates :
  lacks_field it -> candidate_step cutoff it candidates = Ok (Continue candidates).
Proof.
  intros H%lacks_field_truthy. unfold candidate_step. cbv zeta.
  rewrite item_uri_track. destruct H as [-> | ->]; [done|].
  by rewrite andb_false_r.
Qed.

Lemma iso_to_date_nonempty T d : iso_to_date T = Ok d -> T <> EmptyString.
Proof. by intros H ->. Qed.

Lemma truthy_Some s : s <> EmptyString -> Py.truthy (Some s) = true.
Proof. by destruct s. Qed.

Lemma candidate_step_dated cutoff it candidates T u d :
  get (added_at it) = Some T -> item_uri it = Some u -> u <> EmptyString ->
  iso_to_date T = Ok d ->
  candidate_step cutoff it candidates
  = Ok (Continue (if date_le d cutoff then candidates ++ [(u, d)] else candidates)).
Proof.
  intros HT Hu Hne Hd. unfold candidate_step. cbv zeta.
  rewrite item_uri_track, HT, Hu.
  rewrite (truthy_Some T) by (by eapply iso_to_date_nonempty).
  rewrite (truthy_Some u) by done. cbn [andb negb].
  rewrite Hd. cbn. by destruct (date_le d cutoff).
Qed.

(** An item the loop body appends comes with a timestamp, a URI and a date
    on or before the cutoff. *)
Lemma candidate_step_inv cutoff it candidates r :
  candidate_step cutoff it candidates = Ok (Continue r) ->
  r = candidates
  \/ exists T u d,
       get (added_at it) = Some T /\ item_uri it = Some u /\ u <> EmptyString
       /\ iso_to_date T = Ok d /\ date_le d cutoff = true
       /\ r = candidates ++ [(u, d)].
Proof.
  unfold candidate_step. cbv zeta. rewrite item_uri_track.
  destruct (get (added_at it)) as [T|] eqn:HT; [|intros [= <-]; by left].
  destruct (item_uri it) as [u|] eqn:Hu;
    [|rewrite andb_false_r; intros [= <-]; by left].
  destruct (Py.truthy (Some T) && Py.truthy (Some u)) eqn:Htr;
    [|intros [= <-]; by left].
  cbn [negb]. destruct (iso_to_date T) as [d|e] eqn:Hd; [|done]. cbn.
  destruct (date_le d cutoff) eqn:Hle; intros [= <-]; [|by left].
  right. exists T, u, d. repeat split; try done.
  apply andb_true_iff in Htr as [_ Htr]. by destruct u.
Qed.

Lemma candidate_step_continues cutoff it candidates r :
  candidate_step cutoff it candidates = Ok r -> exists c, r = Continue c.
Proof. destruct r as [c|[]]. eauto. Qed.

Lemma candidate_step_not_exhausted cutoff it candidates :
  candidate_step cutoff it candidates <> Err Exhausted.
Proof.
  unfold candidate_step, iso_to_date. cbv zeta.
  repeat case_match; cbn; repeat case_match; done.
Qed.

Lemma for_each_candidates cutoff items candidates r :
  for_each (candidate_step cutoff) items candidates = Ok (Continue r) ->
  forall u d,
    In (u, d) r <->
    In (u, d) candidates
    \/ exists it T,
         In it items /\ get (added_at it) = Some T /\ item_uri it = Some u
         /\ u <> EmptyString /\ iso_to_date T = Ok d /\ date_le d cutoff = true.
Proof.
  revert candidates. induction items as [|it items IH]; intros candidates;
    cbn [for_each].
  - intros [= <-] u d. split; [by left|]. intros [?|(it & T & [] & _)]; done.
  - destruct (candidate_step cutoff it candidates) as [[c|[]]|e] eqn:Hstep;
      [|done].
    intros H u d. rewrite (IH _ H u d).
    pose proof (candidate_step_inv _ _ _ _ Hstep) as Hinv.
    split.
    + intros [Hin|(it' & T & Hin & ?)].
      * destruct Hinv as [->|(T & u' & d' & ? & ? & ? & ? & ? & ->)];
          [by left|].
        apply in_app_or in Hin as [?|[[= <- <-]|[]]]; [by left|].
        right. exists it, T. repeat split; try done. by left.
      * right. exists it', T. split; [by right|done].
    + intros [Hin|(it' & T & [<-|Hin] & HT & Hu & Hne & Hd & Hle)].
      * left. destruct Hinv as [->|(? & ? & ? & _ & _ & _ & _ & _ & ->)];
          [done|]. apply in_or_app. by left.
      * left. rewrite (candidate_step_dated _ _ _ T u d) in Hstep by done.
        rewrite Hle in Hstep. injection Hstep as <-.
        apply in_or_app. right. by left.
      * right. exists it', T. done.
Qed.

Lemma collect_candidates_result access_token source_playlist_id cutoff w
    candidates w' :
  collect_candidates access_token source_playlist_id cutoff w
  = (Ok candidates, w') ->
  for_each (candidate_step cutoff)
           (listed_items source_playlist_id (w_playlists w)) []
  = Ok (Continue candidates).
Proof.
  unfold collect_candidates, paginate_playlist_items. intros H.
  run_bind H as r w1 Hrun; [|done].
  destruct r as [c|[]]. injection H as <- _.
  eapply (paginate_result (GetPlaylistItems source_playlist_id 100) items_page
            100 _ (listed_items source_playlist_id)) in Hrun;
    [|lia|done|apply serve_items].
  by rewrite drop_0 in Hrun.
Qed.

Lemma collect_candidates_terminates access_token source_playlist_id cutoff :
  terminates (collect_candidates access_token source_playlist_id cutoff).
Proof.
  unfold collect_candidates. apply terminates_bind.
  - apply paginate_playlist_items_terminates.
    intros. apply candidate_step_not_exhausted.
  - intros [c|[]]. apply terminates_ret.
Qed.

(** ** What the API wrappers preserve *)

Create HintDb frame.

Section Frames.
Context (P : world -> world -> Prop) (allowed : request -> Prop).
Context (P_refl : forall w, P w w).
Context (P_trans : forall w1 w2 w3, P w1 w2 -> P w2 w3 -> P w1 w3).
Context (P_exchange : forall req, allowed req -> preserves P (exchange req)).

Local Hint Resolve preserves_ret preserves_raise preserves_lift preserves_reads
  preserves_bind preserves_for_in preserves_paginate : frame.

Lemma preserves_spotify_request req access_token :
  allowed req -> preserves P (spotify_request req access_token).
Proof using P_exchange. apply P_exchange. Qed.

Lemma preserves_fetch_access_token cid secret rt :
  allowed (TokenRefresh cid secret rt) ->
  preserves P (fetch_access_token cid secret rt).
Proof using P_refl P_trans P_exchange.
  intros Ha. unfold fetch_access_token.
  apply preserves_bind; [done|by apply P_exchange|].
  intros []; auto with frame.
Qed.

Lemma preserves_get_current_user access_token :
  allowed GetMe -> preserves P (get_current_user access_token).
Proof using P_exchange. apply P_exchange. Qed.

Lemma preserves_paginate_playlists {S R} access_token
    (body : nat * playlist -> S -> result (flow S R)) s :
  (forall o, allowed (GetPlaylists 50 o)) ->
  preserves P (paginate_playlists access_token body s).
Proof using P_refl P_trans P_exchange.
  intros Ha w r w' H. unfold paginate_playlists in H.
  eapply preserves_paginate in H; [done..|].
  intros o. apply preserves_bind; [done|by apply P_exchange|].
  auto with frame.
Qed.

Lemma preserves_find_playlist access_token owner_id target_name :
  (forall o, allowed (GetPlaylists 50 o)) ->
  preserves P (find_playlist_by_name_owner access_token owner_id target_name).
Proof using P_refl P_trans P_exchange.
  intros Ha. unfold find_playlist_by_name_owner.
  apply preserves_bind; [done|by apply preserves_paginate_playlists|].
  auto with frame.
Qed.

Lemma preserves_paginate_playlist_items {S R} access_token pid
    (body : item -> S -> result (flow S R)) s :
  (forall o, allowed (GetPlaylistItems pid 100 o)) ->
  preserves P (paginate_playlist_items access_token pid body s).
Proof using P_refl P_trans P_exchange.
  intros Ha w r w' H. unfold paginate_playlist_items in H.
  eapply preserves_paginate in H; [done..|].
  intros o. apply preserves_bind; [done|by apply P_exchange|].
  auto with frame.
Qed.

Lemma preserves_collect_candidates access_token pid cutoff :
  (forall o, allowed (GetPlaylistItems pid 100 o)) ->
  preserves P (collect_candidates access_token pid cutoff).
Proof using P_refl P_trans P_exchange.
  intros Ha. unfold collect_candidates.
  apply preserves_bind; [done|by apply preserves_paginate_playlist_items|].
  intros [c|[]]. auto with frame.
Qed.

Lemma preserves_find_candidates cfg :
  (forall req, is_read req = true -> allowed req) ->
  preserves P (find_candidates cfg).
Proof using P_refl P_trans P_exchange.
  intros Ha. unfold find_candidates.
  apply preserves_bind; [done|by apply preserves_fetch_access_token; auto|].
  intros access_token.
  apply preserves_bind; [done|by apply preserves_get_current_user; auto|].
  intros me.
  apply preserves_bind; [done|by apply preserves_find_playlist; auto|].
  intros [[src p]|]; [|auto with frame].
  apply preserves_bind; [done|auto with frame|]. intros today.
  apply preserves_bind; [done|auto with frame|]. intros cutoff.
  apply preserves_bind; [done|by apply preserves_collect_candidates; auto|].
  auto with frame.
Qed.

Lemma preserves_update_description access_token pid description :
  allowed (PutDescription pid description) ->
  preserves P (update_playlist_description access_token pid description).
Proof using P_refl P_trans P_exchange.
  intros Ha. unfold update_playlist_description.
  apply preserves_bind; [done|by apply P_exchange|]. auto with frame.
Qed.

Lemma preserves_ensure access_token user_id name description :
  (forall o, allowed (GetPlaylists 50 o)) ->
  allowed (CreatePlaylist user_id name description false) ->
  preserves P (ensure_junk_drawer_playlist access_token user_id name description).
Proof using P_refl P_trans P_exchange.
  intros Ha Hc. unfold ensure_junk_drawer_playlist.
  apply preserves_bind; [done|by apply preserves_find_playlist|].
  intros [[id p]|]; [auto with frame|].
  apply preserves_bind; [done|by apply P_exchange|].
  intros []; auto with frame.
Qed.

Lemma preserves_add_tracks access_token pid uris :
  (forall chunk, allowed (AddTracks pid chunk)) ->
  preserves P (add_tracks_to_playlist access_token pid uris).
Proof using P_refl P_trans P_exchange.
  intros Ha. unfold add_tracks_to_playlist.
  apply preserves_bind; [done|auto with frame|]. intros chunks.
  apply preserves_for_in; [done..|]. intros chunk.
  apply preserves_bind; [done|by apply P_exchange|]. auto with frame.
Qed.

Lemma preserves_remove_tracks access_token pid uris :
  (forall chunk, allowed (RemoveTracks pid chunk)) ->
  preserves P (remove_tracks_from_playlist access_token pid uris).
Proof using P_refl P_trans P_exchange.
  intros Ha. unfold remove_tracks_from_playlist.
  apply preserves_bind; [done|auto with frame|]. intros chunks.
  apply preserves_for_in; [done..|]. intros chunk.
  apply preserves_bind; [done|by apply P_exchange|]. auto with frame.
Qed.

Lemma preserves_process_bucket access_token user_id sname src stamp
    year_suffix tracks :
  (forall req, allowed req) ->
  preserves P (process_bucket access_token user_id sname src stamp
                              year_suffix tracks).
Proof using P_refl P_trans P_exchange.
  intros Ha. unfold process_bucket. cbv zeta.
  apply preserves_bind; [done|by apply preserves_ensure|]. intros tid.
  apply preserves_bind; [done|by apply preserves_add_tracks|]. intros _.
  apply preserves_bind; [done|by apply preserves_remove_tracks|]. intros _.
  apply preserves_bind; [done|by apply preserves_update_description|].
  auto with frame.
Qed.

Lemma preserves_move_buckets access_token user_id sname src stamp buckets total :
  (forall req, allowed req) ->
  preserves P (move_buckets access_token user_id sname src stamp buckets total).
Proof using P_refl P_trans P_exchange.
  intros Ha. revert total.
  induction buckets as [|[k ts] rest IH]; intros total; cbn [move_buckets].
  - auto with frame.
  - apply preserves_bind; [done|by apply preserves_process_bucket|]. auto.
Qed.

Lemma preserves_move_candidates access_token user_id sname src candidates :
  (forall req, allowed req) ->
  preserves P (move_candidates access_token user_id sname src candidates).
Proof using P_refl P_trans P_exchange.
  intros Ha. unfold move_candidates. destruct candidates; [auto with frame|].
  apply preserves_bind; [done|auto with frame|]. intros stamp.
  apply preserves_bind; [done|by apply preserves_move_buckets|]. intros total.
  by apply preserves_update_description.
Qed.

End Frames.

Lemma find_candidates_run cfg w access_token user_id src candidates w' :
  find_candidates cfg w = (Ok (access_token, user_id, src, candidates), w') ->
  exists cutoff w3,
    date_sub_days (w_today w) (duration_days cfg) = Ok cutoff
    /\ w_playlists w3 = w_playlists w
    /\ collect_candidates access_token src cutoff w3 = (Ok candidates, w').
Proof.
  unfold find_candidates. intros H.
  run_bind H as tok w1 Htok; [|done].
  run_bind H as me w2 Hme; [|done].
  run_bind H as source w3 Hsrc; [|done].
  destruct source as [[src' p]|]; [|done].
  run_bind H as today w4 Htoday; [|done]. injection Htoday as <- <-.
  run_bind H as cutoff w5 Hcut; [|done]. injection Hcut as Hcut <-.
  run_bind H as cands w6 Hcol; [|done]. injection H as <- <- <- <- <-.
  assert (Hq : quiet w w3).
  { eapply quiet_trans; [|eapply quiet_trans].
    - eapply (preserves_fetch_access_token quiet (fun r => is_read r = true));
        eauto using quiet_refl, quiet_trans, exchange_quiet.
    - eapply (preserves_get_current_user quiet (fun r => is_read r = true));
        eauto using quiet_refl, quiet_trans, exchange_quiet.
    - eapply (preserves_find_playlist quiet (fun r => is_read r = true));
        eauto using quiet_refl, quiet_trans, exchange_quiet. }
  assert (Hs : static w w3).
  { eapply static_trans; [|eapply static_trans].
    - eapply (preserves_fetch_access_token static (fun _ => True));
        eauto using static_refl, static_trans, exchange_static.
    - eapply (preserves_get_current_user static (fun _ => True));
        eauto using static_refl, static_trans, exchange_static.
    - eapply (preserves_find_playlist static (fun _ => True));
        eauto using static_refl, static_trans, exchange_static. }
  exists cutoff, w3. destruct Hs as (_ & _ & Htoday & _).
  rewrite <- Htoday. done.
Qed.

(** ** Configuration *)

Lemma main_config_error environ e w :
  load_config environ = Err e -> main environ w = (Err e, w).
Proof. unfold main, bind, lift. by intros ->. Qed.

Lemma missing_keys_spec keys environ key :
  In key (missing_keys keys environ)
  <-> In key keys /\ Py.truthy (environ !! key) = false.
Proof.
  unfold missing_keys. rewrite filter_In, negb_true_iff. done.
Qed.

(** C9. Validation happens before any request (the world, and with it the
    request log, is untouched): all required keys that are absent or empty
    are named together in one [ValueError]; a day count that is not an
    integer, or is negative, is a [ValueError] too; a non-negative one, 0
    included, is accepted. *)
Theorem config_validation (environ : gmap string string) (w : world) :
  let missing := missing_keys required_keys environ in
  (forall key, In key missing
               <-> In key required_keys /\ Py.truthy (environ !! key) = false)
  /\ (missing <> [] ->
      main environ w
      = (Err (ValueError ("Missing environment variables: "
                          +:+ Py.join ", " missing +:+ ". Fill them in .env.")),
         w))
  /\ (missing = [] -> Py.int (duration_raw environ) = None ->
      main environ w
      = (Err (ValueError "JUNK_MOVER_DURATION_DAYS must be an integer"), w))
  /\ (missing = [] ->
      forall n, Py.int (duration_raw environ) = Some n -> n < 0 ->
      main environ w
      = (Err (ValueError
                "JUNK_MOVER_DURATION_DAYS cannot be negative; use 0 for 'today'."),
         w))
  /\ (missing = [] ->
      forall n, Py.int (duration_raw environ) = Some n -> 0 <= n ->
      exists cfg, load_config environ = Ok cfg /\ duration_days cfg = n)
  /\ Py.int "0" = Some 0.
Proof.
  cbv zeta. split; [apply missing_keys_spec|].
  unfold duration_raw.
  split; [|split; [|split; [|split; [|done]]]].
  - intros Hm. apply main_config_error. unfold load_config, require_env.
    by destruct (missing_keys required_keys environ).
  - intros Hm Hint. apply main_config_error.
    unfold load_config, require_env, parse_duration_days. by rewrite Hm, Hint.
  - intros Hm n Hint Hn. apply main_config_error.
    unfold load_config, require_env, parse_duration_days. rewrite Hm, Hint.
    cbn. by destruct (Z.ltb_spec n 0); [|lia].
  - intros Hm n Hint Hn.
    unfold load_config, require_env, parse_duration_days. rewrite Hm, Hint.
    cbn. destruct (Z.ltb_spec n 0); [lia|]. cbn. by eexists.
Qed.

(** ** Lookup by name and owner *)

Lemma indexed_app {A} (l k : list A) :
  indexed (l ++ k) = indexed l ++ zip (seq (length l) (length k)) k.
Proof.
  unfold indexed. rewrite length_app, seq_app.
  rewrite zip_with_app by (by rewrite length_seq). done.
Qed.

Lemma indexed_lookup {A} (l : list A) i x :
  In (i, x) (indexed l) -> l !! i = Some x.
Proof.
  unfold indexed. intros Hin%list_elem_of_In.
  apply list_elem_of_lookup in Hin as [j Hj].
  apply lookup_zip_with_Some in Hj as (a & b & [= <- <-] & Ha & Hb).
  apply lookup_seq in Ha as [-> _]. done.
Qed.

Lemma first_match_Some owner_id target_name pls id p :
  first_match owner_id target_name pls = Some (id, p) ->
  pls !! id = Some p /\ pl_name p = target_name /\ pl_owner p = owner_id.
Proof.
  unfold first_match. intros H. apply find_some in H as [Hin Hm].
  apply andb_true_iff in Hm as [Hn Ho]. cbn in Hn, Ho.
  apply String.eqb_eq in Hn, Ho. split; [by apply indexed_lookup|done].
Qed.

Lemma find_app {A} (f : A -> bool) l k :
  List.find f (l ++ k) =
  match List.find f l with
  | Some x => Some x
  | None => List.find f k
  end.
Proof. induction l as [|x l IH]; cbn; [done|]. by destruct (f x). Qed.

Lemma first_match_created owner_id target_name pls q :
  first_match owner_id target_name pls = None ->
  pl_name q = target_name -> pl_owner q = owner_id ->
  first_match owner_id target_name (pls ++ [q]) = Some (length pls, q).
Proof.
  unfold first_match. intros Hnone Hn Ho. rewrite indexed_app, find_app, Hnone.
  cbn. rewrite Hn, Ho, !String.eqb_refl. done.
Qed.

(** ** Ensure-exists *)

Lemma ensure_run access_token user_id name description w r w' :
  ensure_junk_drawer_playlist access_token user_id name description w = (r, w') ->
  (w_playlists w' = w_playlists w
   /\ forall id, r = Ok id ->
        exists p, first_match user_id name (w_playlists w) = Some (id, p))
  \/ (first_match user_id name (w_playlists w) = None
      /\ r = Ok (length (w_playlists w))
      /\ w_playlists w'
         = w_playlists w ++ [mkplaylist name (w_user w) description false []]).
Proof.
  unfold ensure_junk_drawer_playlist. intros H.
  run_bind H as existing w1 Hfind.
  - pose proof (preserves_find_playlist quiet (fun r => is_read r = true)
                  quiet_refl quiet_trans exchange_quiet _ _ _
                  ltac:(done) _ _ _ Hfind) as Hq.
    pose proof (preserves_find_playlist static (fun _ => True)
                  static_refl static_trans (fun r _ => exchange_static r) _ _ _
                  ltac:(done) _ _ _ Hfind) as (Hu & _).
    apply find_playlist_result in Hfind. unfold quiet in Hq.
    destruct existing as [[id p]|].
    + injection H as <- <-. left. split; [done|].
      intros id' [= <-]. by exists p.
    + unfold spotify_request in H. run_bind H as created w2 Hcreate.
      * apply exchange_run in Hcreate as (_ & _ & _ & Hs). cbn in Hs.
        injection Hs as <- Hs. injection H as <- <-. right.
        rewrite <- Hs, Hq, Hu. by rewrite Hfind.
      * apply exchange_run in Hcreate as (_ & _ & _ & Hs). subst r. left.
        split; [congruence|done].
  - subst r. left. split; [|done].
    by eapply (preserves_find_playlist quiet (fun r => is_read r = true)
                 quiet_refl quiet_trans exchange_quiet).
Qed.

Lemma ensure_valid access_token user_id name description w id w' :
  ensure_junk_drawer_playlist access_token user_id name description w
  = (Ok id, w') ->
  exists p, w_playlists w' !! id = Some p /\ pl_name p = name.
Proof.
  intros H. apply ensure_run in H as [[Hpls Hid]|(_ & [= ->] & Hpls)].
  - destruct (Hid id eq_refl) as [p Hp].
    apply first_match_Some in Hp as (Hp & Hn & _).
    exists p. by rewrite Hpls.
  - eexists. rewrite Hpls. split; [apply list_lookup_middle; done|done].
Qed.

(** C7. Two ensure-exists calls in a row for the same name, made for the
    authenticated user, leave at most one new playlist behind whatever the
    outcome of each, and when both answer, the second answers with the
    identifier of the first. *)
Theorem ensure_idempotent access_token user_id name description1 description2
    w r1 w1 r2 w2 :
  user_id = w_user w ->
  ensure_junk_drawer_playlist access_token user_id name description1 w
  = (r1, w1) ->
  ensure_junk_drawer_playlist access_token user_id name description2 w1
  = (r2, w2) ->
  (w_playlists w2 = w_playlists w
   \/ exists p, w_playlists w2 = w_playlists w ++ [p])
  /\ (forall id1 id2, r1 = Ok id1 -> r2 = Ok id2 -> id2 = id1).
Proof.
  intros Hu H1 H2.
  apply ensure_run in H1 as [[Hp1 Hid1]|(Hnone1 & -> & Hp1)];
    apply ensure_run in H2 as [[Hp2 Hid2]|(Hnone2 & -> & Hp2)].
  - split; [left; congruence|]. intros id1 id2 Hr1 Hr2.
    destruct (Hid1 _ Hr1) as [p1 Hm1]. destruct (Hid2 _ Hr2) as [p2 Hm2].
    rewrite Hp1 in Hm2. congruence.
  - split; [right; eexists; by rewrite Hp2, Hp1|]. intros id1 id2 Hr1 _.
    destruct (Hid1 _ Hr1) as [p1 Hm1]. rewrite Hp1 in Hnone2. congruence.
  - split; [right; eexists; by rewrite Hp2, Hp1|]. intros id1 id2 [= <-] Hr2.
    destruct (Hid2 _ Hr2) as [p2 Hm2]. rewrite Hp1 in Hm2.
    rewrite (first_match_created _ _ _ _ Hnone1) in Hm2 by done. congruence.
  - exfalso. rewrite Hp1 in Hnone2.
    rewrite (first_match_created _ _ _ _ Hnone1) in Hnone2 by done. done.
Qed.

(** ** A run without candidates *)

(** C8. When the candidate collection comes back empty, the run ends
    normally right there: the playlists are what they were, and every
    request made was a read (no creation, no add, no removal, no
    description update). *)
Theorem empty_run environ cfg w access_token user_id src w1 :
  load_config environ = Ok cfg ->
  find_candidates cfg w = (Ok (access_token, user_id, src, []), w1) ->
  main environ w = (Ok tt, w1)
  /\ w_playlists w1 = w_playlists w
  /\ exists tr, w_log w1 = w_log w ++ tr
                /\ Forall (fun e => is_read (fst e) = true) tr.
Proof.
  intros Hcfg Hrun. split; [|split].
  - unfold main, bind, lift. by rewrite Hcfg, Hrun.
  - by eapply (preserves_find_candidates quiet (fun r => is_read r = true)
                 quiet_refl quiet_trans exchange_quiet).
  - by eapply (preserves_find_candidates (logged (fun r => is_read r = true))
                 (fun r => is_read r = true) (logged_refl _) (logged_trans _)
                 (exchange_logged _)).
Qed.

(** ** Batched mutations *)

Lemma with_items_same p : with_items p (pl_items p) = p.
Proof. by destruct p. Qed.

Lemma add_items_nil stamp pid pls : add_items stamp pid [] pls = pls.
Proof.
  unfold add_items. destruct (pls !! pid) as [p|] eqn:Hp; [|done].
  cbn [map]. rewrite app_nil_r, with_items_same. by apply list_insert_id.
Qed.

Lemma add_items_app stamp pid a b pls :
  add_items stamp pid b (add_items stamp pid a pls)
  = add_items stamp pid (a ++ b) pls.
Proof.
  unfold add_items. destruct (pls !! pid) as [p|] eqn:Hp; [|by rewrite Hp].
  rewrite list_lookup_insert_eq by (by eapply lookup_lt_Some).
  rewrite list_insert_insert_eq. cbn. by rewrite map_app, app_assoc.
Qed.

Lemma keeps_app a b it : keeps (a ++ b) it = keeps a it && keeps b it.
Proof.
  unfold keeps. destruct (item_uri it) as [u|]; [|done].
  by rewrite existsb_app, negb_orb.
Qed.

Lemma filter_filter {A} (f g : A -> bool) l :
  List.filter g (List.filter f l) = List.filter (fun x => f x && g x) l.
Proof.
  induction l as [|x l IH]; cbn; [done|].
  destruct (f x); cbn; [|done]. destruct (g x); by rewrite IH.
Qed.

Lemma remove_items_nil pid pls : remove_items pid [] pls = pls.
Proof.
  unfold remove_items. destruct (pls !! pid) as [p|] eqn:Hp; [|done].
  replace (List.filter (keeps []) (pl_items p)) with (pl_items p).
  - rewrite with_items_same. by apply list_insert_id.
  - induction (pl_items p) as [|it l IH]; cbn; [done|].
    replace (keeps [] it) with true by (unfold keeps; by destruct (item_uri it)).
    by rewrite <- IH.
Qed.

Lemma remove_items_app pid a b pls :
  remove_items pid b (remove_items pid a pls) = remove_items pid (a ++ b) pls.
Proof.
  unfold remove_items. destruct (pls !! pid) as [p|] eqn:Hp; [|by rewrite Hp].
  rewrite list_lookup_insert_eq by (by eapply lookup_lt_Some).
  rewrite list_insert_insert_eq. cbn. rewrite filter_filter.
  do 2 f_equal. apply filter_ext. intros it. by rewrite keeps_app.
Qed.

Section Batches.
Context (mk : list string -> request).
Context (effect : string -> list string -> list playlist -> list playlist).
Context (access_token : string).
Context (effect_nil : forall stamp pls, effect stamp [] pls = pls).
Context (effect_app : forall stamp a b pls,
            effect stamp b (effect stamp a pls) = effect stamp (a ++ b) pls).
Context (effect_serve : forall w chunk resp pls,
            serve w (mk chunk) = Ok (resp, pls) ->
            pls = effect (w_stamp w) chunk (w_playlists w)).

(** A batched loop sends its chunks in order and stops at the first
    request that fails: the chunks sent so far have taken effect, the rest
    has not. *)
Lemma batches_run chunks w r w' :
  for_in chunks (fun chunk =>
    do! spotify_request (mk chunk) access_token in ret tt) w = (r, w') ->
  exists sent rest,
    chunks = sent ++ rest
    /\ w_playlists w' = effect (w_stamp w) (concat sent) (w_playlists w)
    /\ match r with
       | Ok _ =>
           rest = []
           /\ w_log w' = w_log w ++ map (fun c => (mk c, true)) sent
       | Err _ =>
           exists c rest',
             rest = c :: rest'
             /\ w_log w'
                = w_log w ++ map (fun c => (mk c, true)) sent ++ [(mk c, false)]
       end.
Proof using effect_nil effect_app effect_serve.
  revert w. induction chunks as [|c chunks IH]; intros w; cbn [for_in].
  - intros [= <- <-]. exists [], []. cbn. by rewrite effect_nil, app_nil_r.
  - intros H. run_bind H as u w1 Hreq.
    + run_bind Hreq as resp w2 Hx; [|done]. injection Hreq as _ <-.
      apply exchange_run in Hx as ((_ & _ & _ & _ & Hstamp) & Hlog & _ & Hs).
      apply effect_serve in Hs.
      destruct (IH _ H) as (sent & rest & -> & Hpls & Hr).
      exists (c :: sent), rest. split; [done|]. split.
      * rewrite Hpls, Hs, Hstamp. cbn [concat]. by rewrite effect_app.
      * destruct r as [x|e].
        -- destruct Hr as [-> Hr]. split; [done|].
           rewrite Hr, Hlog. cbn. by rewrite <- app_assoc.
        -- destruct Hr as (c' & rest' & -> & Hr). exists c', rest'.
           split; [done|]. rewrite Hr, Hlog. cbn. by rewrite <- app_assoc.
    + subst r. run_bind Hreq as resp w2 Hx; [done|].
      apply exchange_run in Hx as (_ & Hlog & _ & Hs).
      exists [], (c :: chunks). cbn. split; [done|].
      split; [by rewrite effect_nil|]. by exists c, chunks.
Qed.

End Batches.

Lemma chunked_100 (uris : list string) :
  exists chunks, chunked uris 100 = Ok chunks /\ concat chunks = uris.
Proof.
  eexists. split; [by apply chunked_eq|].
  rewrite concat_take_drop. apply take_ge.
  pose proof (ceil_div_spec (len uris) 100 ltac:(unfold len; lia) ltac:(lia))
    as [Hpos Hc].
  unfold len in *. apply Nat2Z.inj_le.
  rewrite Nat2Z.inj_mul, !Z2Nat.id by lia. lia.
Qed.

Lemma serve_add pid w chunk resp pls :
  serve w (AddTracks pid chunk) = Ok (resp, pls) ->
  pls = add_items (w_stamp w) pid chunk (w_playlists w).
Proof.
  cbn. unfold add_items. destruct (w_playlists w !! pid); [|done].
  by intros [= _ <-].
Qed.

Lemma serve_remove pid w chunk resp pls :
  serve w (RemoveTracks pid chunk) = Ok (resp, pls) ->
  pls = remove_items pid chunk (w_playlists w).
Proof.
  cbn. unfold remove_items. destruct (w_playlists w !! pid); [|done].
  by intros [= _ <-].
Qed.

(** Adding in batches: on success every URI has been appended, in order;
    on failure a prefix of the chunks has. *)
Lemma add_tracks_run access_token pid uris w r w' :
  add_tracks_to_playlist access_token pid uris w = (r, w') ->
  exists sent rest,
    concat (sent ++ rest) = uris
    /\ w_playlists w' = add_items (w_stamp w) pid (concat sent) (w_playlists w)
    /\ match r with
       | Ok _ =>
           rest = []
           /\ w_log w' = w_log w ++ map (fun c => (AddTracks pid c, true)) sent
       | Err _ =>
           exists c rest',
             rest = c :: rest'
             /\ w_log w'
                = w_log w ++ map (fun c => (AddTracks pid c, true)) sent
                  ++ [(AddTracks pid c, false)]
       end.
Proof.
  unfold add_tracks_to_playlist. intros H.
  destruct (chunked_100 uris) as (chunks & Hch & Hcat).
  run_bind H as chunks' w1 Hl; [|by rewrite Hch in Hl].
  unfold lift in Hl. rewrite Hch in Hl. injection Hl as <- <-.
  destruct (batches_run (AddTracks pid) (fun stamp => add_items stamp pid)
              access_token (fun stamp => add_items_nil stamp pid)
              (fun stamp => add_items_app stamp pid) (serve_add pid)
              _ _ _ _ H) as (sent & rest & -> & Hpls & Hr).
  by exists sent, rest.
Qed.

Lemma remove_tracks_run access_token pid uris w r w' :
  remove_tracks_from_playlist access_token pid uris w = (r, w') ->
  exists sent rest,
    concat (sent ++ rest) = uris
    /\ w_playlists w' = remove_items pid (concat sent) (w_playlists w)
    /\ match r with
       | Ok _ =>
           rest = []
           /\ w_log w' = w_log w ++ map (fun c => (RemoveTracks pid c, true)) sent
       | Err _ =>
           exists c rest',
             rest = c :: rest'
             /\ w_log w'
                = w_log w ++ map (fun c => (RemoveTracks pid c, true)) sent
                  ++ [(RemoveTracks pid c, false)]
       end.
Proof.
  unfold remove_tracks_from_playlist. intros H.
  destruct (chunked_100 uris) as (chunks & Hch & Hcat).
  run_bind H as chunks' w1 Hl; [|by rewrite Hch in Hl].
  unfold lift in Hl. rewrite Hch in Hl. injection Hl as <- <-.
  destruct (batches_run (RemoveTracks pid) (fun _ => remove_items pid)
              access_token (fun _ => remove_items_nil pid)
              (fun _ => remove_items_app pid) (serve_remove pid)
              _ _ _ _ H) as (sent & rest & -> & Hpls & Hr).
  by exists sent, rest.
Qed.

(** ** Order of the requests *)

Lemma logged_no_removal w w' tr before pid uris ok after :
  logged not_remove w w' ->
  w_log w' = w_log w ++ tr ->
  tr <> before ++ (RemoveTracks pid uris, ok) :: after.
Proof.
  intros (tr' & Hlog & Hall) Hlog' ->. rewrite Hlog in Hlog'.
  apply app_inv_head in Hlog'. subst tr'.
  apply Forall_app in Hall as [_ Hall]. by apply Forall_cons in Hall as [? _].
Qed.

Lemma split_after_prefix {A} (pre rest before after : list A) x :
  pre ++ rest = before ++ x :: after -> ~ In x pre ->
  exists k, before = pre ++ k /\ rest = k ++ x :: after.
Proof.
  intros H Hx. apply app_eq_inv in H as [(k & -> & Hk)|(k & -> & Hk)].
  - destruct k as [|y k].
    + exists []. cbn in Hk. by rewrite !app_nil_r.
    + injection Hk as -> _. exfalso. apply Hx, in_or_app. right. by left.
  - by exists k.
Qed.

Lemma removals_follow_adds_nil : removals_follow_adds [].
Proof. intros [|] ? ? ? ? ?; done. Qed.

Lemma added_in_app_r a b u : added_in b u -> added_in (a ++ b) u.
Proof.
  intros (pid & c & Hin & Hu). exists pid, c. split; [|done].
  apply in_or_app. by right.
Qed.

Lemma added_in_app_l a b u : added_in a u -> added_in (a ++ b) u.
Proof.
  intros (pid & c & Hin & Hu). exists pid, c. split; [|done].
  apply in_or_app. by left.
Qed.

Lemma removals_follow_adds_app a b :
  removals_follow_adds a -> removals_follow_adds b ->
  removals_follow_adds (a ++ b).
Proof.
  intros Ha Hb before pid uris ok after H u Hu.
  apply app_eq_inv in H as [(k & -> & Hk)|(k & -> & Hk)].
  - destruct k as [|y k].
    + cbn in Hk. symmetry in Hk.
      by destruct (Hb [] pid uris ok after Hk u Hu) as (? & ? & [] & _).
    + injection Hk as <- ->. by eapply Ha.
  - apply added_in_app_r. by eapply Hb.
Qed.

Lemma Forall_not_remove_follow tr :
  Forall (fun e : request * bool => is_remove (fst e) = false) tr ->
  removals_follow_adds tr.
Proof.
  intros Hall before pid uris ok after -> u _.
  apply Forall_app in Hall as [_ Hall]. by apply Forall_cons in Hall as [? _].
Qed.

Lemma in_concat_chunk {A} (chunks : list (list A)) c u :
  In c chunks -> In u c -> In u (concat chunks).
Proof. intros Hc Hu. apply in_concat. by exists c. Qed.

Lemma remove_tracks_log access_token pid uris w r w' :
  remove_tracks_from_playlist access_token pid uris w = (r, w') ->
  exists m,
    w_log w' = w_log w ++ m
    /\ Forall (fun x => exists c ok,
                 x = (RemoveTracks pid c, ok) /\ forall u, In u c -> In u uris) m.
Proof.
  intros H. apply remove_tracks_run in H as (sent & rest & Hcat & _ & Hr).
  assert (Hsent : Forall (fun x => exists c ok,
                 x = (RemoveTracks pid c, ok) /\ forall u, In u c -> In u uris)
            (map (fun c => (RemoveTracks pid c, true)) sent)).
  { apply List.Forall_forall. intros x (c & <- & Hc)%in_map_iff.
    exists c, true. split; [done|]. intros u Hu. rewrite <- Hcat.
    eapply in_concat_chunk; [|done]. apply in_or_app. by left. }
  destruct r as [x|e].
  - destruct Hr as [_ Hlog]. eauto.
  - destruct Hr as (c & rest' & -> & Hlog). eexists. split; [exact Hlog|].
    apply Forall_app. split; [done|]. constructor; [|done].
    exists c, false. split; [done|]. intros u Hu. rewrite <- Hcat.
    eapply in_concat_chunk; [|done]. apply in_or_app. right. by left.
Qed.

Ltac frame_logged_with lem :=
  solve [ eapply lem;
          eauto using logged_refl, logged_trans, exchange_logged ].

Ltac frame_logged :=
  first
    [ frame_logged_with (preserves_ensure (logged not_remove) not_remove)
    | frame_logged_with (preserves_add_tracks (logged not_remove) not_remove)
    | frame_logged_with
        (preserves_update_description (logged not_remove) not_remove)
    | frame_logged_with
        (preserves_find_candidates (logged not_remove) not_remove) ].

(** Within one bucket's step, a removal request is only made once every
    URI of the bucket has been added to the bucket's destination. *)
Lemma process_bucket_order access_token user_id sname src stamp key tracks
    w r w' :
  process_bucket access_token user_id sname src stamp key tracks w = (r, w') ->
  exists tr,
    w_log w' = w_log w ++ tr
    /\ forall before pid uris ok after,
         tr = before ++ (RemoveTracks pid uris, ok) :: after ->
         pid = src
         /\ (forall u, In u uris -> In u (map fst tracks))
         /\ exists tid w1,
              ensure_junk_drawer_playlist access_token user_id
                (junk_drawer_name key) (base_description_of key sname) w
              = (Ok tid, w1)
              /\ forall u, In u (map fst tracks) ->
                   exists chunk, In (AddTracks tid chunk, true) before
                                 /\ In u chunk.
Proof.
  unfold process_bucket. cbv zeta. intros H.
  run_bind H as tid w1 Hens.
  2:{ assert (Hl : logged not_remove w w') by frame_logged.
      pose proof Hl as (tr & Hlog & _). exists tr. split; [done|].
      intros before pid uris ok after Heq.
      exfalso. by apply (logged_no_removal _ _ _ before pid uris ok after Hl Hlog). }
  assert (Hl1 : logged not_remove w w1) by frame_logged.
  run_bind H as u1 w2 Hadd.
  2:{ assert (Hl : logged not_remove w w').
      { eapply logged_trans; [exact Hl1|]. frame_logged. }
      pose proof Hl as (tr & Hlog & _). exists tr. split; [done|].
      intros before pid uris ok after Heq.
      exfalso. by apply (logged_no_removal _ _ _ before pid uris ok after Hl Hlog). }
  destruct Hl1 as (e & Hlog1 & He).
  apply add_tracks_run in Hadd as (sent & rest & Hcat & _ & -> & Hlog2).
  rewrite app_nil_r in Hcat.
  assert (Htail : exists m p,
             w_log w' = w_log w2 ++ m ++ p
             /\ Forall (fun x => exists c ok,
                   x = (RemoveTracks src c, ok)
                   /\ forall u, In u c -> In u (map fst tracks)) m
             /\ Forall (fun x : request * bool => is_remove (fst x) = false) p).
  { run_bind H as u2 w3 Hrem.
    - apply remove_tracks_log in Hrem as (m & Hlog3 & Hm).
      assert (Hl : logged not_remove w3 w').
      { run_bind H as u3 w4 Hput.
        - injection H as _ <-. frame_logged.
        - frame_logged. }
      destruct Hl as (p & Hlog4 & Hp). exists m, p.
      split; [by rewrite Hlog4, Hlog3, app_assoc|done].
    - apply remove_tracks_log in Hrem as (m & Hlog3 & Hm).
      exists m, []. by rewrite app_nil_r. }
  destruct Htail as (m & p & Hlog3 & Hm & Hp).
  set (a := map (fun c => (AddTracks tid c, true)) sent) in *.
  exists (e ++ a ++ m ++ p). split.
  { rewrite Hlog3, Hlog2, Hlog1. by rewrite <- !app_assoc. }
  intros before pid uris ok after Heq.
  rewrite (app_assoc e a) in Heq.
  apply split_after_prefix in Heq as (k & -> & Hk).
  2:{ intros [Hin|Hin]%in_app_or.
      - eapply List.Forall_forall in He; [|exact Hin]. done.
      - subst a. by apply in_map_iff in Hin as (c & [=] & _). }
  assert (Hx : In (RemoveTracks pid uris, ok) m).
  { assert (Hin : In (RemoveTracks pid uris, ok) (m ++ p)).
    { rewrite Hk. apply in_or_app. right. by left. }
    apply in_app_or in Hin as [Hin|Hin]; [done|].
    eapply List.Forall_forall in Hp; [|exact Hin]. done. }
  eapply List.Forall_forall in Hm; [|exact Hx].
  destruct Hm as (c & ok' & [= -> -> ->] & Hsub).
  split; [done|]. split; [done|]. exists tid, w1. split; [done|].
  intros u Hu. rewrite <- Hcat in Hu.
  apply in_concat in Hu as (chunk & Hchunk & Hu). exists chunk. split; [|done].
  apply in_or_app. left. apply in_or_app. right. subst a.
  apply in_map_iff. by exists chunk.
Qed.

Lemma follows_refl w : follows w w.
Proof.
  exists []. split; [by rewrite app_nil_r|apply removals_follow_adds_nil].
Qed.

Lemma follows_trans w1 w2 w3 : follows w1 w2 -> follows w2 w3 -> follows w1 w3.
Proof.
  intros (t1 & H1 & F1) (t2 & H2 & F2). exists (t1 ++ t2). split.
  - by rewrite H2, H1, app_assoc.
  - by apply removals_follow_adds_app.
Qed.

Lemma logged_follows w w' : logged not_remove w w' -> follows w w'.
Proof.
  intros (tr & Hlog & Hall). exists tr. split; [done|].
  by apply Forall_not_remove_follow.
Qed.

Lemma process_bucket_follows access_token user_id sname src stamp key tracks :
  preserves follows
    (process_bucket access_token user_id sname src stamp key tracks).
Proof.
  intros w r w' H. apply process_bucket_order in H as (tr & Hlog & Htr).
  exists tr. split; [done|]. intros before pid uris ok after Heq u Hu.
  destruct (Htr _ _ _ _ _ Heq) as (_ & Hsub & tid & w1 & _ & Hadd).
  destruct (Hadd u (Hsub u Hu)) as (chunk & Hin & Huc). by exists tid, chunk.
Qed.

Lemma move_buckets_follows access_token user_id sname src stamp buckets total :
  preserves follows
    (move_buckets access_token user_id sname src stamp buckets total).
Proof.
  revert total. induction buckets as [|[k ts] rest IH]; intros total;
    cbn [move_buckets].
  - apply preserves_ret, follows_refl.
  - apply preserves_bind; [apply follows_trans|apply process_bucket_follows|].
    intros moved. apply IH.
Qed.

(** ** Where the tracks are *)

Lemma has_uri_app p items u :
  has_uri p u -> has_uri (with_items p (pl_items p ++ items)) u.
Proof. unfold has_uri. cbn. intros H. apply Exists_app. by left. Qed.

Lemma holds_add_keep stamp pid uris pls j u :
  holds pls j u -> holds (add_items stamp pid uris pls) j u.
Proof.
  intros (p & Hp & Hu). unfold add_items.
  destruct (pls !! pid) as [q|] eqn:Hq; [|by exists p].
  destruct (decide (pid = j)) as [->|Hne].
  - eexists. rewrite list_lookup_insert_eq by (by eapply lookup_lt_Some).
    split; [done|]. assert (q = p) as -> by congruence. by apply has_uri_app.
  - exists p. by rewrite list_lookup_insert_ne.
Qed.

Lemma holds_add_new stamp pid uris pls u :
  is_Some (pls !! pid) -> In u uris ->
  holds (add_items stamp pid uris pls) pid u.
Proof.
  intros [p Hp] Hu. unfold add_items. rewrite Hp. eexists.
  rewrite list_lookup_insert_eq by (by eapply lookup_lt_Some).
  split; [done|]. unfold has_uri. cbn. apply Exists_app. right.
  apply Exists_exists. exists (new_item stamp u). split; [|done].
  apply list_elem_of_In, in_map_iff. by exists u.
Qed.

Lemma holds_add_other stamp pid uris pls j u :
  j <> pid -> holds (add_items stamp pid uris pls) j u -> holds pls j u.
Proof.
  intros Hne. unfold add_items. destruct (pls !! pid) as [q|]; [|done].
  intros (p & Hp & Hu). exists p. by rewrite list_lookup_insert_ne in Hp.
Qed.

Lemma holds_remove_other pid uris pls j u :
  j <> pid -> holds pls j u -> holds (remove_items pid uris pls) j u.
Proof.
  intros Hne (p & Hp & Hu). unfold remove_items.
  destruct (pls !! pid) as [q|]; [|by exists p].
  exists p. by rewrite list_lookup_insert_ne.
Qed.

Lemma holds_remove_gone pid uris pls u :
  In u uris -> ~ holds (remove_items pid uris pls) pid u.
Proof.
  intros Hu (p & Hp & Hhas). unfold remove_items in Hp.
  destruct (pls !! pid) as [q|] eqn:Hq.
  - rewrite list_lookup_insert_eq in Hp by (by eapply lookup_lt_Some).
    injection Hp as <-. unfold has_uri in Hhas. cbn in Hhas.
    apply Exists_exists in Hhas as (it & Hin & Hit).
    apply list_elem_of_In in Hin. apply filter_In in Hin as [_ Hkeep].
    unfold keeps in Hkeep. rewrite Hit in Hkeep.
    apply negb_true_iff in Hkeep.
    assert (existsb (String.eqb u) uris = true); [|congruence].
    apply existsb_exists. exists u. by rewrite String.eqb_refl.
  - congruence.
Qed.

Lemma holds_app pls extra j u : holds pls j u -> holds (pls ++ extra) j u.
Proof.
  intros (p & Hp & Hu). exists p. split; [by apply lookup_app_l_Some|done].
Qed.

Lemma holds_app_inv pls extra j u :
  (j < length pls)%nat -> holds (pls ++ extra) j u -> holds pls j u.
Proof. intros Hj (p & Hp & Hu). exists p. by rewrite lookup_app_l in Hp. Qed.

Lemma holds_describe pls pid p d j u :
  pls !! pid = Some p ->
  holds (<[pid := with_description p d]> pls) j u <-> holds pls j u.
Proof.
  intros Hp. unfold holds. destruct (decide (pid = j)) as [->|Hne].
  - rewrite list_lookup_insert_eq by (by eapply lookup_lt_Some). split.
    + intros (q & [= <-] & Hu). by exists p.
    + intros (q & Hq & Hu). assert (q = p) as -> by congruence.
      by exists (with_description p d).
  - by rewrite list_lookup_insert_ne.
Qed.

Lemma holds_ensure access_token user_id name description w r w' j u :
  ensure_junk_drawer_playlist access_token user_id name description w = (r, w') ->
  has_uri_at w j u -> has_uri_at w' j u.
Proof.
  unfold has_uri_at. intros [[-> _]|(_ & _ & ->)]%ensure_run; [done|].
  apply holds_app.
Qed.

(** A fault on the first removal request stops the step there. *)
Lemma remove_tracks_fault access_token pid uris w detail faults :
  w_faults w = Some detail :: faults -> uris <> [] ->
  exists w',
    remove_tracks_from_playlist access_token pid uris w
    = (Err (RuntimeError detail), w')
    /\ w_playlists w' = w_playlists w.
Proof.
  intros Hf Hne. unfold remove_tracks_from_playlist.
  destruct (chunked_100 uris) as (chunks & Hch & Hcat).
  destruct chunks as [|c chunks]; [by subst uris|].
  unfold bind, lift at 1. rewrite Hch. cbn [for_in].
  unfold bind, spotify_request, exchange. rewrite Hf. eexists. split; done.
Qed.


(** ** A failure in the second bucket *)

Lemma update_description_run access_token pid description w w' :
  update_playlist_description access_token pid description w = (Ok tt, w') ->
  exists p,
    w_playlists w !! pid = Some p
    /\ w_playlists w' = <[pid := with_description p description]> (w_playlists w)
    /\ w_log w' = w_log w ++ [(PutDescription pid description, true)].
Proof.
  unfold update_playlist_description, spotify_request. intros H.
  run_bind H as resp w1 Hx; [|done]. injection H as <-.
  apply exchange_run in Hx as (_ & Hlog & _ & Hs). cbn in Hs.
  destruct (w_playlists w !! pid) as [p|]; [|done].
  injection Hs as _ Hs. by exists p.
Qed.

Lemma process_bucket_ok access_token user_id sname src stamp key tracks
    w n w' :
  process_bucket access_token user_id sname src stamp key tracks w = (Ok n, w') ->
  exists tid w1 w2 w3 description,
    ensure_junk_drawer_playlist access_token user_id (junk_drawer_name key)
      (base_description_of key sname) w = (Ok tid, w1)
    /\ add_tracks_to_playlist access_token tid (map fst tracks) w1 = (Ok tt, w2)
    /\ remove_tracks_from_playlist access_token src (map fst tracks) w2
       = (Ok tt, w3)
    /\ update_playlist_description access_token tid description w3 = (Ok tt, w').
Proof.
  unfold process_bucket. cbv zeta. intros H.
  run_bind H as tid w1 Hens; [|done].
  run_bind H as u1 w2 Hadd; [|done]. destruct u1.
  run_bind H as u2 w3 Hrem; [|done]. destruct u2.
  run_bind H as u3 w4 Hput; [|done]. destruct u3. injection H as _ <-.
  do 5 eexists. repeat split; eauto.
Qed.

Lemma logged_filter_put w w' :
  logged not_put w w' ->
  exists tr, w_log w' = w_log w ++ tr
             /\ List.filter (fun x : request * bool => is_put (fst x)) tr = [].
Proof.
  intros (tr & Hlog & Hall). exists tr. split; [done|]. clear Hlog.
  induction Hall as [|x l Hx _ IH]; cbn [List.filter]; [done|].
  cbn beta in Hx. rewrite Hx. exact IH.
Qed.

Lemma ensure_grows access_token user_id name description :
  preserves grows
    (ensure_junk_drawer_playlist access_token user_id name description).
Proof.
  apply (preserves_ensure grows (fun _ => True));
    eauto using grows_refl, grows_trans, exchange_grows.
Qed.

Lemma process_bucket_grows access_token user_id sname src stamp key tracks :
  preserves grows
    (process_bucket access_token user_id sname src stamp key tracks).
Proof.
  apply (preserves_process_bucket grows (fun _ => True));
    eauto using grows_refl, grows_trans, exchange_grows.
Qed.

Lemma grows_name w w' pid p :
  grows w w' -> w_playlists w !! pid = Some p ->
  exists p', w_playlists w' !! pid = Some p' /\ pl_name p' = pl_name p.
Proof.
  intros [_ H] Hp. destruct (H _ _ Hp) as (p' & ? & ? & _). by exists p'.
Qed.

Lemma group_keys_distinct candidates k1 ts1 k2 ts2 rest :
  group_tracks_by_year_suffix candidates = (k1, ts1) :: (k2, ts2) :: rest ->
  k1 <> k2.
Proof.
  intros H. pose proof (grouped_keys _ _ (group_tracks_grouped candidates)) as Hnd.
  rewrite H in Hnd. cbn in Hnd. apply NoDup_cons in Hnd as [Hk _].
  intros ->. apply Hk. by left.
Qed.

Ltac not_put_frame :=
  first
    [ solve [ eapply (preserves_ensure (logged not_put) not_put);
              eauto using logged_refl, logged_trans, exchange_logged ]
    | solve [ eapply (preserves_add_tracks (logged not_put) not_put);
              eauto using logged_refl, logged_trans, exchange_logged ]
    | solve [ eapply (preserves_remove_tracks (logged not_put) not_put);
              eauto using logged_refl, logged_trans, exchange_logged ] ].

Lemma second_bucket_aborts access_token user_id sname src stamp
    k1 ts1 k2 ts2 rest total w0 n1 w1 t2 w2 e w3 :
  process_bucket access_token user_id sname src stamp k1 ts1 w0 = (Ok n1, w1) ->
  ensure_junk_drawer_playlist access_token user_id (junk_drawer_name k2)
    (base_description_of k2 sname) w1 = (Ok t2, w2) ->
  add_tracks_to_playlist access_token t2 (map fst ts2) w2 = (Err e, w3) ->
  move_buckets access_token user_id sname src stamp
    ((k1, ts1) :: (k2, ts2) :: rest) total w0 = (Err e, w3).
Proof.
  intros H1 H2 H3. cbn [move_buckets].
  rewrite (bind_ok _ _ _ _ _ H1). apply bind_err.
  unfold process_bucket. cbv zeta.
  rewrite (bind_ok _ _ _ _ _ H2). by apply bind_err.
Qed.

Lemma second_bucket_state access_token user_id sname src stamp
    k1 (ts1 : list track_ref) k2 (ts2 : list track_ref)
    w0 n1 w1 t2 w2 e w3 p0 :
  k1 <> k2 ->
  w_playlists w0 !! src = Some p0 ->
  pl_name p0 <> junk_drawer_name k1 ->
  pl_name p0 <> junk_drawer_name k2 ->
  process_bucket access_token user_id sname src stamp k1 ts1 w0 = (Ok n1, w1) ->
  ensure_junk_drawer_playlist access_token user_id (junk_drawer_name k2)
    (base_description_of k2 sname) w1 = (Ok t2, w2) ->
  add_tracks_to_playlist access_token t2 (map fst ts2) w2 = (Err e, w3) ->
  exists t1 w0',
    ensure_junk_drawer_playlist access_token user_id (junk_drawer_name k1)
      (base_description_of k1 sname) w0 = (Ok t1, w0')
    /\ t1 <> src /\ t2 <> src /\ t1 <> t2
    /\ (forall u, In u (map fst ts1) ->
          has_uri_at w3 t1 u /\ ~ has_uri_at w3 src u)
    /\ exists tr d1,
         w_log w3 = w_log w0 ++ tr
         /\ List.filter (fun x : request * bool => is_put (fst x)) tr
            = [(PutDescription t1 d1, true)]
         /\ forall pid d ok,
              In (PutDescription pid d, ok) tr -> pid <> t2 /\ pid <> src.
Proof.
  intros Hk Hsrc Hname1 Hname2 H1 H2 H3.
  pose proof (process_bucket_grows _ _ _ _ _ _ _ _ _ _ H1) as Hg01.
  pose proof (ensure_grows _ _ _ _ _ _ _ H2) as Hg12.
  apply process_bucket_ok in H1
    as (t1 & wa & wb & wc & d1 & Hens & Hadd & Hrem & Hput).
  exists t1, wa. split; [done|].
  pose proof (ensure_grows _ _ _ _ _ _ _ Hens) as Hg0a.
  pose proof (ensure_valid _ _ _ _ _ _ _ Hens) as (q1 & Hq1 & Hn1).
  pose proof (ensure_valid _ _ _ _ _ _ _ H2) as (q2 & Hq2 & Hn2).
  (* the three playlists are different ones *)
  assert (Ht1 : t1 <> src).
  { intros ->. destruct (grows_name _ _ _ _ Hg0a Hsrc) as (p' & Hp' & Hn').
    apply Hname1. congruence. }
  assert (Ht2 : t2 <> src).
  { intros ->.
    destruct (grows_name _ _ _ _ (grows_trans _ _ _ Hg01 Hg12) Hsrc)
      as (p' & Hp' & Hn').
    apply Hname2. congruence. }
  assert (Hga2 : grows wa w2).
  { eapply grows_trans; [|exact Hg12].
    eapply grows_trans;
      [eapply (preserves_add_tracks grows (fun _ => True));
       eauto using grows_refl, grows_trans, exchange_grows|].
    eapply grows_trans;
      [eapply (preserves_remove_tracks grows (fun _ => True));
       eauto using grows_refl, grows_trans, exchange_grows|].
    eapply (preserves_update_description grows (fun _ => True));
      eauto using grows_refl, grows_trans, exchange_grows. }
  assert (Ht12 : t1 <> t2).
  { intros ->. destruct (grows_name _ _ _ _ Hga2 Hq1) as (p' & Hp' & Hn').
    apply Hk, junk_drawer_name_inj. congruence. }
  split; [done|]. split; [done|]. split; [done|].
  (* the remote state, step by step *)
  pose proof (add_tracks_run _ _ _ _ _ _ Hadd)
    as (sent & rest1 & Hcat & Hpb & -> & Hlogb).
  rewrite app_nil_r in Hcat. rewrite Hcat in Hpb.
  pose proof (remove_tracks_run _ _ _ _ _ _ Hrem)
    as (sent2 & rest2 & Hcat2 & Hpc & -> & Hlogc).
  rewrite app_nil_r in Hcat2. rewrite Hcat2 in Hpc.
  pose proof (update_description_run _ _ _ _ _ Hput) as (p & Hp & Hp1 & Hlog1).
  pose proof (add_tracks_run _ _ _ _ _ _ H3)
    as (sent3 & rest3 & _ & Hp3 & _).
  assert (Hlen : (src < length (w_playlists w1))%nat).
  { destruct (grows_name _ _ _ _ Hg01 Hsrc) as (p' & Hp' & _).
    by eapply lookup_lt_Some. }
  split.
  { intros u Hu. unfold has_uri_at. rewrite Hp3. split.
    - apply holds_add_keep.
      assert (H1' : holds (w_playlists w1) t1 u).
      { rewrite Hp1. apply holds_describe; [done|]. rewrite Hpc.
        apply holds_remove_other; [done|]. rewrite Hpb.
        apply holds_add_new; [by exists q1|done]. }
      apply ensure_run in H2 as [[-> _]|(_ & _ & ->)]; [done|].
      by apply holds_app.
    - intros Hh%holds_add_other; [|done].
      assert (H1' : holds (w_playlists w1) src u).
      { apply ensure_run in H2 as [[Heq _]|(_ & _ & Heq)]; rewrite Heq in Hh;
          [done|]. by eapply holds_app_inv. }
      rewrite Hp1 in H1'. apply holds_describe in H1'; [|done].
      rewrite Hpc in H1'. by eapply holds_remove_gone. }
  (* the log *)
  assert (Hl0c : logged not_put w0 wc).
  { eapply logged_trans; [|eapply logged_trans]; not_put_frame. }
  assert (Hl13 : logged not_put w1 w3).
  { eapply logged_trans; not_put_frame. }
  apply logged_filter_put in Hl0c as (tra & Hla & Hfa).
  apply logged_filter_put in Hl13 as (trb & Hlb & Hfb).
  exists (tra ++ (PutDescription t1 d1, true) :: trb), d1.
  assert (Hfilter : List.filter (fun x : request * bool => is_put (fst x))
                      (tra ++ (PutDescription t1 d1, true) :: trb)
                    = [(PutDescription t1 d1, true)]).
  { rewrite List.filter_app, Hfa. cbn. by rewrite Hfb. }
  split; [|split; [done|]].
  - rewrite Hlb, Hlog1, Hla, <- !app_assoc. done.
  - intros pid d ok Hin.
    assert (Hin' : In (PutDescription pid d, ok)
                      (List.filter (fun x : request * bool => is_put (fst x))
                         (tra ++ (PutDescription t1 d1, true) :: trb))).
    { apply filter_In. by split. }
    rewrite Hfilter in Hin'. destruct Hin' as [[= <- _ _]|[]]. done.
Qed.

(** C4. When the first bucket went through completely and an add request
    of the second bucket fails, the run ends with that error; the first
    bucket's tracks are in its destination and no longer in the source;
    and the only description update of the move phase is the first
    destination's: none for the second destination, none for the source.
    The source is a playlist of its own, not one of the two drawers. *)
Theorem second_bucket_failure environ cfg w access_token user_id src candidates
    k1 ts1 k2 ts2 rest w0 n1 w1 t2 w2 e w3 p0 :
  load_config environ = Ok cfg ->
  find_candidates cfg w = (Ok (access_token, user_id, src, candidates), w0) ->
  group_tracks_by_year_suffix candidates = (k1, ts1) :: (k2, ts2) :: rest ->
  w_playlists w0 !! src = Some p0 ->
  pl_name p0 <> junk_drawer_name k1 ->
  pl_name p0 <> junk_drawer_name k2 ->
  process_bucket access_token user_id (source_playlist_name cfg) src (w_now w0)
    k1 ts1 w0 = (Ok n1, w1) ->
  ensure_junk_drawer_playlist access_token user_id (junk_drawer_name k2)
    (base_description_of k2 (source_playlist_name cfg)) w1 = (Ok t2, w2) ->
  add_tracks_to_playlist access_token t2 (map fst ts2) w2 = (Err e, w3) ->
  main environ w = (Err e, w3)
  /\ exists t1 w0',
       ensure_junk_drawer_playlist access_token user_id (junk_drawer_name k1)
         (base_description_of k1 (source_playlist_name cfg)) w0 = (Ok t1, w0')
       /\ t1 <> src /\ t2 <> src /\ t1 <> t2
       /\ (forall u, In u (map fst ts1) ->
             has_uri_at w3 t1 u /\ ~ has_uri_at w3 src u)
       /\ exists tr d1,
            w_log w3 = w_log w0 ++ tr
            /\ List.filter (fun x : request * bool => is_put (fst x)) tr
               = [(PutDescription t1 d1, true)]
            /\ forall pid d ok,
                 In (PutDescription pid d, ok) tr -> pid <> t2 /\ pid <> src.
Proof.
  intros Hcfg Hfind Hgroup Hsrc Hname1 Hname2 H1 H2 H3. split.
  - unfold main. unfold bind at 1, lift. rewrite Hcfg.
    rewrite (bind_ok _ _ _ _ _ Hfind). unfold move_candidates.
    destruct candidates as [|c cs]; [done|].
    unfold bind at 1, reads. rewrite Hgroup. apply bind_err.
    by eapply second_bucket_aborts.
  - eapply second_bucket_state; eauto. by eapply group_keys_distinct.
Qed.

(** ** No run ends for lack of fuel *)

Lemma chunked_not_exhausted {A} (l : list A) size :
  chunked l size <> Err Exhausted.
Proof. unfold chunked. by destruct (size =? 0). Qed.

Lemma date_sub_days_not_exhausted d n : date_sub_days d n <> Err Exhausted.
Proof. unfold date_sub_days. by repeat case_match. Qed.

Lemma load_config_not_exhausted environ : load_config environ <> Err Exhausted.
Proof.
  unfold load_config, require_env, parse_duration_days.
  destruct (missing_keys _ _); [|done]. cbn.
  destruct (Py.int _) as [n|]; [|done]. by destruct (n <? 0).
Qed.

Lemma spotify_request_terminates req access_token :
  terminates (spotify_request req access_token).
Proof. apply terminates_exchange. Qed.

Lemma update_description_terminates access_token pid description :
  terminates (update_playlist_description access_token pid description).
Proof.
  unfold update_playlist_description.
  apply terminates_bind; [apply spotify_request_terminates|].
  intros _. apply terminates_ret.
Qed.

Lemma ensure_terminates access_token user_id name description :
  terminates
    (ensure_junk_drawer_playlist access_token user_id name description).
Proof.
  unfold ensure_junk_drawer_playlist.
  apply terminates_bind; [apply find_playlist_terminates|].
  intros [[id p]|]; [apply terminates_ret|].
  apply terminates_bind; [apply spotify_request_terminates|].
  intros []; by (apply terminates_ret || apply terminates_raise).
Qed.

Lemma add_tracks_terminates access_token pid uris :
  terminates (add_tracks_to_playlist access_token pid uris).
Proof.
  unfold add_tracks_to_playlist.
  apply terminates_bind;
    [apply terminates_lift, chunked_not_exhausted|].
  intros chunks. apply terminates_for_in. intros chunk.
  apply terminates_bind; [apply spotify_request_terminates|].
  intros _. apply terminates_ret.
Qed.

Lemma remove_tracks_terminates access_token pid uris :
  terminates (remove_tracks_from_playlist access_token pid uris).
Proof.
  unfold remove_tracks_from_playlist.
  apply terminates_bind;
    [apply terminates_lift, chunked_not_exhausted|].
  intros chunks. apply terminates_for_in. intros chunk.
  apply terminates_bind; [apply spotify_request_terminates|].
  intros _. apply terminates_ret.
Qed.

Lemma process_bucket_terminates access_token user_id sname src stamp key tracks :
  terminates (process_bucket access_token user_id sname src stamp key tracks).
Proof.
  unfold process_bucket. cbv zeta.
  apply terminates_bind; [apply ensure_terminates|]. intros tid.
  apply terminates_bind; [apply add_tracks_terminates|]. intros _.
  apply terminates_bind; [apply remove_tracks_terminates|]. intros _.
  apply terminates_bind; [apply update_description_terminates|]. intros _.
  apply terminates_ret.
Qed.

Lemma move_buckets_terminates access_token user_id sname src stamp buckets total :
  terminates (move_buckets access_token user_id sname src stamp buckets total).
Proof.
  revert total. induction buckets as [|[k ts] rest IH]; intros total;
    cbn [move_buckets]; [apply terminates_ret|].
  apply terminates_bind; [apply process_bucket_terminates|]. intros n. apply IH.
Qed.

Lemma find_candidates_terminates cfg : terminates (find_candidates cfg).
Proof.
  unfold find_candidates, fetch_access_token, get_current_user.
  apply terminates_bind.
  { apply terminates_bind; [apply terminates_exchange|].
    intros []; by (apply terminates_ret || apply terminates_raise). }
  intros tok. apply terminates_bind; [apply spotify_request_terminates|].
  intros me. apply terminates_bind; [apply find_playlist_terminates|].
  intros [[src p]|]; [|by apply terminates_raise].
  apply terminates_bind; [apply terminates_reads|]. intros today.
  apply terminates_bind;
    [apply terminates_lift, date_sub_days_not_exhausted|]. intros cutoff.
  apply terminates_bind; [apply collect_candidates_terminates|].
  intros c. apply terminates_ret.
Qed.

(** The fuel given to the paginated loops is enough: a run of [main] ends
    with its result or with one of the script's own exceptions. *)
Lemma main_terminates environ : terminates (main environ).
Proof.
  unfold main.
  apply terminates_bind; [apply terminates_lift, load_config_not_exhausted|].
  intros cfg. apply terminates_bind; [apply find_candidates_terminates|].
  intros [[[tok uid] src] candidates]. unfold move_candidates.
  destruct candidates as [|c cs]; [apply terminates_ret|].
  apply terminates_bind; [apply terminates_reads|]. intros stamp.
  apply terminates_bind; [apply move_buckets_terminates|]. intros total.
  apply update_description_terminates.
Qed.

(** ** The theorems at work on the sample library *)

Lemma bucket_key_two_digits_witness :
  "23" = two_digits (2023 mod 100).
Proof.
  apply (proj1 (bucket_key_two_digits Sample.candidates)
           "23" Sample.tracks23 ("a", mkdate 2023 1 2)).
  - vm_compute. auto.
  - vm_compute. auto.
Defined.

Lemma bucket_uniqueness_witness :
  "23" = year_suffix_of (mkdate 2023 1 2) /\ "23" = "23"
  /\ Sample.tracks23 = Sample.tracks23.
Proof.
  apply (proj1 (proj2 (proj2 (bucket_uniqueness Sample.candidates)))
           "23" Sample.tracks23 "23" Sample.tracks23 ("a", mkdate 2023 1 2));
    vm_compute; auto.
Defined.

Lemma chunked_spec_witness :
  0 < 2
  /\ exists chunks,
       chunked ["a"; "b"; "c"] 2 = Ok chunks
       /\ len chunks = ceil_div (len ["a"; "b"; "c"]) 2
       /\ len ["a"; "b"; "c"] <= len chunks * 2 < len ["a"; "b"; "c"] + 2
       /\ Forall (fun chunk => len chunk <= 2) chunks
       /\ concat chunks = ["a"; "b"; "c"].
Proof. split; [lia | apply (chunked_spec ["a"; "b"; "c"] 2); lia]. Defined.

Lemma config_validation_witness :
  exists cfg, load_config Sample.environ = Ok cfg /\ duration_days cfg = 0.
Proof.
  apply (proj1 (proj2 (proj2 (proj2 (proj2
           (config_validation Sample.environ Sample.faulty)))))).
  - vm_compute. reflexivity.
  - vm_compute. reflexivity.
  - lia.
Defined.

Lemma empty_run_witness :
  main Sample.environ Sample.early = (Ok tt, Sample.early_done)
  /\ w_playlists Sample.early_done = w_playlists Sample.early
  /\ exists tr, w_log Sample.early_done = w_log Sample.early ++ tr
                /\ Forall (fun e => is_read (fst e) = true) tr.
Proof.
  apply (empty_run Sample.environ Sample.cfg Sample.early "token" "me" 1%nat
           Sample.early_done).
  - vm_compute. reflexivity.
  - vm_compute. reflexivity.
Defined.

Lemma ensure_idempotent_witness :
  exists w1 w2,
    ensure_junk_drawer_playlist "token" "me" "23 Junk Drawer" "first"
      (Sample.start Sample.library []) = (Ok 2%nat, w1)
    /\ ensure_junk_drawer_playlist "token" "me" "23 Junk Drawer" "second" w1
       = (Ok 2%nat, w2)
    /\ (w_playlists w2 = Sample.library
        \/ exists p, w_playlists w2 = Sample.library ++ [p]).
Proof.
  pose (w1 := snd (ensure_junk_drawer_playlist "token" "me" "23 Junk Drawer"
                     "first" (Sample.start Sample.library []))).
  pose (w2 := snd (ensure_junk_drawer_playlist "token" "me" "23 Junk Drawer"
                     "second" w1)).
  exists w1, w2.
  assert (H1 : ensure_junk_drawer_playlist "token" "me" "23 Junk Drawer"
                 "first" (Sample.start Sample.library []) = (Ok 2%nat, w1))
    by (vm_compute; reflexivity).
  assert (H2 : ensure_junk_drawer_playlist "token" "me" "23 Junk Drawer"
                 "second" w1 = (Ok 2%nat, w2))
    by (vm_compute; reflexivity).
  split; [exact H1|]. split; [exact H2|].
  exact (proj1 (ensure_idempotent "token" "me" "23 Junk Drawer" "first" "second"
                  (Sample.start Sample.library []) _ w1 _ w2 eq_refl H1 H2)).
Defined.


Lemma second_bucket_failure_witness :
  main Sample.environ Sample.faulty = (Err (RuntimeError "boom"), Sample.w3)
  /\ exists t1 w0',
       ensure_junk_drawer_playlist "token" "me" (junk_drawer_name "23")
         (base_description_of "23" "Inbox") Sample.w0 = (Ok t1, w0')
       /\ t1 <> 1%nat /\ 3%nat <> 1%nat /\ t1 <> 3%nat
       /\ (forall u, In u (map fst Sample.tracks23) ->
             has_uri_at Sample.w3 t1 u /\ ~ has_uri_at Sample.w3 1 u)
       /\ exists tr d1,
            w_log Sample.w3 = w_log Sample.w0 ++ tr
            /\ List.filter (fun x : request * bool => is_put (fst x)) tr
               = [(PutDescription t1 d1, true)]
            /\ forall pid d ok,
                 In (PutDescription pid d, ok) tr ->
                 pid <> 3%nat /\ pid <> 1%nat.
Proof.
  apply (second_bucket_failure Sample.environ Sample.cfg Sample.faulty
           "token" "me" 1%nat Sample.candidates "23" Sample.tracks23
           "24" Sample.tracks24 [] Sample.w0 3 Sample.w1 3%nat Sample.w2
           (RuntimeError "boom") Sample.w3 Sample.inbox).
  - vm_compute. reflexivity.
  - vm_compute. reflexivity.
  - vm_compute. reflexivity.
  - vm_compute. reflexivity.
  - vm_compute. discriminate.
  - vm_compute. discriminate.
  - vm_compute. reflexivity.
  - vm_compute. reflexivity.
  - vm_compute. reflexivity.
Defined.

(** * Further properties of the script *)

(** ** More on chunking *)

(** X1. For a positive size no chunk is empty, every chunk but the last
    has exactly [size] elements, and there is no chunk at all exactly when
    the list is empty. *)
Theorem chunked_shape {A} (l : list A) (size : Z) chunks :
  0 < size ->
  chunked l size = Ok chunks ->
  Forall (fun chunk => chunk <> []) chunks
  /\ (forall i chunk, chunks !! i = Some chunk ->
        (i + 1 < length chunks)%nat -> len chunk = size)
  /\ (chunks = [] <-> l = []).
Proof.
  intros Hs. rewrite chunked_eq by done. intros [= <-].
  pose proof (ceil_div_spec (len l) size ltac:(unfold len; lia) Hs)
    as [Hpos Hc].
  set (s := Z.to_nat size) in *. set (cnt := Z.to_nat (ceil_div (len l) size)).
  assert (Hcnt : (length l <= cnt * s)%nat /\ (cnt * s < length l + s)%nat).
  { subst s cnt. unfold len in *. split.
    - apply Nat2Z.inj_le. rewrite Nat2Z.inj_mul, !Z2Nat.id by lia. lia.
    - apply Nat2Z.inj_lt.
      rewrite Nat2Z.inj_add, Nat2Z.inj_mul, !Z2Nat.id by lia. lia. }
  assert (Hs' : (0 < s)%nat) by (subst s; lia).
  split; [|split].
  - apply List.Forall_forall. intros c (k & <- & Hk%in_seq)%in_map_iff Hnil.
    apply (f_equal length) in Hnil. rewrite length_take, length_drop in Hnil.
    cbn in Hnil. nia.
  - intros i chunk Hi Hlt. rewrite length_map, length_seq in Hlt.
    change (map ?f ?x) with (f <$> x) in Hi.
    rewrite list_lookup_fmap in Hi.
    destruct (seq 0 cnt !! i) as [k|] eqn:Hk; [|done].
    apply lookup_seq in Hk as [-> _]. injection Hi as <-.
    unfold len. rewrite length_take, length_drop. nia.
  - split.
    + intros Hnil. apply (f_equal length) in Hnil.
      rewrite length_map, length_seq in Hnil. cbn in Hnil.
      apply length_zero_iff_nil. lia.
    + intros ->. cbn in Hcnt. assert (cnt = 0%nat) as -> by nia. done.
Qed.

(** X2. A size of 0 is a [ValueError]; a negative size yields no chunk,
    whatever the list holds. *)
Theorem chunked_degenerate {A} (l : list A) (size : Z) :
  (size = 0 -> exists msg, chunked l size = Err (ValueError msg))
  /\ (size < 0 -> chunked l size = Ok []).
Proof.
  unfold chunked. split.
  - intros ->. cbn. eauto.
  - intros Hs. destruct (Z.eqb_spec size 0); [lia|]. f_equal.
    unfold Py.range, Py.range_length.
    destruct (Z.ltb_spec 0 size); [lia|].
    destruct (Z.ltb_spec (Z.of_nat (length l)) 0); [lia|]. done.
Qed.

Lemma chunked_shape_witness :
  Forall (fun chunk : list string => chunk <> []) [["a"; "b"]; ["c"]]%string
  /\ (forall i chunk, [["a"; "b"]; ["c"]]%string !! i = Some chunk ->
        (i + 1 < 2)%nat -> len chunk = 2)
  /\ ([["a"; "b"]; ["c"]]%string = [] <-> ["a"; "b"; "c"]%string = []).
Proof.
  apply (chunked_shape ["a"; "b"; "c"]%string 2 [["a"; "b"]; ["c"]]%string).
  - lia.
  - reflexivity.
Defined.

Lemma chunked_degenerate_witness :
  chunked ["a"; "b"; "c"]%string (-1) = Ok [].
Proof. apply (proj2 (chunked_degenerate ["a"; "b"; "c"]%string (-1))). lia. Defined.

(** ** Order inside and between the buckets *)

Lemma existsb_eqb_In (k : string) (l : list string) :
  existsb (String.eqb k) l = true <-> In k l.
Proof.
  rewrite existsb_exists. split.
  - by intros (x & Hx & ->%String.eqb_eq).
  - intros Hk. exists k. by rewrite String.eqb_refl.
Qed.

Lemma setdefault_append_entries {V} key (x : V) buckets k xs :
  NoDup (map fst buckets) ->
  In (k, xs) (setdefault_append key x buckets) ->
  (k <> key /\ In (k, xs) buckets)
  \/ (k = key /\ exists xs0, In (key, xs0) buckets /\ xs = xs0 ++ [x])
  \/ (k = key /\ ~ In key (map fst buckets) /\ xs = [x]).
Proof.
  induction buckets as [|[k' xs'] rest IH]; cbn [setdefault_append map fst].
  - intros _ [[= <- <-]|[]]. right. right.
    split; [done|]. split; [by intros []|done].
  - intros [Hk' Hnd]%NoDup_cons.
    destruct (String.eqb_spec k' key) as [->|Hne].
    + intros [[= <- <-]|Hin].
      * right. left. split; [done|]. exists xs'. split; [by left|done].
      * left. split; [|by right]. intros ->. apply Hk', list_elem_of_In.
        apply in_map_iff. by exists (key, xs).
    + intros [[= <- <-]|Hin].
      * left. split; [done|by left].
      * destruct (IH Hnd Hin) as [[? ?]|[(-> & xs0 & ? & ->)|(-> & Hfresh & ->)]].
        -- left. split; [done|by right].
        -- right. left. split; [done|]. exists xs0. split; [by right|done].
        -- right. right. split; [done|]. split; [|done].
           intros [?|?]; [done|]. by apply Hfresh.
Qed.

Lemma first_occurrences_snoc keys k :
  first_occurrences (keys ++ [k])
  = if existsb (String.eqb k) (first_occurrences keys)
    then first_occurrences keys else first_occurrences keys ++ [k].
Proof. unfold first_occurrences. by rewrite fold_left_app. Qed.

Lemma tracks_under_snoc key tracks t :
  tracks_under key (tracks ++ [t])
  = tracks_under key tracks
    ++ (if String.eqb (year_suffix_of (snd t)) key then [t] else []).
Proof. unfold tracks_under. by rewrite List.filter_app. Qed.

Lemma tracks_under_none key tracks :
  (forall t, In t tracks -> year_suffix_of (snd t) <> key) ->
  tracks_under key tracks = [].
Proof.
  unfold tracks_under. induction tracks as [|t tracks IH]; intros H;
    cbn [List.filter]; [done|].
  destruct (String.eqb_spec (year_suffix_of (snd t)) key) as [Heq|_].
  - exfalso. apply (H t); [by left|done].
  - apply IH. intros t' Ht'. apply H. by right.
Qed.

Lemma group_loop_ordered tracks done buckets :
  NoDup (map fst buckets) ->
  map fst buckets = first_occurrences (map (fun t => year_suffix_of (snd t)) done) ->
  (forall k ts, In (k, ts) buckets -> ts = tracks_under k done) ->
  (forall t, In t done -> In (year_suffix_of (snd t)) (map fst buckets)) ->
  let result :=
    fold_left
      (fun buckets '(uri, added_date) =>
         let year_suffix := year_suffix_of added_date in
         setdefault_append year_suffix (uri, added_date) buckets)
      tracks buckets in
  map fst result
  = first_occurrences (map (fun t => year_suffix_of (snd t)) (done ++ tracks))
  /\ forall k ts, In (k, ts) result -> ts = tracks_under k (done ++ tracks).
Proof.
  revert done buckets.
  induction tracks as [|[u d] rest IH]; intros done buckets Hnd Hkeys Hin Hmem;
    cbn [fold_left].
  - cbv zeta. by rewrite app_nil_r.
  - rewrite (cons_middle (u, d) done rest), app_assoc. cbv zeta in IH |- *.
    apply IH.
    + by apply setdefault_append_NoDup.
    + rewrite map_app. cbn [map snd]. rewrite first_occurrences_snoc, <- Hkeys.
      rewrite setdefault_append_keys.
      destruct (existsb _ (map fst buckets)) eqn:He.
      * apply existsb_eqb_In in He. rewrite decide_True; [done|].
        by apply list_elem_of_In.
      * rewrite decide_False; [done|]. intros Hk%list_elem_of_In.
        apply existsb_eqb_In in Hk. congruence.
    + intros k ts Hk. rewrite tracks_under_snoc. cbn [snd].
      destruct (setdefault_append_entries _ _ _ _ _ Hnd Hk)
        as [[Hne Hk']|[(-> & xs0 & Hk' & ->)|(-> & Hfresh & ->)]].
      * rewrite (Hin _ _ Hk').
        destruct (String.eqb_spec (year_suffix_of d) k); [congruence|].
        by rewrite app_nil_r.
      * rewrite (Hin _ _ Hk'), String.eqb_refl. done.
      * rewrite String.eqb_refl, tracks_under_none; [done|].
        intros t Ht Heq. apply Hfresh. rewrite <- Heq. by apply Hmem.
    + intros t [Ht|[<-|[]]]%in_app_or.
      * rewrite setdefault_append_keys. case_decide; [by apply Hmem|].
        apply in_or_app. left. by apply Hmem.
      * cbn [snd]. destruct (setdefault_append_mem (year_suffix_of d) (u, d) buckets)
          as (xs & Hx & _).
        apply in_map_iff. by exists (year_suffix_of d, xs).
Qed.

(** X3. Grouping is stable: the bucket keys come in the order in which
    they first occur among the tracks, and each bucket lists exactly the
    tracks of its key in the order they had in the input. *)
Theorem group_tracks_ordered (tracks : list track_ref) :
  let buckets := group_tracks_by_year_suffix tracks in
  map fst buckets
  = first_occurrences (map (fun t => year_suffix_of (snd t)) tracks)
  /\ forall key ts, In (key, ts) buckets -> ts = tracks_under key tracks.
Proof.
  apply (group_loop_ordered tracks [] []); cbn; try done. constructor.
Qed.

Lemma group_tracks_ordered_witness :
  Sample.tracks24 = tracks_under "24" Sample.candidates.
Proof.
  apply (proj2 (group_tracks_ordered Sample.candidates) "24" Sample.tracks24).
  vm_compute. auto.
Defined.

(** ** Conservation of tracks *)

Lemma ends_with_refl s : ends_with s s = true.
Proof. destruct s; cbn [ends_with]; by rewrite String.eqb_refl. Qed.

Lemma ends_with_app suffix k : ends_with suffix (k +:+ suffix) = true.
Proof.
  induction k as [|c k IH].
  - apply ends_with_refl.
  - change (ends_with suffix (String c (k +:+ suffix)) = true).
    cbn [ends_with]. rewrite IH. apply orb_true_r.
Qed.

Lemma drawer_like_junk_drawer_name key : drawer_like (junk_drawer_name key) = true.
Proof. apply ends_with_app. Qed.

Lemma conserves_refl src w : conserves src w w.
Proof.
  intros Ha. split; [done|]. split; [done|]. split; [|by left].
  intros pid p u _ Hp Hu. by exists p.
Qed.

Lemma conserves_trans src w1 w2 w3 :
  conserves src w1 w2 -> conserves src w2 w3 -> conserves src w1 w3.
Proof.
  intros H12 H23 Ha1. destruct (H12 Ha1) as (Ha2 & Hs12 & Ho12 & Hr12).
  destruct (H23 Ha2) as (Ha3 & Hs23 & Ho23 & Hr23).
  split; [done|]. split; [auto|]. split.
  - intros pid p u Hne Hp Hu.
    destruct (Ho12 _ _ _ Hne Hp Hu) as (p' & Hp' & Hn' & Hu').
    destruct (Ho23 _ _ _ Hne Hp' Hu') as (p'' & Hp'' & Hn'' & Hu'').
    exists p''. split; [done|]. split; [congruence|done].
  - intros u Hu. destruct (Hr12 u Hu) as [H2|(pid & Hne & p & Hp & Hpu)].
    + apply Hr23, H2.
    + right. exists pid. split; [done|].
      destruct (Ho23 _ _ _ Hne Hp Hpu) as (p' & Hp' & _ & Hu').
      by exists p'.
Qed.


Lemma serve_spares src w req resp pls :
  spares src req -> serve w req = Ok (resp, pls) ->
  (forall pid p, w_playlists w !! pid = Some p ->
     exists p', pls !! pid = Some p' /\ pl_name p' = pl_name p
                /\ forall u, has_uri p u -> has_uri p' u)
  /\ (forall u, (src < length (w_playlists w))%nat ->
        holds pls src u -> holds (w_playlists w) src u).
Proof.
  assert (Hsame : forall pls0 : list playlist,
    (forall pid p, pls0 !! pid = Some p ->
       exists p', pls0 !! pid = Some p' /\ pl_name p' = pl_name p
                  /\ forall u, has_uri p u -> has_uri p' u)).
  { intros pls0 pid p Hp. by exists p. }
  destruct req; cbn; intros Hsp H; try (by destruct Hsp);
    repeat case_match; simplify_eq; try (split; [apply Hsame|done]).
  - (* create *)
    split.
    + intros pid q Hq. exists q. split; [by apply lookup_app_l_Some|done].
    + intros u Hlt. by apply holds_app_inv.
  - (* add *)
    split.
    + intros pid q Hq. destruct (decide (playlist_id = pid)) as [->|Hne].
      * assert (q = p) as -> by congruence.
        eexists. rewrite list_lookup_insert_eq by (by eapply lookup_lt_Some).
        split; [done|]. split; [done|]. intros u Hu. by apply has_uri_app.
      * exists q. by rewrite list_lookup_insert_ne.
    + intros u _ (q & Hq & Hu). exists q.
      by rewrite list_lookup_insert_ne in Hq.
  - (* describe *)
    split.
    + intros pid q Hq. destruct (decide (playlist_id = pid)) as [->|Hne].
      * assert (q = p) as -> by congruence.
        eexists. rewrite list_lookup_insert_eq by (by eapply lookup_lt_Some).
        done.
      * exists q. by rewrite list_lookup_insert_ne.
    + intros u _ Hh. by eapply holds_describe.
Qed.

Lemma exchange_conserves src req :
  spares src req -> preserves (conserves src) (exchange req).
Proof.
  intros Hsp w r w' H. apply exchange_run in H as (_ & _ & _ & H).
  destruct r as [resp|e].
  - apply (serve_spares src) in H as [Hkeep Hsrc]; [|done].
    intros (p0 & Hp0 & Hname).
    destruct (Hkeep _ _ Hp0) as (p0' & Hp0' & Hn0 & Hu0).
    split; [exists p0'; split; [done|congruence]|].
    split; [intros u; apply Hsrc; by eapply lookup_lt_Some|].
    split.
    + intros pid p u _ Hp Hu. destruct (Hkeep _ _ Hp) as (p' & ? & ? & Hu').
      exists p'. auto.
    + intros u (p & Hp & Hu). left.
      destruct (Hkeep _ _ Hp) as (p' & ? & _ & Hu'). exists p'. auto.
  - intros Ha. unfold has_uri_at, source_apart. rewrite H.
    split; [done|]. split; [done|]. split; [|by left].
    intros pid p u _ Hp Hu. by exists p.
Qed.

Lemma conserves_read_steps src :
  forall req, is_read req = true -> spares src req.
Proof. by intros []. Qed.

Lemma remove_items_lookup pid uris pls j :
  remove_items pid uris pls !! j
  = (fun p => if decide (pid = j)
              then with_items p (List.filter (keeps uris) (pl_items p)) else p)
    <$> pls !! j.
Proof.
  unfold remove_items. destruct (pls !! pid) as [q|] eqn:Hq.
  - destruct (decide (pid = j)) as [->|Hne].
    + rewrite list_lookup_insert_eq by (by eapply lookup_lt_Some).
      by rewrite Hq.
    + rewrite list_lookup_insert_ne by done. by destruct (pls !! j).
  - destruct (decide (pid = j)) as [->|Hne]; [by rewrite Hq|].
    by destruct (pls !! j).
Qed.

Lemma holds_remove_keep pid uris pls u :
  ~ In u uris -> holds pls pid u -> holds (remove_items pid uris pls) pid u.
Proof.
  intros Hnot (p & Hp & Hu). unfold holds. rewrite remove_items_lookup, Hp.
  cbn. rewrite decide_True by done. eexists. split; [done|].
  unfold has_uri in *. cbn. apply Exists_exists in Hu as (it & Hin & Hit).
  apply Exists_exists. exists it. split; [|done].
  apply list_elem_of_In, filter_In. split; [by apply list_elem_of_In|].
  unfold keeps. rewrite Hit. apply negb_true_iff.
  destruct (existsb _ _) eqn:He; [|done].
  apply existsb_exists in He as (v & Hv & Heq). apply String.eqb_eq in Heq.
  by subst v.
Qed.

Lemma holds_remove_inv pid uris pls j u :
  holds (remove_items pid uris pls) j u -> holds pls j u.
Proof.
  unfold holds. rewrite remove_items_lookup. intros (p & Hp & Hu).
  destruct (pls !! j) as [q|]; [|done]. cbn in Hp. injection Hp as <-.
  exists q. split; [done|]. destruct (decide (pid = j)); [|done].
  unfold has_uri in *. cbn in Hu. apply Exists_exists in Hu as (it & Hin & Hit).
  apply Exists_exists. exists it. split; [|done].
  apply list_elem_of_In in Hin. apply filter_In in Hin as [Hin _].
  by apply list_elem_of_In.
Qed.

(** Removing from the source what other playlists hold loses nothing. *)
Lemma remove_conserves access_token src uris w r w' :
  remove_tracks_from_playlist access_token src uris w = (r, w') ->
  (forall u, In u uris -> exists pid, pid <> src /\ has_uri_at w pid u) ->
  conserves src w w'.
Proof.
  intros H Hheld. apply remove_tracks_run in H as (sent & rest & Hcat & Hpls & _).
  assert (Hsub : forall u, In u (concat sent) -> In u uris).
  { intros u Hu. rewrite <- Hcat, concat_app. apply in_or_app. by left. }
  intros (p0 & Hp0 & Hname). unfold has_uri_at, source_apart. rewrite Hpls.
  split; [|split; [|split]].
  - rewrite remove_items_lookup, Hp0. cbn. rewrite decide_True by done.
    by eexists.
  - intros u. apply holds_remove_inv.
  - intros pid p u Hne Hp Hu. exists p. rewrite remove_items_lookup, Hp. cbn.
    by rewrite decide_False by done.
  - intros u Hu. destruct (in_dec string_dec u (concat sent)) as [Hin|Hnot].
    + right. destruct (Hheld u (Hsub u Hin)) as (pid & Hne & Hpid).
      exists pid. split; [done|]. by apply holds_remove_other.
    + left. by apply holds_remove_keep.
Qed.

Lemma ensure_conserves src access_token user_id name description :
  preserves (conserves src)
    (ensure_junk_drawer_playlist access_token user_id name description).
Proof.
  apply (preserves_ensure (conserves src) (spares src));
    eauto using conserves_refl, conserves_trans, exchange_conserves.
  all: done.
Qed.

Lemma add_conserves src access_token pid uris :
  pid <> src ->
  preserves (conserves src) (add_tracks_to_playlist access_token pid uris).
Proof.
  intros Hne. apply (preserves_add_tracks (conserves src) (spares src));
    eauto using conserves_refl, conserves_trans, exchange_conserves.
Qed.

Lemma update_conserves src access_token pid description :
  preserves (conserves src)
    (update_playlist_description access_token pid description).
Proof.
  apply (preserves_update_description (conserves src) (spares src));
    eauto using conserves_refl, conserves_trans, exchange_conserves.
  done.
Qed.

Lemma find_candidates_conserves src cfg :
  preserves (conserves src) (find_candidates cfg).
Proof.
  apply (preserves_find_candidates (conserves src) (spares src));
    eauto using conserves_refl, conserves_trans, exchange_conserves,
      conserves_read_steps.
Qed.

(** The destination of a bucket is never the source. *)
Lemma ensure_apart src access_token user_id key description w tid w' :
  ensure_junk_drawer_playlist access_token user_id (junk_drawer_name key)
    description w = (Ok tid, w') ->
  source_apart src w' -> tid <> src.
Proof.
  intros H (p0 & Hp0 & Hname) ->.
  apply ensure_valid in H as (p & Hp & Hn).
  assert (p = p0) as -> by congruence.
  by rewrite Hn, drawer_like_junk_drawer_name in Hname.
Qed.

Lemma add_tracks_held access_token pid uris w w' :
  add_tracks_to_playlist access_token pid uris w = (Ok tt, w') ->
  is_Some (w_playlists w !! pid) ->
  forall u, In u uris -> has_uri_at w' pid u.
Proof.
  intros H Hsome u Hu.
  apply add_tracks_run in H as (sent & rest & Hcat & Hpls & -> & _).
  rewrite app_nil_r in Hcat. subst uris. unfold has_uri_at. rewrite Hpls.
  by apply holds_add_new.
Qed.

Lemma process_bucket_conserves access_token user_id sname src stamp key tracks :
  preserves (conserves src)
    (process_bucket access_token user_id sname src stamp key tracks).
Proof.
  intros w r w' H. unfold process_bucket in H. cbv zeta in H.
  run_bind H as tid w1 Hens;
    [|by eapply ensure_conserves].
  pose proof (ensure_conserves src _ _ _ _ _ _ _ Hens) as C1.
  intros Ha. revert Ha. eapply conserves_trans; [exact C1|].
  intros Ha1.
  assert (Hne : tid <> src) by (by eapply ensure_apart).
  revert Ha1.
  run_bind H as u1 w2 Hadd; [|by eapply add_conserves].
  destruct u1.
  pose proof (add_conserves src _ _ _ Hne _ _ _ Hadd) as C2.
  eapply conserves_trans; [exact C2|].
  assert (Hheld : forall u, In u (map fst tracks) ->
            exists pid, pid <> src /\ has_uri_at w2 pid u).
  { intros u Hu. exists tid. split; [done|].
    eapply add_tracks_held; [done| |done].
    apply ensure_valid in Hens as (p & Hp & _). by exists p. }
  run_bind H as u2 w3 Hrem; [|by eapply remove_conserves].
  eapply conserves_trans; [by eapply remove_conserves|].
  run_bind H as u3 w4 Hput; [|by eapply update_conserves].
  injection H as _ <-. by eapply update_conserves.
Qed.

Lemma move_buckets_conserves access_token user_id sname src stamp buckets total :
  preserves (conserves src)
    (move_buckets access_token user_id sname src stamp buckets total).
Proof.
  revert total.
  induction buckets as [|[k ts] rest IH]; intros total; cbn [move_buckets].
  - apply preserves_ret, conserves_refl.
  - apply preserves_bind; [apply conserves_trans|
      apply process_bucket_conserves|auto].
Qed.

Lemma move_candidates_conserves access_token user_id sname src candidates :
  preserves (conserves src)
    (move_candidates access_token user_id sname src candidates).
Proof.
  unfold move_candidates. destruct candidates.
  { apply preserves_ret, conserves_refl. }
  apply preserves_bind; [apply conserves_trans|
    apply preserves_reads, conserves_refl|]. intros stamp.
  apply preserves_bind; [apply conserves_trans|
    apply move_buckets_conserves|]. intros total.
  apply update_conserves.
Qed.

Lemma fetch_access_token_run cid secret rt w tok w' :
  fetch_access_token cid secret rt w = (Ok tok, w') -> tok = w_token w.
Proof.
  unfold fetch_access_token. intros H. run_bind H as payload w1 Hx; [|done].
  apply exchange_run in Hx as (_ & _ & _ & Hs). cbn in Hs.
  injection Hs as <- _. by injection H as <- _.
Qed.

Lemma get_current_user_run access_token w me w' :
  get_current_user access_token w = (Ok me, w') -> user_id_of me = w_user w.
Proof.
  unfold get_current_user, spotify_request. intros Hx.
  apply exchange_run in Hx as (_ & _ & _ & Hs). cbn in Hs.
  by injection Hs as <- _.
Qed.

(** What the first part of a run that gets to the candidates has
    established. *)
Lemma find_candidates_source cfg w access_token user_id src candidates w' :
  find_candidates cfg w = (Ok (access_token, user_id, src, candidates), w') ->
  access_token = w_token w /\ user_id = w_user w
  /\ exists p,
       first_match (w_user w) (source_playlist_name cfg) (w_playlists w)
       = Some (src, p).
Proof.
  unfold find_candidates. intros H.
  run_bind H as tok w1 Htok; [|done].
  run_bind H as me w2 Hme; [|done].
  run_bind H as source w3 Hsrc; [|done].
  destruct source as [[src' p]|]; [|done].
  run_bind H as today w4 Htoday; [|done].
  run_bind H as cutoff w5 Hcut; [|done].
  run_bind H as cands w6 Hcol; [|done]. injection H as <- <- <- <- <-.
  assert (Hq : quiet w w2).
  { eapply quiet_trans.
    - eapply (preserves_fetch_access_token quiet (fun r => is_read r = true));
        eauto using quiet_refl, quiet_trans, exchange_quiet.
    - eapply (preserves_get_current_user quiet (fun r => is_read r = true));
        eauto using quiet_refl, quiet_trans, exchange_quiet. }
  assert (Hs : static w w1).
  { eapply (preserves_fetch_access_token static (fun _ => True));
      eauto using static_refl, static_trans, exchange_static. }
  apply fetch_access_token_run in Htok. apply get_current_user_run in Hme.
  apply find_playlist_result in Hsrc. destruct Hs as (Hu & _).
  split; [done|]. split; [congruence|]. exists p.
  unfold quiet in Hq. by rewrite <- Hq, <- Hu, <- Hme.
Qed.

Lemma load_config_source environ cfg :
  load_config environ = Ok cfg ->
  source_playlist_name cfg = environ_item environ "JUNK_MOVER_SOURCE_PLAYLIST".
Proof.
  unfold load_config. destruct (require_env _ _); [|done]. cbn.
  destruct (parse_duration_days _); [|done]. cbn. by intros [= <-].
Qed.

Lemma find_candidates_quiet cfg : preserves quiet (find_candidates cfg).
Proof.
  apply (preserves_find_candidates quiet (fun r => is_read r = true));
    eauto using quiet_refl, quiet_trans, exchange_quiet.
Qed.

(** X4. Whatever the outcome of a run, when the configured source name does
    not end in " Junk Drawer": every track that some playlist held before
    the run is held by some playlist after it, and a playlist that does not
    carry the source's name still holds every track it held. *)
Theorem no_track_lost environ w r w' :
  drawer_like (environ_item environ "JUNK_MOVER_SOURCE_PLAYLIST") = false ->
  main environ w = (r, w') ->
  (forall pid u, has_uri_at w pid u -> exists pid', has_uri_at w' pid' u)
  /\ (forall pid p u,
        w_playlists w !! pid = Some p ->
        pl_name p <> environ_item environ "JUNK_MOVER_SOURCE_PLAYLIST" ->
        has_uri p u -> has_uri_at w' pid u).
Proof.
  intros Hname H. unfold main in H.
  assert (Hsame : w_playlists w' = w_playlists w ->
     (forall pid u, has_uri_at w pid u -> exists pid', has_uri_at w' pid' u)
     /\ (forall pid p u,
           w_playlists w !! pid = Some p ->
           pl_name p <> environ_item environ "JUNK_MOVER_SOURCE_PLAYLIST" ->
           has_uri p u -> has_uri_at w' pid u)).
  { intros Hq. unfold has_uri_at. rewrite Hq. split; [eauto|].
    intros pid p u Hp _ Hu. by exists p. }
  run_bind H as cfg w0 Hcfg; [|injection Hcfg as _ ->; by apply Hsame].
  injection Hcfg as Hcfg <-. apply load_config_source in Hcfg as Hsrc.
  run_bind H as found w1 Hfind;
    [|by apply Hsame; eapply find_candidates_quiet].
  destruct found as [[[access_token user_id] src] candidates].
  pose proof (find_candidates_source _ _ _ _ _ _ _ Hfind) as (_ & _ & p0 & Hp0).
  apply first_match_Some in Hp0 as (Hp0 & Hn0 & _).
  assert (Ha : source_apart src w).
  { exists p0. split; [done|]. by rewrite Hn0, Hsrc. }
  assert (C : conserves src w w').
  { eapply conserves_trans; [by eapply find_candidates_conserves|].
    by eapply move_candidates_conserves. }
  destruct (C Ha) as (_ & _ & Hother & Hleft). split.
  - intros pid u Hu. destruct (decide (pid = src)) as [->|Hne].
    + destruct (Hleft u Hu) as [?|(pid' & _ & ?)]; eauto.
    + destruct Hu as (p & Hp & Hu).
      destruct (Hother _ _ _ Hne Hp Hu) as (p' & Hp' & _ & Hu').
      exists pid, p'. done.
  - intros pid p u Hp Hnot Hu.
    assert (Hne : pid <> src).
    { intros ->. apply Hnot. rewrite <- Hsrc, <- Hn0. congruence. }
    destruct (Hother _ _ _ Hne Hp Hu) as (p' & Hp' & _ & Hu'). by exists p'.
Qed.

(** ** A run that succeeds *)

Lemma add_items_lookup stamp pid uris pls j :
  add_items stamp pid uris pls !! j
  = (fun p => if decide (pid = j)
              then with_items p (pl_items p ++ map (new_item stamp) uris) else p)
    <$> pls !! j.
Proof.
  unfold add_items. destruct (pls !! pid) as [q|] eqn:Hq.
  - destruct (decide (pid = j)) as [->|Hne].
    + rewrite list_lookup_insert_eq by (by eapply lookup_lt_Some).
      by rewrite Hq.
    + rewrite list_lookup_insert_ne by done. by destruct (pls !! j).
  - destruct (decide (pid = j)) as [->|Hne]; [by rewrite Hq|].
    by destruct (pls !! j).
Qed.

Lemma keeps_nil it : keeps [] it = true.
Proof. unfold keeps. by destruct (item_uri it). Qed.

Lemma filter_keeps_nil items : List.filter (keeps []) items = items.
Proof.
  induction items as [|it items IH]; cbn; [done|]. by rewrite keeps_nil, IH.
Qed.

Lemma keeps_perm a b it : a ≡ₚ b -> keeps a it = keeps b it.
Proof.
  intros Hp. unfold keeps. destruct (item_uri it) as [u|]; [|done]. f_equal.
  apply Bool.eq_iff_eq_true. rewrite !existsb_exists.
  split; intros (x & Hx & ?); exists x; split; try done.
  - apply list_elem_of_In. rewrite <- Hp. by apply list_elem_of_In.
  - apply list_elem_of_In. rewrite Hp. by apply list_elem_of_In.
Qed.

Lemma filter_ext_keeps a b (items : list item) :
  a ≡ₚ b -> List.filter (keeps a) items = List.filter (keeps b) items.
Proof.
  intros Hp. apply filter_ext. intros it. by apply keeps_perm.
Qed.

Lemma ensure_owner access_token user_id name description w id w' :
  ensure_junk_drawer_playlist access_token user_id name description w
  = (Ok id, w') ->
  user_id = w_user w ->
  exists p, w_playlists w' !! id = Some p /\ pl_name p = name
            /\ pl_owner p = user_id.
Proof.
  intros H Hu. apply ensure_run in H as [[Hpls Hid]|(_ & [= ->] & Hpls)].
  - destruct (Hid id eq_refl) as [p Hp].
    apply first_match_Some in Hp as (Hp & Hn & Ho).
    exists p. by rewrite Hpls.
  - eexists. rewrite Hpls. split; [apply list_lookup_middle; done|done].
Qed.

Lemma ensure_lookup access_token user_id name description w r w' j p :
  ensure_junk_drawer_playlist access_token user_id name description w = (r, w') ->
  w_playlists w !! j = Some p -> w_playlists w' !! j = Some p.
Proof.
  intros [[-> _]|(_ & _ & ->)]%ensure_run Hp; [done|].
  by apply lookup_app_l_Some.
Qed.

(** What a bucket that went through has done. *)
Lemma process_bucket_moved access_token user_id sname src stamp key tracks
    w n w' :
  process_bucket access_token user_id sname src stamp key tracks w = (Ok n, w') ->
  source_apart src w ->
  n = len tracks
  /\ items_of w' src
     = List.filter (keeps (map fst tracks)) <$> items_of w src
  /\ exists tid p,
       tid <> src /\ w_playlists w' !! tid = Some p
       /\ pl_name p = junk_drawer_name key
       /\ pl_description p
          = base_description_of key sname +:+ ". Last run " +:+ stamp
            +:+ " moved " +:+ Py.str (len tracks) +:+ " tracks."
       /\ forall u, In u (map fst tracks) -> has_uri p u.
Proof.
  intros H Ha. unfold process_bucket in H. cbv zeta in H.
  run_bind H as tid w1 Hens; [|done].
  run_bind H as u1 w2 Hadd; [|done]. destruct u1.
  run_bind H as u2 w3 Hrem; [|done]. destruct u2.
  run_bind H as u3 w4 Hput; [|done]. destruct u3. injection H as <- <-.
  assert (Ha1 : source_apart src w1) by (by eapply ensure_conserves).
  assert (Hne : tid <> src) by (by eapply ensure_apart).
  destruct Ha as (p0 & Hp0 & _).
  pose proof (ensure_lookup _ _ _ _ _ _ _ _ _ Hens Hp0) as Hp1.
  pose proof (ensure_valid _ _ _ _ _ _ _ Hens) as (q & Hq & Hqn).
  pose proof (add_tracks_run _ _ _ _ _ _ Hadd)
    as (sent & rest & Hcat & Hpls2 & -> & _).
  rewrite app_nil_r in Hcat. rewrite Hcat in Hpls2.
  pose proof (remove_tracks_run _ _ _ _ _ _ Hrem)
    as (sent' & rest' & Hcat' & Hpls3 & -> & _).
  rewrite app_nil_r in Hcat'. rewrite Hcat' in Hpls3.
  pose proof (update_description_run _ _ _ _ _ Hput) as (q3 & Hq3 & Hpls4 & _).
  assert (Hq3' : q3 = with_items q
            (pl_items q ++ map (new_item (w_stamp w1)) (map fst tracks))).
  { rewrite Hpls3, remove_items_lookup, Hpls2, add_items_lookup, Hq in Hq3.
    cbn in Hq3. repeat case_decide; try done. by injection Hq3 as <-. }
  split; [unfold len; by rewrite length_map|]. split.
  - unfold items_of. rewrite Hpls4, list_lookup_insert_ne by done.
    rewrite Hpls3, remove_items_lookup, Hpls2, add_items_lookup, Hp1, Hp0.
    cbn. by repeat case_decide.
  - exists tid. eexists.
    split; [done|]. split.
    { rewrite Hpls4. apply list_lookup_insert_eq. by eapply lookup_lt_Some. }
    subst q3. cbn. split; [done|]. split.
    { unfold len. by rewrite length_map. }
    intros u Hu. unfold has_uri. cbn. apply Exists_app. right.
    apply Exists_exists. exists (new_item (w_stamp w1) u). split; [|done].
    apply list_elem_of_In, in_map_iff. by exists u.
Qed.

Lemma move_buckets_grows access_token user_id sname src stamp buckets total :
  preserves grows
    (move_buckets access_token user_id sname src stamp buckets total).
Proof.
  apply (preserves_move_buckets grows (fun _ => True));
    eauto using grows_refl, grows_trans, exchange_grows.
Qed.

Lemma move_buckets_moved access_token user_id sname src stamp buckets :
  forall total w n w',
  move_buckets access_token user_id sname src stamp buckets total w
  = (Ok n, w') ->
  source_apart src w ->
  n = total + len (concat (map snd buckets))
  /\ items_of w' src
     = List.filter (keeps (map fst (concat (map snd buckets)))) <$> items_of w src
  /\ forall key ts, In (key, ts) buckets ->
       exists tid p,
         tid <> src /\ w_playlists w' !! tid = Some p
         /\ pl_name p = junk_drawer_name key
         /\ forall u, In u (map fst ts) -> has_uri p u.
Proof.
  induction buckets as [|[k ts] rest IH]; intros total w n w' H Ha;
    cbn [move_buckets] in H.
  - injection H as <- <-. cbn. unfold len. cbn.
    split; [lia|]. split; [|done].
    unfold items_of. destruct (w_playlists w !! src); [|done]. cbn.
    by rewrite filter_keeps_nil.
  - run_bind H as moved w1 Hb; [|done].
    pose proof (process_bucket_conserves _ _ _ _ _ _ _ _ _ _ Hb Ha) as (Ha1 & _).
    pose proof (move_buckets_conserves _ _ _ _ _ _ _ _ _ _ H Ha1)
      as (_ & _ & Hother & _).
    pose proof (move_buckets_grows _ _ _ _ _ _ _ _ _ _ H) as Hg.
    apply process_bucket_moved in Hb
      as (-> & Hitems & tid & p & Hne & Hp & Hpn & _ & Hheld); [|done].
    destruct (IH _ _ _ _ H Ha1) as (-> & Hitems' & Hrest).
    cbn [map concat snd]. split; [|split].
    + unfold len. rewrite length_app. lia.
    + rewrite Hitems', Hitems, map_app.
      destruct (items_of w src) as [items|]; [|done]. cbn.
      by rewrite filter_filter, <- (filter_ext _ _ (keeps_app _ _)).
    + intros key ts' [[= <- <-]|Hin]; [|by apply Hrest].
      destruct (grows_name _ _ _ _ Hg Hp) as (p' & Hp' & Hn').
      exists tid, p'. split; [done|]. split; [done|]. split; [congruence|].
      intros u Hu.
      destruct (Hother _ _ _ Hne Hp (Hheld u Hu)) as (p'' & Hp'' & _ & Hu'').
      congruence.
Qed.

Lemma find_candidates_static cfg : preserves static (find_candidates cfg).
Proof.
  apply (preserves_find_candidates static (fun _ => True));
    eauto using static_refl, static_trans, exchange_static.
Qed.

Lemma has_uri_filtered uris p u :
  In u uris -> ~ has_uri (with_items p (List.filter (keeps uris) (pl_items p))) u.
Proof.
  intros Hu Hhas. unfold has_uri in Hhas. cbn in Hhas.
  apply Exists_exists in Hhas as (it & Hin & Hit).
  apply list_elem_of_In in Hin. apply filter_In in Hin as [_ Hkeep].
  unfold keeps in Hkeep. rewrite Hit in Hkeep. apply negb_true_iff in Hkeep.
  assert (existsb (String.eqb u) uris = true); [|congruence].
  apply existsb_exists. exists u. by rewrite String.eqb_refl.
Qed.


Lemma no_track_lost_witness :
  exists pid', has_uri_at Sample.w3 pid' "a".
Proof.
  apply (proj1 (no_track_lost Sample.environ Sample.faulty
                  (Err (RuntimeError "boom")) Sample.w3 eq_refl eq_refl)
           1%nat "a"%string).
  exists Sample.inbox. split; [reflexivity|].
  apply Exists_cons_hd. reflexivity.
Defined.



(** ** Runs in which no request fails *)

Lemma steady_refl w : steady w w.
Proof. by intros ?. Qed.

Lemma steady_trans w1 w2 w3 : steady w1 w2 -> steady w2 w3 -> steady w1 w3.
Proof. unfold steady. auto. Qed.

Lemma exchange_steady req : preserves steady (exchange req).
Proof.
  intros w r w' H Hf. apply exchange_run in H as (_ & _ & Hfaults & _).
  unfold fault_free in *. by rewrite Hfaults, Hf.
Qed.

Lemma exchange_live req w resp pls :
  fault_free w -> serve w req = Ok (resp, pls) ->
  exchange req w = (Ok resp, record w [] pls req true).
Proof. unfold fault_free, exchange. by intros -> ->. Qed.

Section PaginateLive.
Context {X S R : Type}.
Context (mkreq : nat -> request) (unpack : response -> list X * bool).
Context (limit : nat) (body : X -> S -> result (flow S R)).
Context (listing : list playlist -> list X) (access_token : string).
Context (served : list playlist -> Prop).
Context (Hlimit : (0 < limit)%nat).
Context (Hserve : forall w o, served (w_playlists w) ->
            exists resp,
              serve w (mkreq o) = Ok (resp, w_playlists w)
              /\ unpack resp = page_of (listing (w_playlists w)) limit o).

Let fetch (offset : nat) : M (list X * bool) :=
  let! page := spotify_request (mkreq offset) access_token in
  ret (unpack page).

(** Without faults a paginated loop is the loop over the whole listing. *)
Lemma paginate_live fuel offset s w :
  fault_free w -> served (w_playlists w) ->
  (length (listing (w_playlists w)) - offset < fuel)%nat ->
  exists w',
    paginate fuel fetch limit body offset s w
    = (for_each body (drop offset (listing (w_playlists w))) s, w')
    /\ fault_free w' /\ w_playlists w' = w_playlists w /\ static w w'.
Proof using Hlimit Hserve.
  revert offset s w.
  induction fuel as [|fuel IH]; intros offset s w Hf Hs Hfuel; [lia|].
  cbn [paginate]. destruct (Hserve w offset Hs) as (resp & Hresp & Hpage).
  assert (Hfetch : fetch offset w
            = (Ok (page_of (listing (w_playlists w)) limit offset),
               record w [] (w_playlists w) (mkreq offset) true)).
  { unfold fetch, spotify_request.
    rewrite (bind_ok _ _ _ _ _ (exchange_live _ _ _ _ Hf Hresp)).
    unfold ret. by rewrite Hpage. }
  rewrite (bind_ok _ _ _ _ _ Hfetch). cbn [page_of fst snd].
  set (l := listing (w_playlists w)) in *.
  assert (Hsplit : for_each body (drop offset l) s
            = match for_each body (take limit (drop offset l)) s with
              | Ok (Continue s') => for_each body (drop (offset + limit) l) s'
              | other => other
              end).
  { rewrite <- (take_drop limit (drop offset l)) at 1.
    by rewrite for_each_app, drop_drop. }
  rewrite Hsplit. unfold bind at 1, lift.
  destruct (for_each body (take limit (drop offset l)) s) as [[s'|v]|e].
  - destruct (Nat.ltb_spec (offset + limit) (length l)).
    + destruct (IH (offset + limit)%nat s'
                  (record w [] (w_playlists w) (mkreq offset) true))
        as (w' & Hrun & Hf' & Hpls & Hst); [done|done|cbn; fold l; lia|].
      exists w'. cbn in Hrun, Hpls. fold l in Hrun. split; [done|].
      split; [done|]. split; [done|].
      eapply static_trans; [|exact Hst]. by unfold static.
    + eexists. rewrite drop_ge by lia. cbn [for_each]. split; [done|].
      by unfold static.
  - eexists. split; [done|]. by unfold static.
  - eexists. split; [done|]. by unfold static.
Qed.

End PaginateLive.

Lemma paginate_playlists_live {S R} access_token
    (body : nat * playlist -> S -> result (flow S R)) s w :
  fault_free w ->
  exists w',
    paginate_playlists access_token body s w
    = (for_each body (indexed (w_playlists w)) s, w')
    /\ fault_free w' /\ w_playlists w' = w_playlists w /\ static w w'.
Proof.
  intros Hf. unfold paginate_playlists.
  destruct (paginate_live (GetPlaylists 50) playlists_page 50 body indexed
              access_token (fun _ => True) ltac:(lia)
              (fun w o _ => ex_intro _ _ (conj eq_refl eq_refl))
              (Datatypes.S (length (w_playlists w))) 0%nat s w Hf I)
    as (w' & Hrun & Hrest).
  { unfold indexed. rewrite length_zip, length_seq. lia. }
  exists w'. by rewrite drop_0 in Hrun.
Qed.

Lemma paginate_playlist_items_live {S R} access_token pid
    (body : item -> S -> result (flow S R)) s w :
  fault_free w -> is_Some (w_playlists w !! pid) ->
  exists w',
    paginate_playlist_items access_token pid body s w
    = (for_each body (listed_items pid (w_playlists w)) s, w')
    /\ fault_free w' /\ w_playlists w' = w_playlists w /\ static w w'.
Proof.
  intros Hf Hsome. unfold paginate_playlist_items.
  destruct (paginate_live (GetPlaylistItems pid 100) items_page 100 body
              (listed_items pid) access_token (fun pls => is_Some (pls !! pid))
              ltac:(lia)) with (fuel := items_fuel w pid) (offset := 0%nat)
              (s := s) (w := w)
    as (w' & Hrun & Hrest); [|done|done| |].
  - intros w0 o [p Hp]. cbn. unfold listed_items. rewrite Hp. by eexists.
  - unfold items_fuel, listed_items. destruct Hsome as [p ->]. cbn. lia.
  - exists w'. by rewrite drop_0 in Hrun.
Qed.

Lemma find_playlist_live access_token owner_id target_name w :
  fault_free w ->
  exists w',
    find_playlist_by_name_owner access_token owner_id target_name w
    = (Ok (first_match owner_id target_name (w_playlists w)), w')
    /\ fault_free w' /\ w_playlists w' = w_playlists w /\ static w w'.
Proof.
  intros Hf. unfold find_playlist_by_name_owner.
  destruct (paginate_playlists_live access_token
              (fun playlist (_ : unit) =>
                 if String.eqb (pl_name (snd playlist)) target_name
                    && String.eqb (pl_owner (snd playlist)) owner_id
                 then Ok (Return playlist)
                 else Ok (Continue tt)) tt w Hf) as (w' & Hrun & Hrest).
  exists w'. split; [|done]. rewrite for_each_find in Hrun.
  rewrite (bind_ok _ _ _ _ _ Hrun). unfold ret, first_match.
  by destruct (List.find _ _).
Qed.

Lemma fetch_access_token_live cid secret rt w :
  fault_free w ->
  exists w',
    fetch_access_token cid secret rt w = (Ok (w_token w), w')
    /\ fault_free w' /\ w_playlists w' = w_playlists w /\ static w w'.
Proof.
  intros Hf. unfold fetch_access_token. eexists.
  rewrite (bind_ok _ _ _ _ _
             (exchange_live (TokenRefresh cid secret rt) w _ _ Hf eq_refl)).
  split; [done|]. by unfold static.
Qed.

Lemma get_current_user_live access_token w :
  fault_free w ->
  exists w',
    get_current_user access_token w = (Ok (RespUser (w_user w)), w')
    /\ fault_free w' /\ w_playlists w' = w_playlists w /\ static w w'.
Proof.
  intros Hf. unfold get_current_user, spotify_request. eexists.
  rewrite (exchange_live GetMe w _ _ Hf eq_refl). split; [done|].
  by unfold static.
Qed.

Lemma collect_candidates_live access_token pid cutoff w :
  fault_free w -> is_Some (w_playlists w !! pid) ->
  exists w',
    collect_candidates access_token pid cutoff w
    = (candidates_of cutoff (listed_items pid (w_playlists w)), w')
    /\ fault_free w' /\ w_playlists w' = w_playlists w /\ static w w'.
Proof.
  intros Hf Hsome. unfold collect_candidates, candidates_of.
  destruct (paginate_playlist_items_live access_token pid
              (candidate_step cutoff) [] w Hf Hsome) as (w' & Hrun & Hrest).
  exists w'. split; [|done]. unfold bind. rewrite Hrun.
  by destruct (for_each _ _ _) as [[c|[]]|e].
Qed.

Lemma ensure_live access_token user_id name description w :
  fault_free w ->
  exists id w',
    ensure_junk_drawer_playlist access_token user_id name description w
    = (Ok id, w').
Proof.
  intros Hf. unfold ensure_junk_drawer_playlist.
  destruct (find_playlist_live access_token user_id name w Hf)
    as (w1 & Hfind & Hf1 & _).
  rewrite (bind_ok _ _ _ _ _ Hfind).
  destruct (first_match _ _ _) as [[id p]|]; [by eexists _, _|].
  unfold spotify_request.
  rewrite (bind_ok _ _ _ _ _
             (exchange_live (CreatePlaylist user_id name description false) w1
                _ _ Hf1 eq_refl)).
  by eexists _, _.
Qed.

Lemma for_in_live {X} (inv : world -> Prop) (xs : list X) (body : X -> M unit) w :
  (forall x w, inv w -> exists w', body x w = (Ok tt, w') /\ inv w') ->
  inv w -> exists w', for_in xs body w = (Ok tt, w') /\ inv w'.
Proof.
  intros Hbody. revert w. induction xs as [|x xs IH]; intros w Hw; cbn [for_in].
  - by exists w.
  - destruct (Hbody x w Hw) as (w1 & Hx & Hw1).
    rewrite (bind_ok _ _ _ _ _ Hx). by apply IH.
Qed.

Lemma add_tracks_live access_token pid uris w :
  fault_free w -> is_Some (w_playlists w !! pid) ->
  exists w', add_tracks_to_playlist access_token pid uris w = (Ok tt, w').
Proof.
  intros Hf Hsome. unfold add_tracks_to_playlist.
  destruct (chunked_100 uris) as (chunks & Hch & _).
  unfold bind at 1, lift. rewrite Hch.
  destruct (for_in_live
              (fun w => fault_free w /\ is_Some (w_playlists w !! pid)) chunks
              (fun chunk =>
                 do! spotify_request (AddTracks pid chunk) access_token in ret tt)
              w) as (w' & Hrun & _); [|done|by exists w'].
  intros chunk w0 [Hf0 [p Hp]]. unfold spotify_request. eexists.
  erewrite bind_ok; [|apply exchange_live; [done|]; cbn; by rewrite Hp].
  split; [done|]. split; [done|]. cbn.
  apply lookup_lt_is_Some. rewrite length_insert.
  by eapply lookup_lt_Some.
Qed.

Lemma remove_tracks_live access_token pid uris w :
  fault_free w -> is_Some (w_playlists w !! pid) ->
  exists w', remove_tracks_from_playlist access_token pid uris w = (Ok tt, w').
Proof.
  intros Hf Hsome. unfold remove_tracks_from_playlist.
  destruct (chunked_100 uris) as (chunks & Hch & _).
  unfold bind at 1, lift. rewrite Hch.
  destruct (for_in_live
              (fun w => fault_free w /\ is_Some (w_playlists w !! pid)) chunks
              (fun chunk =>
                 do! spotify_request (RemoveTracks pid chunk) access_token in
                 ret tt)
              w) as (w' & Hrun & _); [|done|by exists w'].
  intros chunk w0 [Hf0 [p Hp]]. unfold spotify_request. eexists.
  erewrite bind_ok; [|apply exchange_live; [done|]; cbn; by rewrite Hp].
  split; [done|]. split; [done|]. cbn.
  apply lookup_lt_is_Some. rewrite length_insert.
  by eapply lookup_lt_Some.
Qed.

Lemma update_description_live access_token pid description w :
  fault_free w -> is_Some (w_playlists w !! pid) ->
  exists w',
    update_playlist_description access_token pid description w = (Ok tt, w').
Proof.
  intros Hf [p Hp]. unfold update_playlist_description, spotify_request.
  eexists. erewrite bind_ok; [|apply exchange_live; [done|]; cbn; by rewrite Hp].
  done.
Qed.

Lemma grows_is_Some w w' pid :
  grows w w' -> is_Some (w_playlists w !! pid) -> is_Some (w_playlists w' !! pid).
Proof. intros Hg [p Hp]. destruct (grows_name _ _ _ _ Hg Hp) as (p' & ? & _). eauto. Qed.

Lemma ensure_steady access_token user_id name description :
  preserves steady
    (ensure_junk_drawer_playlist access_token user_id name description).
Proof.
  apply (preserves_ensure steady (fun _ => True));
    eauto using steady_refl, steady_trans, exchange_steady.
Qed.

Lemma add_tracks_steady access_token pid uris :
  preserves steady (add_tracks_to_playlist access_token pid uris).
Proof.
  apply (preserves_add_tracks steady (fun _ => True));
    eauto using steady_refl, steady_trans, exchange_steady.
Qed.

Lemma remove_tracks_steady access_token pid uris :
  preserves steady (remove_tracks_from_playlist access_token pid uris).
Proof.
  apply (preserves_remove_tracks steady (fun _ => True));
    eauto using steady_refl, steady_trans, exchange_steady.
Qed.

Lemma add_tracks_grows access_token pid uris :
  preserves grows (add_tracks_to_playlist access_token pid uris).
Proof.
  apply (preserves_add_tracks grows (fun _ => True));
    eauto using grows_refl, grows_trans, exchange_grows.
Qed.

Lemma remove_tracks_grows access_token pid uris :
  preserves grows (remove_tracks_from_playlist access_token pid uris).
Proof.
  apply (preserves_remove_tracks grows (fun _ => True));
    eauto using grows_refl, grows_trans, exchange_grows.
Qed.

Lemma process_bucket_steady access_token user_id sname src stamp key tracks :
  preserves steady
    (process_bucket access_token user_id sname src stamp key tracks).
Proof.
  apply (preserves_process_bucket steady (fun _ => True));
    eauto using steady_refl, steady_trans, exchange_steady.
Qed.

Lemma process_bucket_live access_token user_id sname src stamp key tracks w :
  fault_free w -> is_Some (w_playlists w !! src) ->
  exists w',
    process_bucket access_token user_id sname src stamp key tracks w
    = (Ok (len (map fst tracks)), w').
Proof.
  intros Hf Hsrc. unfold process_bucket. cbv zeta.
  destruct (ensure_live access_token user_id (junk_drawer_name key)
              (base_description_of key sname) w Hf) as (tid & w1 & Hens).
  rewrite (bind_ok _ _ _ _ _ Hens).
  pose proof (ensure_steady _ _ _ _ _ _ _ Hens Hf) as Hf1.
  pose proof (grows_is_Some _ _ _ (ensure_grows _ _ _ _ _ _ _ Hens) Hsrc) as Hs1.
  assert (Ht1 : is_Some (w_playlists w1 !! tid)).
  { apply ensure_valid in Hens as (p & Hp & _). by exists p. }
  destruct (add_tracks_live access_token tid (map fst tracks) w1 Hf1 Ht1)
    as (w2 & Hadd).
  rewrite (bind_ok _ _ _ _ _ Hadd).
  pose proof (add_tracks_steady _ _ _ _ _ _ Hadd Hf1) as Hf2.
  pose proof (add_tracks_grows _ _ _ _ _ _ Hadd) as Hg2.
  destruct (remove_tracks_live access_token src (map fst tracks) w2 Hf2
              (grows_is_Some _ _ _ Hg2 Hs1)) as (w3 & Hrem).
  rewrite (bind_ok _ _ _ _ _ Hrem).
  pose proof (remove_tracks_steady _ _ _ _ _ _ Hrem Hf2) as Hf3.
  pose proof (remove_tracks_grows _ _ _ _ _ _ Hrem) as Hg3.
  edestruct (update_description_live access_token tid) as (w4 & Hput);
    [exact Hf3|exact (grows_is_Some _ _ _ Hg3 (grows_is_Some _ _ _ Hg2 Ht1))|].
  rewrite (bind_ok _ _ _ _ _ Hput). by exists w4.
Qed.

Lemma move_buckets_live access_token user_id sname src stamp buckets :
  forall total w,
  fault_free w -> is_Some (w_playlists w !! src) ->
  exists n w',
    move_buckets access_token user_id sname src stamp buckets total w
    = (Ok n, w')
    /\ fault_free w' /\ is_Some (w_playlists w' !! src).
Proof.
  induction buckets as [|[k ts] rest IH]; intros total w Hf Hsrc;
    cbn [move_buckets].
  - by exists total, w.
  - destruct (process_bucket_live access_token user_id sname src stamp k ts w
                Hf Hsrc) as (w1 & Hb).
    rewrite (bind_ok _ _ _ _ _ Hb). apply IH.
    + by eapply process_bucket_steady.
    + eapply grows_is_Some; [|done]. by eapply process_bucket_grows.
Qed.

Lemma move_candidates_live access_token user_id sname src candidates w :
  fault_free w -> is_Some (w_playlists w !! src) ->
  exists w',
    move_candidates access_token user_id sname src candidates w = (Ok tt, w').
Proof.
  intros Hf Hsrc. unfold move_candidates. destruct candidates as [|c cs].
  { by exists w. }
  unfold bind at 1, reads.
  destruct (move_buckets_live access_token user_id sname src (w_now w)
              (group_tracks_by_year_suffix (c :: cs)) 0 w Hf Hsrc)
    as (n & w1 & Hmove & Hf1 & Hs1).
  rewrite (bind_ok _ _ _ _ _ Hmove).
  by apply update_description_live.
Qed.

Lemma truthy_false (v : option string) :
  Py.truthy v = false -> v = None \/ v = Some EmptyString.
Proof. destruct v as [[|c s]|]; cbn; auto. discriminate. Qed.

Lemma candidate_step_digestible cutoff it candidates :
  digestible it ->
  exists c, candidate_step cutoff it candidates = Ok (Continue c).
Proof.
  intros [Hl|(T & d & HT & Hd)].
  - eexists. by apply candidate_step_skip.
  - destruct (Py.truthy (item_uri it)) eqn:Hu.
    + destruct (item_uri it) as [[|c u]|] eqn:Hi; try done.
      eexists. by eapply candidate_step_dated.
    + exists candidates. unfold candidate_step. cbv zeta.
      by rewrite item_uri_track, Hu, andb_false_r.
Qed.

Lemma for_each_digestible cutoff items candidates :
  Forall digestible items ->
  exists c, for_each (candidate_step cutoff) items candidates = Ok (Continue c).
Proof.
  intros Hall. revert candidates.
  induction Hall as [|it items Hit _ IH]; intros candidates; cbn [for_each].
  - by eexists.
  - destruct (candidate_step_digestible cutoff it candidates Hit) as (c & ->).
    apply IH.
Qed.

Lemma candidates_of_digestible cutoff items :
  Forall digestible items -> exists c, candidates_of cutoff items = Ok c.
Proof.
  intros Hall. unfold candidates_of.
  destruct (for_each_digestible cutoff items [] Hall) as (c & ->). by exists c.
Qed.

Lemma candidate_step_undated cutoff it candidates :
  undated it ->
  exists msg, candidate_step cutoff it candidates = Err (ValueError msg).
Proof.
  intros (T & u & HT & HTne & Hu & Hune & Hd).
  unfold candidate_step. cbv zeta. rewrite item_uri_track, HT, Hu.
  rewrite !truthy_Some by done. cbn [andb negb].
  unfold iso_to_date, Iso.fromisoformat, Iso.parse_date. rewrite Hd. cbn.
  by eexists.
Qed.

Lemma candidate_step_error cutoff it candidates e :
  candidate_step cutoff it candidates = Err e -> exists msg, e = ValueError msg.
Proof.
  unfold candidate_step, iso_to_date. cbv zeta.
  repeat case_match; cbn; repeat case_match; intros; simplify_eq; by eexists.
Qed.

Lemma for_each_undated cutoff items candidates it :
  In it items -> undated it ->
  exists msg, for_each (candidate_step cutoff) items candidates
              = Err (ValueError msg).
Proof.
  intros Hin Hbad. revert candidates.
  induction items as [|x items IH]; intros candidates; [done|].
  cbn [for_each].
  destruct (candidate_step cutoff x candidates) as [[c|[]]|e] eqn:Hstep.
  - destruct Hin as [->|Hin]; [|by apply IH].
    destruct (candidate_step_undated cutoff it candidates Hbad) as (msg & Hm).
    congruence.
  - apply candidate_step_error in Hstep as (msg & ->). by exists msg.
Qed.

Lemma candidates_of_undated cutoff items it :
  In it items -> undated it ->
  exists msg, candidates_of cutoff items = Err (ValueError msg).
Proof.
  intros Hin Hbad. unfold candidates_of.
  destruct (for_each_undated cutoff items [] it Hin Hbad) as (msg & ->).
  by exists msg.
Qed.

(** What a run has gone through when it gets to its candidates, whatever
    the faults. *)
Lemma find_candidates_sound cfg w access_token user_id src candidates w' :
  find_candidates cfg w = (Ok (access_token, user_id, src, candidates), w') ->
  exists p cutoff,
    first_match (w_user w) (source_playlist_name cfg) (w_playlists w)
    = Some (src, p)
    /\ date_sub_days (w_today w) (duration_days cfg) = Ok cutoff
    /\ candidates_of cutoff (pl_items p) = Ok candidates.
Proof.
  intros H.
  pose proof (find_candidates_source _ _ _ _ _ _ _ H) as (_ & _ & p & Hp).
  apply find_candidates_run in H as (cutoff & w3 & Hcut & Hpls & Hcol).
  exists p, cutoff. split; [done|]. split; [done|].
  apply collect_candidates_result in Hcol. unfold candidates_of.
  apply first_match_Some in Hp as (Hp & _).
  unfold listed_items in Hcol. rewrite Hpls, Hp in Hcol. by rewrite Hcol.
Qed.

Lemma find_candidates_live cfg w :
  fault_free w ->
  exists w',
    find_candidates cfg w = (found cfg w, w')
    /\ fault_free w' /\ w_playlists w' = w_playlists w /\ static w w'.
Proof.
  intros Hf. unfold find_candidates, found.
  destruct (fetch_access_token_live (client_id cfg) (client_secret cfg)
              (refresh_token cfg) w Hf) as (w1 & Htok & Hf1 & Hp1 & Hs1).
  rewrite (bind_ok _ _ _ _ _ Htok).
  destruct (get_current_user_live (w_token w) w1 Hf1)
    as (w2 & Hme & Hf2 & Hp2 & Hs2).
  rewrite (bind_ok _ _ _ _ _ Hme). cbn [user_id_of].
  destruct (find_playlist_live (w_token w) (w_user w1)
              (source_playlist_name cfg) w2 Hf2)
    as (w3 & Hfind & Hf3 & Hp3 & Hs3).
  assert (Hs : static w w3) by eauto using static_trans.
  assert (Hp : w_playlists w3 = w_playlists w) by congruence.
  destruct Hs1 as (Hu1 & _). rewrite Hp2, Hp1, Hu1 in Hfind.
  rewrite Hu1, (bind_ok _ _ _ _ _ Hfind).
  destruct (first_match _ _ _) as [[src p]|] eqn:Hm.
  2:{ exists w3. done. }
  unfold bind at 1, reads. unfold bind at 1, lift.
  destruct Hs as (? & ? & Htoday & ?). rewrite Htoday.
  destruct (date_sub_days _ _) as [cutoff|e]; cbn.
  2:{ exists w3. split; [done|]. split; [done|]. split; [done|].
      by unfold static. }
  apply first_match_Some in Hm as (Hsrc & _).
  destruct (collect_candidates_live (w_token w) src cutoff w3 Hf3)
    as (w4 & Hcol & Hf4 & Hp4 & Hs4).
  { rewrite Hp. by exists p. }
  unfold bind. rewrite Hcol. unfold listed_items. rewrite Hp, Hsrc.
  exists w4.
  split; [destruct (candidates_of cutoff (pl_items p)); reflexivity|].
  split; [done|]. split; [congruence|]. eapply static_trans; [|exact Hs4].
  by unfold static.
Qed.

Lemma find_candidates_reads cfg :
  preserves (logged (fun req => is_read req = true)) (find_candidates cfg).
Proof.
  apply (preserves_find_candidates (logged (fun r => is_read r = true))
           (fun r => is_read r = true) (logged_refl _) (logged_trans _)
           (exchange_logged _)). done.
Qed.

(** A run whose first part cannot succeed ends in an error with the
    playlists untouched, after read requests only. *)
Lemma main_stops_early environ cfg w :
  load_config environ = Ok cfg ->
  (forall x w0, find_candidates cfg w <> (Ok x, w0)) ->
  forall r w',
    main environ w = (r, w') ->
    r <> Ok tt /\ w_playlists w' = w_playlists w
    /\ logged (fun req => is_read req = true) w w'.
Proof.
  intros Hcfg Hnot r w' H. unfold main in H. unfold bind at 1, lift in H.
  rewrite Hcfg in H. run_bind H as x w0 Hfind; [by destruct (Hnot x w0)|].
  subst r. split; [done|]. split.
  - by eapply find_candidates_quiet.
  - by eapply find_candidates_reads.
Qed.

Lemma main_found_error environ cfg w e :
  fault_free w -> load_config environ = Ok cfg -> found cfg w = Err e ->
  fst (main environ w) = Err e.
Proof.
  intros Hf Hcfg He. unfold main. unfold bind at 1, lift. rewrite Hcfg.
  destruct (find_candidates_live cfg w Hf) as (w0 & Hfind & _).
  rewrite He in Hfind. by rewrite (bind_err _ _ _ _ _ Hfind).
Qed.

(** X6. When no request fails, the configuration is valid, the user owns a
    playlist with the source name, the day count does not reach before
    year 1, and every entry of the source either lacks a field or carries
    an ISO timestamp, the run ends normally. *)
Theorem run_succeeds environ cfg w src p cutoff :
  fault_free w ->
  load_config environ = Ok cfg ->
  first_match (w_user w) (source_playlist_name cfg) (w_playlists w)
  = Some (src, p) ->
  date_sub_days (w_today w) (duration_days cfg) = Ok cutoff ->
  Forall digestible (pl_items p) ->
  exists candidates w0 w',
    candidates_of cutoff (pl_items p) = Ok candidates
    /\ find_candidates cfg w
       = (Ok (w_token w, w_user w, src, candidates), w0)
    /\ main environ w = (Ok tt, w').
Proof.
  intros Hf Hcfg Hsrc Hcut Hall.
  destruct (candidates_of_digestible cutoff (pl_items p) Hall) as (c & Hc).
  destruct (find_candidates_live cfg w Hf) as (w0 & Hfind & Hf0 & Hp0 & _).
  unfold found in Hfind. rewrite Hsrc, Hcut in Hfind. cbn in Hfind.
  rewrite Hc in Hfind. cbn in Hfind.
  destruct (move_candidates_live (w_token w) (w_user w)
              (source_playlist_name cfg) src c w0 Hf0) as (w' & Hmove).
  { rewrite Hp0. apply first_match_Some in Hsrc as (Hsrc & _). by exists p. }
  exists c, w0, w'. split; [done|]. split; [done|].
  unfold main. unfold bind at 1, lift. rewrite Hcfg.
  by rewrite (bind_ok _ _ _ _ _ Hfind).
Qed.

(** X7. When the authenticated user owns no playlist with the configured
    source name, a run never ends normally, makes read requests only and
    leaves every playlist as it was; when no request fails its error is
    the [RuntimeError] that names the playlist. *)
Theorem source_missing environ cfg w :
  load_config environ = Ok cfg ->
  first_match (w_user w) (source_playlist_name cfg) (w_playlists w) = None ->
  (forall r w',
     main environ w = (r, w') ->
     r <> Ok tt /\ w_playlists w' = w_playlists w
     /\ logged (fun req => is_read req = true) w w')
  /\ (fault_free w ->
      fst (main environ w)
      = Err (RuntimeError ("Could not find playlist '"
                           +:+ source_playlist_name cfg
                           +:+ "' owned by this user."))).
Proof.
  intros Hcfg Hnone. split.
  - apply (main_stops_early environ cfg w Hcfg).
    intros [[[tok uid] src] c] w0 H.
    apply find_candidates_sound in H as (p & _ & Hp & _). congruence.
  - intros Hf. apply (main_found_error environ cfg w _ Hf Hcfg).
    unfold found. by rewrite Hnone.
Qed.

(** X8. One entry of the source that has a URI and a timestamp that does
    not start with a four-digit year stops the whole run: it never ends
    normally, makes read requests only and changes no playlist; when no
    request fails and the cutoff date exists, the error is a
    [ValueError]. *)
Theorem undated_entry_aborts environ cfg w src p it :
  load_config environ = Ok cfg ->
  first_match (w_user w) (source_playlist_name cfg) (w_playlists w)
  = Some (src, p) ->
  In it (pl_items p) -> undated it ->
  (forall r w',
     main environ w = (r, w') ->
     r <> Ok tt /\ w_playlists w' = w_playlists w
     /\ logged (fun req => is_read req = true) w w')
  /\ (fault_free w ->
      forall cutoff,
        date_sub_days (w_today w) (duration_days cfg) = Ok cutoff ->
        exists msg, fst (main environ w) = Err (ValueError msg)).
Proof.
  intros Hcfg Hsrc Hin Hbad. split.
  - apply (main_stops_early environ cfg w Hcfg).
    intros [[[tok uid] src'] c] w0 H.
    apply find_candidates_sound in H as (p' & cutoff & Hp & _ & Hc).
    assert (p' = p) as -> by congruence.
    destruct (candidates_of_undated cutoff (pl_items p) it Hin Hbad) as (msg & Hm).
    congruence.
  - intros Hf cutoff Hcut.
    destruct (candidates_of_undated cutoff (pl_items p) it Hin Hbad) as (msg & Hm).
    exists msg. apply (main_found_error environ cfg w _ Hf Hcfg).
    unfold found. rewrite Hsrc, Hcut. cbn. by rewrite Hm.
Qed.

(** A day count that reaches back to before 1 January of year 1 stops the
    run once the source is found. *)
Lemma overflow_stops environ cfg w src p :
  load_config environ = Ok cfg ->
  first_match (w_user w) (source_playlist_name cfg) (w_playlists w)
  = Some (src, p) ->
  toordinal (w_today w) <= duration_days cfg ->
  (forall r w',
     main environ w = (r, w') ->
     r <> Ok tt /\ w_playlists w' = w_playlists w
     /\ logged (fun req => is_read req = true) w w')
  /\ (fault_free w ->
      exists msg, fst (main environ w) = Err (OverflowError msg)).
Proof.
  intros Hcfg Hsrc Hdays.
  assert (Hover : exists msg,
            date_sub_days (w_today w) (duration_days cfg)
            = Err (OverflowError msg)).
  { unfold date_sub_days. destruct (_ >? _); [by eexists|].
    destruct (Z.ltb_spec 0 (toordinal (w_today w) + - duration_days cfg));
      [lia|]. by eexists. }
  destruct Hover as (msg & Hover). split.
  - apply (main_stops_early environ cfg w Hcfg).
    intros [[[tok uid] src'] c] w0 H.
    apply find_candidates_sound in H as (p' & cutoff & _ & Hcut & _).
    congruence.
  - intros Hf. exists msg. apply (main_found_error environ cfg w _ Hf Hcfg).
    unfold found. by rewrite Hsrc, Hover.
Qed.

(** X9. A day count that reaches back to before 1 January of year 1 passes
    the validation of the configuration ([load_config] returns the
    configuration with that day count) but stops the run once the source
    is found: the run never ends normally, makes read requests only and
    changes no playlist; when no request fails the error is an
    [OverflowError]. *)
Theorem duration_overflow environ w src p n :
  missing_keys required_keys environ = [] ->
  Py.int (duration_raw environ) = Some n ->
  0 <= n -> toordinal (w_today w) <= n ->
  first_match (w_user w) (environ_item environ "JUNK_MOVER_SOURCE_PLAYLIST")
    (w_playlists w)
  = Some (src, p) ->
  (exists cfg, load_config environ = Ok cfg /\ duration_days cfg = n)
  /\ (forall r w',
       main environ w = (r, w') ->
       r <> Ok tt /\ w_playlists w' = w_playlists w
       /\ logged (fun req => is_read req = true) w w')
  /\ (fault_free w ->
      exists msg, fst (main environ w) = Err (OverflowError msg)).
Proof.
  intros Hm Hint Hn Hdays Hsrc.
  assert (Hcfg : exists cfg,
            load_config environ = Ok cfg /\ duration_days cfg = n
            /\ source_playlist_name cfg
               = environ_item environ "JUNK_MOVER_SOURCE_PLAYLIST").
  { unfold load_config, require_env, parse_duration_days.
    unfold duration_raw in Hint. rewrite Hm, Hint. cbn.
    destruct (Z.ltb_spec n 0); [lia|]. cbn. by eexists. }
  destruct Hcfg as (cfg & Hcfg & Hd & Hname).
  split; [by exists cfg|].
  apply (overflow_stops environ cfg w src p Hcfg); [by rewrite Hname|lia].
Qed.


Lemma run_succeeds_witness :
  exists candidates w0 w',
    candidates_of (mkdate 2025 11 29) (pl_items Sample.inbox) = Ok candidates
    /\ find_candidates Sample.cfg Moved.start
       = (Ok (w_token Moved.start, w_user Moved.start, 1%nat, candidates), w0)
    /\ main Sample.environ Moved.start = (Ok tt, w').
Proof.
  apply (run_succeeds Sample.environ Sample.cfg Moved.start 1%nat Sample.inbox
           (mkdate 2025 11 29)).
  - reflexivity.
  - vm_compute. reflexivity.
  - vm_compute. reflexivity.
  - vm_compute. reflexivity.
  - repeat first [apply List.Forall_nil | apply List.Forall_cons];
      try (right; do 2 eexists; split; [reflexivity|vm_compute; reflexivity]).
    left. left. right. left. reflexivity.
Defined.

Lemma source_missing_witness :
  fst (main Sample.environ (Sample.start [] []))
  = Err (RuntimeError "Could not find playlist 'Inbox' owned by this user.").
Proof.
  apply (proj2 (source_missing Sample.environ Sample.cfg (Sample.start [] [])
                  eq_refl eq_refl) eq_refl).
Defined.


Lemma undated_entry_aborts_witness :
  exists msg, fst (main Sample.environ Edge.start) = Err (ValueError msg).
Proof.
  apply (proj2 (undated_entry_aborts Sample.environ Sample.cfg Edge.start 0%nat
                  Edge.inbox (Sample.entry "x" "someday")
                  ltac:(vm_compute; reflexivity) ltac:(vm_compute; reflexivity)
                  ltac:(vm_compute; tauto)
                  ltac:(exists "someday"%string, "x"%string;
                        repeat split; discriminate))
           eq_refl (mkdate 2025 11 29)).
  vm_compute. reflexivity.
Defined.

Lemma duration_overflow_witness :
  (exists cfg, load_config Edge.environ = Ok cfg /\ duration_days cfg = 800000)
  /\ exists msg, fst (main Edge.environ Moved.start) = Err (OverflowError msg).
Proof.
  destruct (duration_overflow Edge.environ Moved.start 1%nat Sample.inbox 800000
              ltac:(vm_compute; reflexivity) ltac:(vm_compute; reflexivity)
              ltac:(lia) ltac:(vm_compute; discriminate)
              ltac:(vm_compute; reflexivity)) as (Hcfg & _ & Hrun).
  split; [exact Hcfg|]. apply Hrun. reflexivity.
Defined.



(** ** Lookup and creation of playlists *)

Lemma find_zip_seq {A} (f : nat * A -> bool) (l : list A) k id p :
  List.find f (zip (seq k (length l)) l) = Some (id, p) ->
  (k <= id)%nat /\ l !! (id - k)%nat = Some p /\ f (id, p) = true
  /\ forall j q, (k <= j < id)%nat -> l !! (j - k)%nat = Some q ->
       f (j, q) = false.
Proof.
  revert k. induction l as [|x l IH]; intros k; cbn; [done|].
  destruct (f (k, x)) eqn:Hf.
  - intros [= <- <-]. split; [lia|]. rewrite Nat.sub_diag.
    split; [done|]. split; [done|]. intros j q Hj. lia.
  - intros H. apply IH in H as (Hk & Hp & Hfp & Hbefore).
    split; [lia|]. replace (id - k)%nat with (Datatypes.S (id - Datatypes.S k)) by lia.
    split; [done|]. split; [done|]. intros j q Hj Hq.
    destruct (decide (j = k)) as [->|Hne].
    + rewrite Nat.sub_diag in Hq. cbn in Hq. by injection Hq as <-.
    + apply Hbefore; [lia|].
      replace (j - k)%nat with (Datatypes.S (j - Datatypes.S k)) in Hq by lia.
      done.
Qed.

Lemma find_zip_seq_none {A} (f : nat * A -> bool) (l : list A) k :
  List.find f (zip (seq k (length l)) l) = None ->
  forall j q, l !! j = Some q -> f ((k + j)%nat, q) = false.
Proof.
  revert k. induction l as [|x l IH]; intros k; cbn; [done|].
  destruct (f (k, x)) eqn:Hf; [done|]. intros H [|j] q Hq; cbn in Hq.
  - injection Hq as <-. by rewrite Nat.add_0_r.
  - replace (k + Datatypes.S j)%nat with (Datatypes.S k + j)%nat by lia.
    by apply IH.
Qed.

(** The playlist a lookup answers with is the first one, in listing order,
    that has the name and the owner. *)
Lemma first_match_first owner_id target_name pls id p :
  first_match owner_id target_name pls = Some (id, p) ->
  forall j q, (j < id)%nat -> pls !! j = Some q ->
    ~ (pl_name q = target_name /\ pl_owner q = owner_id).
Proof.
  unfold first_match, indexed. intros H j q Hj Hq [Hn Ho].
  apply find_zip_seq in H as (_ & _ & _ & Hbefore).
  specialize (Hbefore j q). replace (j - 0)%nat with j in Hbefore by lia.
  specialize (Hbefore ltac:(lia) Hq). cbn in Hbefore.
  by rewrite Hn, Ho, !String.eqb_refl in Hbefore.
Qed.

Lemma first_match_None owner_id target_name pls :
  first_match owner_id target_name pls = None ->
  forall j q, pls !! j = Some q ->
    ~ (pl_name q = target_name /\ pl_owner q = owner_id).
Proof.
  unfold first_match, indexed. intros H j q Hq [Hn Ho].
  pose proof (find_zip_seq_none _ _ _ H j q Hq) as Hf. cbn in Hf.
  by rewrite Hn, Ho, !String.eqb_refl in Hf.
Qed.

Lemma find_playlist_reads access_token owner_id target_name :
  preserves (logged (fun req => is_read req = true))
    (find_playlist_by_name_owner access_token owner_id target_name).
Proof.
  apply (preserves_find_playlist (logged (fun r => is_read r = true))
           (fun r => is_read r = true) (logged_refl _) (logged_trans _)
           (exchange_logged _)). done.
Qed.

Lemma find_playlist_quiet access_token owner_id target_name :
  preserves quiet
    (find_playlist_by_name_owner access_token owner_id target_name).
Proof.
  apply (preserves_find_playlist quiet (fun r => is_read r = true)
           quiet_refl quiet_trans exchange_quiet). done.
Qed.

(** X10. A lookup by name and owner only reads, and changes no playlist.
    When it answers with a playlist, that playlist has the name and the
    owner and no playlist listed before it has both; when it answers with
    nothing, no playlist has both.  When no request fails it answers. *)
Theorem lookup_first_match access_token owner_id target_name w :
  (forall r w',
     find_playlist_by_name_owner access_token owner_id target_name w = (r, w') ->
     w_playlists w' = w_playlists w
     /\ logged (fun req => is_read req = true) w w'
     /\ (forall id p, r = Ok (Some (id, p)) ->
           w_playlists w !! id = Some p
           /\ pl_name p = target_name /\ pl_owner p = owner_id
           /\ forall j q, (j < id)%nat -> w_playlists w !! j = Some q ->
                ~ (pl_name q = target_name /\ pl_owner q = owner_id))
     /\ (r = Ok None ->
         forall j q, w_playlists w !! j = Some q ->
           ~ (pl_name q = target_name /\ pl_owner q = owner_id)))
  /\ (fault_free w ->
      exists found,
        fst (find_playlist_by_name_owner access_token owner_id target_name w)
        = Ok found).
Proof.
  split.
  - intros r w' H. split; [by eapply find_playlist_quiet|].
    split; [by eapply find_playlist_reads|]. split.
    + intros id p ->. apply find_playlist_result in H. symmetry in H.
      pose proof (first_match_Some _ _ _ _ _ H) as (Hp & Hn & Ho).
      repeat split; try done. by eapply first_match_first.
    + intros ->. apply find_playlist_result in H. symmetry in H.
      by apply first_match_None.
  - intros Hf.
    destruct (find_playlist_live access_token owner_id target_name w Hf)
      as (w' & -> & _). by eexists.
Qed.

Lemma ensure_log access_token user_id name description :
  preserves
    (logged (fun req =>
               is_read req = true
               \/ req = CreatePlaylist user_id name description false))
    (ensure_junk_drawer_playlist access_token user_id name description).
Proof.
  apply (preserves_ensure _ (fun req =>
           is_read req = true
           \/ req = CreatePlaylist user_id name description false)
           (logged_refl _) (logged_trans _) (exchange_logged _)); auto.
Qed.

(** X11. Ensure-exists reuses the first playlist of that name and owner
    without writing anything; when there is none and the request goes
    through, it creates exactly one playlist: private, empty, with the
    given name and description, listed after all the others, which stay
    as they were.  Its only possible write is that creation. *)
Theorem ensure_reuses_or_creates access_token user_id name description w r w' :
  ensure_junk_drawer_playlist access_token user_id name description w = (r, w') ->
  logged (fun req =>
            is_read req = true
            \/ req = CreatePlaylist user_id name description false) w w'
  /\ match first_match user_id name (w_playlists w) with
     | Some (id, p) =>
         w_playlists w' = w_playlists w /\ (r = Ok id \/ exists e, r = Err e)
     | None =>
         (w_playlists w' = w_playlists w /\ exists e, r = Err e)
         \/ (r = Ok (length (w_playlists w))
             /\ w_playlists w'
                = w_playlists w
                  ++ [mkplaylist name (w_user w) description false []])
     end.
Proof.
  intros H. split; [by eapply ensure_log|].
  pose proof (ensure_run _ _ _ _ _ _ _ H) as [[Hpls Hid]|(Hnone & -> & Hpls)].
  - destruct r as [id'|e].
    + destruct (Hid id' eq_refl) as (p & ->). split; [done|]. by left.
    + destruct (first_match _ _ _) as [[id p]|].
      * split; [done|]. right. by eexists.
      * left. split; [done|]. by eexists.
  - rewrite Hnone. by right.
Qed.


(** ** Progress of the batched mutations *)

Lemma chunked_batches (uris : list string) :
  exists cnt,
    chunked uris 100 = Ok (map (batch uris) (seq 0 cnt))
    /\ (length uris <= cnt * 100 < length uris + 100)%nat.
Proof.
  exists (Z.to_nat (ceil_div (len uris) 100)).
  split; [by rewrite chunked_eq|].
  pose proof (ceil_div_spec (len uris) 100 ltac:(unfold len; lia) ltac:(lia))
    as [Hpos Hc].
  unfold len in *. lia.
Qed.

Lemma map_seq_split {B} (f : nat -> B) cnt (sent rest : list B) :
  map f (seq 0 cnt) = sent ++ rest ->
  sent = map f (seq 0 (length sent))
  /\ rest = map f (seq (length sent) (cnt - length sent))
  /\ (length sent <= cnt)%nat.
Proof.
  intros H.
  assert (Hlen : (length sent + length rest = cnt)%nat).
  { apply (f_equal length) in H.
    rewrite length_map, length_seq, length_app in H. lia. }
  replace cnt with (length sent + (cnt - length sent))%nat in H at 1 by lia.
  rewrite seq_app, map_app in H. cbn in H.
  apply app_inj_1 in H as [H1 H2]; [|by rewrite length_map, length_seq].
  split; [done|]. split; [by rewrite <- H2|lia].
Qed.

Section Progress.
Context (mk : list string -> request).
Context (effect : string -> list string -> list playlist -> list playlist).
Context (access_token : string).
Context (effect_nil : forall stamp pls, effect stamp [] pls = pls).
Context (effect_app : forall stamp a b pls,
           effect stamp b (effect stamp a pls) = effect stamp (a ++ b) pls).
Context (effect_serve : forall w chunk resp pls,
           serve w (mk chunk) = Ok (resp, pls) ->
           pls = effect (w_stamp w) chunk (w_playlists w)).

Lemma batches_progress uris w r w' :
  (let! chunks := lift (chunked uris 100) in
   for_in chunks (fun chunk =>
     do! spotify_request (mk chunk) access_token in ret tt)) w = (r, w') ->
  exists k : nat,
    w_playlists w' = effect (w_stamp w) (take (k * 100) uris) (w_playlists w)
    /\ w_log w' = w_log w ++ batch_log mk uris k (negb (is_ok r))
    /\ if is_ok r then (length uris <= k * 100 < length uris + 100)%nat
       else (k * 100 < length uris)%nat.
Proof using effect_nil effect_app effect_serve.
  intros H. destruct (chunked_batches uris) as (cnt & Hch & Hcnt).
  unfold bind at 1, lift in H. rewrite Hch in H.
  destruct (batches_run mk effect access_token effect_nil effect_app
              effect_serve _ _ _ _ H) as (sent & rest & Hsplit & Hpls & Hr).
  apply map_seq_split in Hsplit as (Hsent & Hrest & Hle).
  exists (length sent). split.
  { rewrite Hpls. f_equal. rewrite Hsent at 1. unfold batch.
    apply concat_take_drop. }
  unfold batch_log. destruct r as [x|e]; cbn [is_ok negb].
  - destruct Hr as [-> Hlog]. split.
    + rewrite Hlog, app_nil_r. f_equal. rewrite Hsent at 1.
      by rewrite map_map.
    + destruct (cnt - length sent)%nat eqn:Hd; [|done].
      assert (length sent = cnt) by lia. lia.
  - destruct Hr as (c & rest' & -> & Hlog).
    destruct (cnt - length sent)%nat eqn:Hd; [done|].
    cbn in Hrest. injection Hrest as -> _. split.
    + rewrite Hlog. f_equal. f_equal. rewrite Hsent at 1. by rewrite map_map.
    + lia.
Qed.

End Progress.

(** X12. Adding and removing go through the URIs in order, in batches of
    100, one request per batch, and stop at the first request that fails:
    after [k] accepted batches exactly the first [100 * k] URIs have been
    added (or removed); a normal end means that all of them have, with
    [ceil(n / 100)] requests, and an error means that some are left. *)
Theorem batches_in_order access_token pid uris w r w' :
  (add_tracks_to_playlist access_token pid uris w = (r, w') ->
   exists k : nat,
     w_playlists w'
     = add_items (w_stamp w) pid (take (k * 100) uris) (w_playlists w)
     /\ w_log w' = w_log w ++ batch_log (AddTracks pid) uris k (negb (is_ok r))
     /\ if is_ok r then (length uris <= k * 100 < length uris + 100)%nat
        else (k * 100 < length uris)%nat)
  /\ (remove_tracks_from_playlist access_token pid uris w = (r, w') ->
      exists k : nat,
        w_playlists w' = remove_items pid (take (k * 100) uris) (w_playlists w)
        /\ w_log w'
           = w_log w ++ batch_log (RemoveTracks pid) uris k (negb (is_ok r))
        /\ if is_ok r then (length uris <= k * 100 < length uris + 100)%nat
           else (k * 100 < length uris)%nat).
Proof.
  split; intros H.
  - apply (batches_progress (AddTracks pid) (fun stamp => add_items stamp pid)
             access_token (fun stamp => add_items_nil stamp pid)
             (fun stamp => add_items_app stamp pid) (serve_add pid)) in H.
    done.
  - apply (batches_progress (RemoveTracks pid) (fun _ => remove_items pid)
             access_token (fun _ => remove_items_nil pid)
             (fun _ => remove_items_app pid) (serve_remove pid)) in H.
    done.
Qed.


(** ** Running again *)

Lemma first_match_intro owner_id target_name pls id p :
  pls !! id = Some p -> pl_name p = target_name -> pl_owner p = owner_id ->
  (forall j q, (j < id)%nat -> pls !! j = Some q ->
     ~ (pl_name q = target_name /\ pl_owner q = owner_id)) ->
  first_match owner_id target_name pls = Some (id, p).
Proof.
  intros Hp Hn Ho Hfirst.
  destruct (first_match owner_id target_name pls) as [[id' p']|] eqn:Hm.
  - pose proof (first_match_Some _ _ _ _ _ Hm) as (Hp' & Hn' & Ho').
    pose proof (first_match_first _ _ _ _ _ Hm) as Hfirst'.
    destruct (Nat.lt_trichotomy id id') as [Hlt|[->|Hlt]].
    + by destruct (Hfirst' id p Hlt Hp).
    + congruence.
    + by destruct (Hfirst id' p' Hlt Hp').
  - by destruct (first_match_None _ _ _ Hm id p Hp).
Qed.

(** A playlist found by name and owner is found again, at the same place,
    as long as playlists are only added at the end and keep their names
    and owners. *)
Lemma first_match_grows owner_id target_name w w' id p :
  grows w w' ->
  first_match owner_id target_name (w_playlists w) = Some (id, p) ->
  exists p', first_match owner_id target_name (w_playlists w') = Some (id, p').
Proof.
  intros [Hlen Hg] Hm.
  pose proof (first_match_Some _ _ _ _ _ Hm) as (Hp & Hn & Ho).
  pose proof (first_match_first _ _ _ _ _ Hm) as Hfirst.
  destruct (Hg _ _ Hp) as (p' & Hp' & Hn' & Ho').
  exists p'. apply first_match_intro; [done|congruence|congruence|].
  intros j q Hj Hq [Hqn Hqo].
  assert (Hsome : is_Some (w_playlists w !! j)).
  { apply lookup_lt_is_Some. apply lookup_lt_Some in Hp. lia. }
  destruct Hsome as [q0 Hq0]. destruct (Hg _ _ Hq0) as (q' & Hq' & Hqn' & Hqo').
  assert (q' = q) as -> by congruence.
  apply (Hfirst j q0 Hj Hq0). split; congruence.
Qed.

Lemma candidate_step_any_acc cutoff it acc r acc' :
  candidate_step cutoff it acc = Ok (Continue r) ->
  exists r', candidate_step cutoff it acc' = Ok (Continue r').
Proof.
  unfold candidate_step. cbv zeta.
  destruct (negb _); [by eexists|].
  destruct (get (added_at it)); [|by eexists].
  destruct (get (uri (track_or_empty it))); [|by eexists].
  destruct (iso_to_date _); [|done]. cbn.
  destruct (date_le _ _); by eexists.
Qed.

Lemma for_each_filtered cutoff (f : item -> bool) items :
  forall acc r acc',
  for_each (candidate_step cutoff) items acc = Ok (Continue r) ->
  exists r',
    for_each (candidate_step cutoff) (List.filter f items) acc'
    = Ok (Continue r').
Proof.
  induction items as [|it items IH]; intros acc r acc'; cbn [for_each List.filter].
  - by eexists.
  - destruct (candidate_step cutoff it acc) as [[c|[]]|e] eqn:Hstep; [|done].
    intros H. destruct (f it); [|by eapply IH].
    cbn [for_each].
    destruct (candidate_step_any_acc _ _ _ _ acc' Hstep) as (c' & ->).
    by eapply IH.
Qed.

Lemma candidates_of_inv cutoff items candidates :
  candidates_of cutoff items = Ok candidates ->
  for_each (candidate_step cutoff) items [] = Ok (Continue candidates).
Proof.
  unfold candidates_of.
  destruct (for_each _ _ _) as [[c|[]]|e]; [|done]. by intros [= ->].
Qed.

(** Once the candidates of a list of entries are removed from it, the rest
    has no candidates. *)
Lemma candidates_of_rest cutoff items candidates :
  candidates_of cutoff items = Ok candidates ->
  candidates_of cutoff (List.filter (keeps (map fst candidates)) items) = Ok [].
Proof.
  intros H%candidates_of_inv.
  destruct (for_each_filtered cutoff (keeps (map fst candidates)) items
              [] candidates [] H) as (c2 & Hc2).
  unfold candidates_of. rewrite Hc2. f_equal.
  destruct c2 as [|[u d] c2]; [done|]. exfalso.
  pose proof (proj1 (for_each_candidates _ _ _ _ Hc2 u d) ltac:(by left))
    as [[]|(it & T & Hin & HT & Hu & Hne & Hd & Hle)].
  apply filter_In in Hin as [Hin Hkeep].
  assert (Hc : In (u, d) candidates).
  { apply (for_each_candidates _ _ _ _ H u d). right. by exists it, T. }
  unfold keeps in Hkeep. rewrite Hu in Hkeep. apply negb_true_iff in Hkeep.
  assert (existsb (String.eqb u) (map fst candidates) = true); [|congruence].
  apply existsb_exists. exists u. split; [|apply String.eqb_refl].
  apply in_map_iff. by exists (u, d).
Qed.

Lemma move_candidates_grows access_token user_id sname src candidates :
  preserves grows (move_candidates access_token user_id sname src candidates).
Proof.
  apply (preserves_move_candidates grows (fun _ => True));
    eauto using grows_refl, grows_trans, exchange_grows.
Qed.

Lemma move_candidates_static access_token user_id sname src candidates :
  preserves static (move_candidates access_token user_id sname src candidates).
Proof.
  apply (preserves_move_candidates static (fun _ => True));
    eauto using static_refl, static_trans, exchange_static.
Qed.

(** The entries a run that ends normally leaves in the source. *)
Lemma move_candidates_rest access_token user_id sname src candidates w w' :
  move_candidates access_token user_id sname src candidates w = (Ok tt, w') ->
  source_apart src w ->
  items_of w' src = List.filter (keeps (map fst candidates)) <$> items_of w src.
Proof.
  intros H Ha. unfold move_candidates in H. destruct candidates as [|c cs].
  { injection H as <-. destruct (items_of w src); [|done]. cbn.
    by rewrite filter_keeps_nil. }
  set (candidates := c :: cs) in *.
  run_bind H as stamp w1 Hstamp; [|done]. injection Hstamp as <- <-.
  run_bind H as total w2 Hmove; [|done].
  pose proof (group_tracks_grouped candidates) as G.
  assert (Hperm :
    map fst (concat (map snd (group_tracks_by_year_suffix candidates)))
    ≡ₚ map fst candidates) by apply fmap_Permutation, G.
  apply move_buckets_moved in Hmove as (_ & Hitems & _); [|done].
  apply update_description_run in H as (p2 & Hp2 & Hpls & _).
  unfold items_of at 1. rewrite Hpls.
  rewrite list_lookup_insert_eq by (by eapply lookup_lt_Some). cbn.
  unfold items_of in Hitems at 1. rewrite Hp2 in Hitems. cbn in Hitems.
  rewrite Hitems. destruct (items_of w src) as [items|]; [|done].
  cbn. f_equal. by apply filter_ext_keeps.
Qed.

(** X13. After a run that ended normally, a second run on the same day
    finds nothing to move: whatever the outcome of its requests, it only
    reads and changes no playlist, and when none of its requests fails it
    ends normally. *)
Theorem rerun_moves_nothing environ w w1 :
  drawer_like (environ_item environ "JUNK_MOVER_SOURCE_PLAYLIST") = false ->
  main environ w = (Ok tt, w1) ->
  (forall r w2,
     main environ w1 = (r, w2) ->
     w_playlists w2 = w_playlists w1
     /\ logged (fun req => is_read req = true) w1 w2)
  /\ (fault_free w1 -> fst (main environ w1) = Ok tt).
Proof.
  intros Hname H. unfold main in H.
  run_bind H as cfg w00 Hcfg; [|done]. injection Hcfg as Hcfg <-.
  run_bind H as x w0 Hfind; [|done].
  destruct x as [[[access_token user_id] src] candidates].
  pose proof (find_candidates_sound _ _ _ _ _ _ _ Hfind)
    as (p & cutoff & Hm & Hcut & Hc).
  pose proof (find_candidates_quiet _ _ _ _ Hfind) as Hq0. unfold quiet in Hq0.
  pose proof (first_match_Some _ _ _ _ _ Hm) as (Hp & Hn & _).
  assert (Ha : source_apart src w0).
  { exists p. rewrite Hq0. split; [done|].
    by rewrite Hn, (load_config_source _ _ Hcfg). }
  pose proof (move_candidates_rest _ _ _ _ _ _ _ H Ha) as Hitems.
  assert (Hg : grows w w1).
  { eapply grows_trans; [|by eapply move_candidates_grows].
    eapply (preserves_find_candidates grows (fun _ => True));
      eauto using grows_refl, grows_trans, exchange_grows. }
  assert (Hs : static w w1).
  { eapply static_trans; [by eapply find_candidates_static|].
    by eapply move_candidates_static. }
  destruct Hs as (Hu & _ & Htoday & _).
  destruct (first_match_grows _ _ _ _ _ _ Hg Hm) as (p1 & Hm1).
  pose proof (first_match_Some _ _ _ _ _ Hm1) as (Hp1 & _).
  assert (Hrest : candidates_of cutoff (pl_items p1) = Ok []).
  { unfold items_of in Hitems. rewrite Hp1, Hq0, Hp in Hitems. cbn in Hitems.
    injection Hitems as ->. by apply candidates_of_rest. }
  assert (Hfound : found cfg w1 = Ok (w_token w1, w_user w1, src, [])).
  { unfold found. rewrite Hu, Hm1, Htoday, Hcut. cbn. by rewrite Hrest. }
  split.
  - intros r w2 H2. unfold main in H2. unfold bind at 1, lift in H2.
    rewrite Hcfg in H2. run_bind H2 as x w3 Hfind2.
    + destruct x as [[[tok2 uid2] src2] c2].
      pose proof (find_candidates_sound _ _ _ _ _ _ _ Hfind2)
        as (p2 & cutoff2 & Hm2 & Hcut2 & Hc2).
      rewrite Hu, Hm1 in Hm2. injection Hm2 as <- <-.
      rewrite Htoday, Hcut in Hcut2. injection Hcut2 as <-.
      rewrite Hrest in Hc2. injection Hc2 as <-. injection H2 as <- <-.
      split; [by eapply find_candidates_quiet|by eapply find_candidates_reads].
    + split; [by eapply find_candidates_quiet|by eapply find_candidates_reads].
  - intros Hf. unfold main. unfold bind at 1, lift. rewrite Hcfg.
    destruct (find_candidates_live cfg w1 Hf) as (w3 & Hfind2 & _).
    rewrite Hfound in Hfind2. by rewrite (bind_ok _ _ _ _ _ Hfind2).
Qed.

Lemma ensure_reuses_or_creates_witness :
  exists w',
    w_playlists w'
    = Sample.library ++ [mkplaylist "23 Junk Drawer" "me" "first" false []].
Proof.
  eexists.
  destruct (proj2 (ensure_reuses_or_creates "token" "me" "23 Junk Drawer"
                     "first" Moved.start (Ok 2%nat) _
                     ltac:(vm_compute; reflexivity)))
    as [[_ [e He]]|[_ H]]; [discriminate He|exact H].
Defined.

Lemma batches_in_order_witness :
  exists k : nat,
    w_playlists Sample.w3
    = add_items (w_stamp Sample.w2) 3 (take (k * 100) (map fst Sample.tracks24))
        (w_playlists Sample.w2)
    /\ w_log Sample.w3
       = w_log Sample.w2
         ++ batch_log (AddTracks 3) (map fst Sample.tracks24) k true
    /\ (k * 100 < length (map fst Sample.tracks24))%nat.
Proof.
  apply (proj1 (batches_in_order "token" 3%nat (map fst Sample.tracks24)
                  Sample.w2 (Err (RuntimeError "boom")) Sample.w3)).
  vm_compute. reflexivity.
Defined.

Lemma rerun_moves_nothing_witness :
  fst (main Sample.environ Moved.finish) = Ok tt.
Proof.
  apply (proj2 (rerun_moves_nothing Sample.environ Moved.start Moved.finish
                  ltac:(vm_compute; reflexivity) ltac:(vm_compute; reflexivity))).
  reflexivity.
Defined.

(** ** Loading [.env] *)

Lemma load_line_assignment environ line :
  load_line environ line
  = match assignment line with
    | Some (key, value) => setdefault environ key value
    | None => Some environ
    end.
Proof.
  unfold load_line, assignment.
  destruct (_ || _ || _) eqn:Hskip; [done|].
  destruct (split_eq line) as [[key value]|] eqn:Hsplit; [done|].
  exfalso. apply orb_false_iff in Hskip as [_ Hc].
  apply negb_false_iff in Hc. clear -Hc Hsplit.
  induction line as [|c line IH]; [done|].
  cbn [split_eq Py.contains_char] in *.
  destruct (Ascii.eqb c "=") eqn:Hceq; [done|].
  cbn [orb] in Hc.
  destruct (split_eq line) as [[k v]|]; [done|]. by apply IH.
Qed.

Lemma setdefault_lookup environ key value environ' k :
  setdefault environ key value = Some environ' ->
  environ' !! k
  = match environ !! k with
    | Some v => Some v
    | None => if String.eqb key k then Some value else None
    end.
Proof.
  unfold setdefault. destruct (environ !! key) as [v0|] eqn:Hkey.
  - intros [= <-]. destruct (environ !! k) as [v|] eqn:Hk; [done|].
    destruct (String.eqb_spec key k) as [->|]; [congruence|done].
  - destruct (_ || _); [done|]. intros [= <-].
    destruct (String.eqb_spec key k) as [->|Hne].
    + by rewrite lookup_insert_eq, Hkey.
    + rewrite lookup_insert_ne by done. by destruct (environ !! k).
Qed.

Lemma load_lines_lookup lines :
  forall environ environ' k,
  load_lines lines environ = Some environ' ->
  environ' !! k
  = match environ !! k with
    | Some v => Some v
    | None => first_assignment k lines
    end.
Proof.
  induction lines as [|line rest IH]; intros environ environ' k;
    cbn [load_lines first_assignment].
  - intros [= <-]. by destruct (environ !! k).
  - rewrite load_line_assignment.
    destruct (assignment line) as [[key value]|]; cbn.
    + destruct (setdefault environ key value) as [e1|] eqn:Hset; [|done]. cbn.
      intros H. rewrite (IH _ _ k H), (setdefault_lookup _ _ _ _ k Hset).
      destruct (environ !! k); [done|]. by destruct (String.eqb key k).
    + apply IH.
Qed.

Lemma load_lines_accepted lines :
  forall environ,
  (forall line key value,
     In line lines -> assignment line = Some (key, value) ->
     accepted key value = true) ->
  exists environ', load_lines lines environ = Some environ'.
Proof.
  induction lines as [|line rest IH]; intros environ Hall; cbn [load_lines].
  - by eexists.
  - rewrite load_line_assignment.
    destruct (assignment line) as [[key value]|] eqn:Ha; cbn.
    + pose proof (Hall line key value ltac:(by left) Ha) as Hacc.
      unfold setdefault. unfold accepted in Hacc.
      apply negb_true_iff in Hacc. rewrite Hacc.
      destruct (environ !! key); cbn; apply IH; intros; eapply Hall; eauto;
        by right.
    + apply IH. intros. eapply Hall; eauto. by right.
Qed.

(** X14. Loading [.env] never changes a variable that is already set: each
    variable keeps its value from the environment, and one that is not set
    there takes the value of the first line of the file that assigns it.
    Without a file nothing changes; and the load goes through whenever
    every assignment of the file has a name and a value that [os.environ]
    accepts. *)
Theorem dotenv_fills_gaps env_file environ :
  (forall environ' key,
     load_env_from_root env_file environ = Some environ' ->
     environ' !! key
     = match environ !! key with
       | Some v => Some v
       | None => first_assignment key (default [] env_file)
       end)
  /\ (env_file = None -> load_env_from_root env_file environ = Some environ)
  /\ ((forall line key value,
         In line (default [] env_file) -> assignment line = Some (key, value) ->
         accepted key value = true) ->
      exists environ', load_env_from_root env_file environ = Some environ').
Proof.
  split; [|split].
  - intros environ' key. destruct env_file as [lines|]; cbn.
    + apply load_lines_lookup.
    + intros [= <-]. by destruct (environ !! key).
  - by intros ->.
  - destruct env_file as [lines|]; cbn; [apply load_lines_accepted|].
    by eexists.
Qed.

Lemma split_eq_app name value :
  Py.contains_char name "=" = false ->
  split_eq (name +:+ String "=" value) = Some (name, value).
Proof.
  induction name as [|c name IH]; intros Hc; [done|].
  cbn [Py.contains_char] in Hc. apply orb_false_iff in Hc as [Hceq Hc].
  change (split_eq (String c (name +:+ String "=" value))
          = Some (String c name, value)).
  cbn [split_eq]. rewrite Hceq, (IH Hc). done.
Qed.

Lemma contains_char_app name c rest :
  Py.contains_char (name +:+ String c rest) c = true.
Proof.
  induction name as [|c' name IH].
  - change (Py.contains_char (String c rest) c = true).
    cbn [Py.contains_char]. by rewrite Ascii.eqb_refl.
  - change (Py.contains_char (String c' (name +:+ String c rest)) c = true).
    cbn [Py.contains_char]. rewrite IH. apply orb_true_r.
Qed.

Lemma startswith_hash_lstrip_app name value :
  startswith_hash (lstrip (name +:+ String "=" value))
  = startswith_hash (lstrip name).
Proof.
  unfold lstrip. induction name as [|c name IH]; [done|].
  change (startswith_hash
            (Py.lstrip_by Py.isspace (String c (name +:+ String "=" value)))
          = startswith_hash (Py.lstrip_by Py.isspace (String c name))).
  cbn [Py.lstrip_by]. by destruct (Py.isspace c).
Qed.

Lemma assignment_app name value :
  Py.contains_char name "=" = false ->
  startswith_hash (lstrip name) = false ->
  assignment (name +:+ String "=" value) = Some (strip name, strip value).
Proof.
  intros Hname Hhash. unfold assignment.
  rewrite startswith_hash_lstrip_app, Hhash, contains_char_app, split_eq_app
    by done.
  by destruct name.
Qed.

(** X15. A line "name=value" whose name part holds no "=" and does not
    start, after leading blanks, with "#", assigns the text before the
    first "=" to the text after it, both without surrounding blanks:
    further "=" signs and quotes in the value are kept as they are. *)
Theorem dotenv_line_format name value :
  Py.contains_char name "=" = false ->
  startswith_hash (lstrip name) = false ->
  assignment (name +:+ String "=" value) = Some (strip name, strip value).
Proof. apply assignment_app. Qed.

Lemma setdefault_keeps_unset environ key value environ' :
  setdefault environ key value = Some environ' ->
  environ !! EmptyString = None -> environ' !! EmptyString = None.
Proof.
  unfold setdefault. destruct (environ !! key) eqn:Hk; [by intros [= <-]|].
  destruct (has_nul key || has_nul value); [done|]. cbn [orb].
  destruct (String.eqb_spec key EmptyString) as [->|Hne]; [done|].
  destruct (Py.contains_char key "="); [done|]. intros [= <-] He.
  by rewrite lookup_insert_ne.
Qed.

(** X16. A line that is not skipped and whose name part is blank (as in
    "=value") makes [os.environ] refuse the assignment, so that loading
    [.env] ends the script with an exception, whatever the other lines
    are. *)
Theorem dotenv_blank_name lines environ line value :
  In line lines -> assignment line = Some (EmptyString, value) ->
  environ !! EmptyString = None ->
  load_env_from_root (Some lines) environ = None.
Proof.
  cbn [load_env_from_root]. revert environ.
  induction lines as [|l rest IH]; intros environ Hin Ha He; [done|].
  cbn [load_lines]. rewrite load_line_assignment.
  destruct Hin as [->|Hin].
  - rewrite Ha. unfold setdefault. rewrite He.
    by destruct (has_nul _ || has_nul _).
  - destruct (assignment l) as [[k v]|]; cbn; [|by apply IH].
    destruct (setdefault environ k v) as [e1|] eqn:Hset; [|done]. cbn.
    apply IH; [done|done|]. by eapply setdefault_keeps_unset.
Qed.

(** X17. A required variable that is set but empty in the environment
    hides whatever [.env] assigns to it: after loading, validation still
    reports it missing and the run stops there, before any request. *)
Theorem empty_variable_hides_dotenv env_file environ environ' key w :
  In key required_keys -> environ !! key = Some EmptyString ->
  load_env_from_root env_file environ = Some environ' ->
  In key (missing_keys required_keys environ')
  /\ main environ' w
     = (Err (ValueError ("Missing environment variables: "
                         +:+ Py.join ", " (missing_keys required_keys environ')
                         +:+ ". Fill them in .env.")), w).
Proof.
  intros Hreq Hempty Hload.
  assert (Hkey : environ' !! key = Some EmptyString).
  { destruct env_file as [lines|]; cbn in Hload.
    - by rewrite (load_lines_lookup _ _ _ key Hload), Hempty.
    - by injection Hload as <-. }
  assert (Hin : In key (missing_keys required_keys environ')).
  { apply missing_keys_spec. by rewrite Hkey. }
  split; [done|]. apply main_config_error. unfold load_config, require_env.
  by destruct (missing_keys required_keys environ').
Qed.

Lemma dotenv_line_format_witness :
  assignment "KEY = a=b " = Some ("KEY", "a=b")%string.
Proof.
  apply (dotenv_line_format "KEY " " a=b "); reflexivity.
Defined.

Lemma dotenv_blank_name_witness :
  load_env_from_root (Some ["A=1"; " =x"]%string) ∅ = None.
Proof.
  apply (dotenv_blank_name ["A=1"; " =x"]%string ∅ " =x" "x").
  - right. left. reflexivity.
  - reflexivity.
  - reflexivity.
Defined.

Lemma empty_variable_hides_dotenv_witness :
  In "JUNK_MOVER_REFRESH_TOKEN"%string
     (missing_keys required_keys
        (<["JUNK_MOVER_REFRESH_TOKEN" := EmptyString]> Sample.environ)).
Proof.
  apply (proj1 (empty_variable_hides_dotenv
                  (Some ["JUNK_MOVER_REFRESH_TOKEN=abc"%string])
                  (<["JUNK_MOVER_REFRESH_TOKEN" := EmptyString]> Sample.environ)
                  (<["JUNK_MOVER_REFRESH_TOKEN" := EmptyString]> Sample.environ)
                  "JUNK_MOVER_REFRESH_TOKEN" Moved.start
                  ltac:(vm_compute; tauto) ltac:(vm_compute; reflexivity)
                  ltac:(vm_compute; reflexivity))).
Defined.

(** ** Timestamps in the service's format *)

Lemma digit_val_digit_char k :
  0 <= k <= 9 -> Py.digit_val (digit_char k) = Some k.
Proof.
  intros Hk. rewrite <- (Z2Nat.id k) at 2 by lia.
  assert (Hn : (Z.to_nat k < 10)%nat) by lia.
  unfold digit_char. generalize dependent (Z.to_nat k). clear. intros n Hn.
  do 10 (destruct n as [|n]; [reflexivity|]). lia.
Qed.

Lemma digit_char_not_Z k :
  0 <= k <= 9 -> Py.contains_char "Z" (digit_char k) = false.
Proof.
  intros Hk. assert (Hn : (Z.to_nat k < 10)%nat) by lia.
  unfold digit_char. generalize dependent (Z.to_nat k). clear. intros n Hn.
  do 10 (destruct n as [|n]; [reflexivity|]). lia.
Qed.

Lemma take_digits_two n acc rest :
  0 <= n < 100 ->
  Iso.take_digits 2 acc (two_digits n +:+ rest) = Some (100 * acc + n, rest).
Proof.
  intros Hn. unfold two_digits.
  change (Iso.take_digits 2 acc
            (String (digit_char (n / 10)) (String (digit_char (n mod 10)) rest))
          = Some (100 * acc + n, rest)).
  cbn [Iso.take_digits].
  rewrite !digit_val_digit_char
    by (Z.to_euclidean_division_equations; lia).
  do 2 f_equal. Z.to_euclidean_division_equations. lia.
Qed.

Lemma take_digits_four n rest :
  0 <= n < 10000 ->
  Iso.take_digits 4 0 (four_digits n +:+ rest) = Some (n, rest).
Proof.
  intros Hn. unfold four_digits, two_digits.
  change (Iso.take_digits 4 0
            (String (digit_char (n / 1000))
               (String (digit_char (n / 100 mod 10))
                  (String (digit_char (n mod 100 / 10))
                     (String (digit_char (n mod 100 mod 10)) rest))))
          = Some (n, rest)).
  cbn [Iso.take_digits].
  rewrite !digit_val_digit_char
    by (Z.to_euclidean_division_equations; lia).
  do 2 f_equal. Z.to_euclidean_division_equations. lia.
Qed.

Lemma string_app_char (c : ascii) (s : string) :
  String c EmptyString +:+ s = String c s.
Proof. reflexivity. Qed.

Lemma rstrip_app chars a b :
  Py.rstrip chars b <> EmptyString ->
  Py.rstrip chars (a +:+ b) = a +:+ Py.rstrip chars b.
Proof.
  intros Hb. induction a as [|c a IH]; [done|].
  change (Py.rstrip chars (String c (a +:+ b))
          = String c (a +:+ Py.rstrip chars b)).
  cbn [Py.rstrip]. rewrite IH.
  destruct (a +:+ Py.rstrip chars b) eqn:He; [|done].
  destruct a; [|done]. by destruct Hb.
Qed.

Lemma rstrip_app_ne chars a b :
  Py.rstrip chars b <> EmptyString ->
  Py.rstrip chars (a +:+ b) <> EmptyString.
Proof.
  intros Hb. rewrite rstrip_app by done.
  destruct a; [done|]. discriminate.
Qed.

Lemma rstrip_seconds ss :
  0 <= ss < 100 ->
  Py.rstrip "Z" (two_digits ss +:+ "Z") = two_digits ss.
Proof.
  intros Hs. unfold two_digits.
  change (Py.rstrip "Z"
            (String (digit_char (ss / 10))
               (String (digit_char (ss mod 10)) "Z"))
          = String (digit_char (ss / 10))
              (String (digit_char (ss mod 10)) EmptyString)).
  cbn [Py.rstrip].
  change (Py.contains_char "Z" "Z"%char) with true. cbv iota.
  by rewrite digit_char_not_Z by (Z.to_euclidean_division_equations; lia).
Qed.

Lemma digit_char_not_sign k :
  0 <= k <= 9 ->
  Ascii.eqb (digit_char k) "+" || Ascii.eqb (digit_char k) "-" = false.
Proof.
  intros Hk. assert (Hn : (Z.to_nat k < 10)%nat) by lia.
  unfold digit_char. generalize dependent (Z.to_nat k). clear. intros n Hn.
  do 10 (destruct n as [|n]; [reflexivity|]). lia.
Qed.

Lemma split_offset_two n rest :
  0 <= n < 100 ->
  Iso.split_offset (two_digits n +:+ rest)
  = let '(t, o) := Iso.split_offset rest in (two_digits n +:+ t, o).
Proof.
  intros Hn. unfold two_digits.
  change (Iso.split_offset
            (String (digit_char (n / 10)) (String (digit_char (n mod 10)) rest))
          = let '(t, o) := Iso.split_offset rest in
            (String (digit_char (n / 10)) (String (digit_char (n mod 10)) t), o)).
  cbn [Iso.split_offset].
  rewrite !digit_char_not_sign by (Z.to_euclidean_division_equations; lia).
  by destruct (Iso.split_offset rest).
Qed.

Lemma split_offset_time hh mm ss :
  0 <= hh < 100 -> 0 <= mm < 100 -> 0 <= ss < 100 ->
  Iso.split_offset
    (two_digits hh +:+ String ":" (two_digits mm +:+ String ":"
       (two_digits ss +:+ EmptyString)))
  = (two_digits hh +:+ String ":" (two_digits mm +:+ String ":"
       (two_digits ss +:+ EmptyString)), None).
Proof.
  intros Hh Hm Hs.
  rewrite split_offset_two by done. cbn [Iso.split_offset].
  change (Ascii.eqb ":" "+" || Ascii.eqb ":" "-") with false. cbv iota.
  rewrite split_offset_two by done. cbn [Iso.split_offset].
  change (Ascii.eqb ":" "+" || Ascii.eqb ":" "-") with false. cbv iota.
  rewrite split_offset_two by done. cbn [Iso.split_offset].
  done.
Qed.

(** X18. A timestamp in the service's format "YYYY-MM-DDTHH:MM:SSZ" that
    names a calendar date and a time of day is read as that date: the
    trailing "Z" and the time are dropped. *)
Theorem iso_to_date_spotify d hh mm ss :
  valid_date d -> 0 <= hh < 24 -> 0 <= mm < 60 -> 0 <= ss < 60 ->
  iso_to_date (spotify_timestamp d hh mm ss) = Ok d.
Proof.
  intros Hd Hh Hm Hs. unfold iso_to_date, spotify_timestamp. cbv zeta.
  assert (Hclean :
    Py.rstrip "Z"
      (four_digits (year d) +:+ "-" +:+ two_digits (month d) +:+ "-"
       +:+ two_digits (day d) +:+ "T" +:+ two_digits hh +:+ ":"
       +:+ two_digits mm +:+ ":" +:+ two_digits ss +:+ "Z")
    = four_digits (year d) +:+ "-" +:+ two_digits (month d) +:+ "-"
      +:+ two_digits (day d) +:+ "T" +:+ two_digits hh +:+ ":"
      +:+ two_digits mm +:+ ":" +:+ two_digits ss).
  { assert (Hne : Py.rstrip "Z" (two_digits ss +:+ "Z") <> EmptyString)
      by (by rewrite rstrip_seconds by lia).
    repeat (rewrite rstrip_app;
            [|by repeat first [exact Hne | apply rstrip_app_ne]]).
    by rewrite rstrip_seconds by lia. }
  rewrite Hclean. clear Hclean.
  pose proof Hd as (Hy & Hmo & Hda).
  assert (Hdim : days_in_month (year d) (month d) <= 31).
  { unfold days_in_month, DAYS_IN_MONTH. repeat case_match; lia. }
  unfold MINYEAR, MAXYEAR in Hy.
  assert (Hss : two_digits ss = two_digits ss +:+ EmptyString) by reflexivity.
  rewrite Hss. clear Hss.
  unfold Iso.fromisoformat, Iso.parse_date.
  rewrite !(string_app_char "-"), !(string_app_char ":"), !(string_app_char "T").
  rewrite take_digits_four by lia. cbn [mbind option_bind].
  change (Iso.expect "-" (String "-" ?s)) with (Some s). cbn [mbind option_bind].
  rewrite take_digits_two by lia. cbn [mbind option_bind].
  change (Iso.expect "-" (String "-" ?s)) with (Some s). cbn [mbind option_bind].
  rewrite take_digits_two by lia. cbn [mbind option_bind].
  rewrite !Z.mul_0_r, !Z.add_0_l.
  assert (Hvalid : valid_dateb (mkdate (year d) (month d) (day d)) = true)
    by (apply valid_dateb_spec; by destruct d).
  rewrite Hvalid. cbn [mbind option_bind].
  unfold Iso.parse_time. rewrite split_offset_time by lia.
  unfold Iso.parse_hh_mm_ss_ff.
  rewrite take_digits_two by lia. cbn [mbind option_bind].
  change (Iso.expect ":" (String ":" ?s)) with (Some s). cbn [mbind option_bind].
  rewrite take_digits_two by lia. cbn [mbind option_bind].
  change (Iso.expect ":" (String ":" ?s)) with (Some s). cbn [mbind option_bind].
  rewrite take_digits_two by lia. cbn [mbind option_bind Iso.parse_fraction].
  rewrite !Z.mul_0_r, !Z.add_0_l.
  destruct (Z.ltb_spec hh 24); [|lia]. destruct (Z.ltb_spec mm 60); [|lia].
  destruct (Z.ltb_spec ss 60); [|lia]. cbn. by destruct d.
Qed.

Lemma iso_to_date_spotify_witness :
  iso_to_date "2023-01-02T00:00:00Z" = Ok (mkdate 2023 1 2).
Proof.
  apply (iso_to_date_spotify (mkdate 2023 1 2) 0 0 0).
  - apply valid_dateb_spec. reflexivity.
  - lia.
  - lia.
  - lia.
Defined.


(** ** The cutoff, counted in days *)

Lemma days_before_year_succ y :
  1 <= y ->
  days_before_year (y + 1)
  = days_before_year y + 365 + (if is_leap y then 1 else 0).
Proof.
  intros Hy. unfold days_before_year, is_leap. cbv zeta.
  replace (y + 1 - 1) with y by lia.
  destruct (Z.eqb_spec (y mod 4) 0), (Z.eqb_spec (y mod 100) 0),
           (Z.eqb_spec (y mod 400) 0); cbn [andb orb negb];
    Z.to_euclidean_division_equations; lia.
Qed.

Lemma days_before_year_mono y1 y2 :
  1 <= y1 <= y2 -> days_before_year y1 <= days_before_year y2.
Proof.
  intros Hy. unfold days_before_year. cbv zeta.
  Z.to_euclidean_division_equations; lia.
Qed.

Lemma days_before_month_succ y m :
  1 <= m <= 11 ->
  days_before_month y (m + 1) = days_before_month y m + days_in_month y m.
Proof.
  intros Hm. unfold days_before_month, days_in_month.
  destruct (is_leap y); assert (Hc : m = 1 \/ m = 2 \/ m = 3 \/ m = 4 \/ m = 5
    \/ m = 6 \/ m = 7 \/ m = 8 \/ m = 9 \/ m = 10 \/ m = 11) by lia;
    repeat (destruct Hc as [-> | Hc]); try subst m; reflexivity.
Qed.

Lemma days_in_month_bounds y m :
  1 <= m <= 12 -> 28 <= days_in_month y m <= 31.
Proof.
  intros Hm. unfold days_in_month.
  destruct (is_leap y); assert (Hc : m = 1 \/ m = 2 \/ m = 3 \/ m = 4 \/ m = 5
    \/ m = 6 \/ m = 7 \/ m = 8 \/ m = 9 \/ m = 10 \/ m = 11 \/ m = 12) by lia;
    repeat (destruct Hc as [-> | Hc]); try subst m; cbn; lia.
Qed.

Lemma days_before_month_mono y m1 m2 :
  1 <= m1 -> m1 < m2 <= 12 ->
  days_before_month y m1 + days_in_month y m1 <= days_before_month y m2.
Proof.
  intros H1 H2. unfold days_before_month, days_in_month.
  assert (Hc1 : m1 = 1 \/ m1 = 2 \/ m1 = 3 \/ m1 = 4 \/ m1 = 5 \/ m1 = 6
    \/ m1 = 7 \/ m1 = 8 \/ m1 = 9 \/ m1 = 10 \/ m1 = 11) by lia.
  assert (Hc2 : m2 = 2 \/ m2 = 3 \/ m2 = 4 \/ m2 = 5 \/ m2 = 6
    \/ m2 = 7 \/ m2 = 8 \/ m2 = 9 \/ m2 = 10 \/ m2 = 11 \/ m2 = 12) by lia.
  destruct (is_leap y);
    repeat (destruct Hc1 as [-> | Hc1]); try subst m1;
    repeat (destruct Hc2 as [-> | Hc2]); try subst m2;
    cbn; lia.
Qed.

Lemma days_before_month_range y m :
  1 <= m <= 12 ->
  0 <= days_before_month y m
  /\ days_before_month y m + days_in_month y m
     <= 365 + (if is_leap y then 1 else 0).
Proof.
  intros Hm. unfold days_before_month, days_in_month.
  destruct (is_leap y); assert (Hc : m = 1 \/ m = 2 \/ m = 3 \/ m = 4 \/ m = 5
    \/ m = 6 \/ m = 7 \/ m = 8 \/ m = 9 \/ m = 10 \/ m = 11 \/ m = 12) by lia;
    repeat (destruct Hc as [-> | Hc]); try subst m; cbn; lia.
Qed.

(** The order of dates is the order of their ordinals. *)
Lemma date_le_toordinal a b :
  valid_date a -> valid_date b ->
  date_le a b = true <-> toordinal a <= toordinal b.
Proof.
  destruct a as [ya ma da], b as [yb mb db].
  unfold valid_date, toordinal, ymd2ord, date_le, MINYEAR, MAXYEAR.
  cbn [year month day]. intros (Hya & Hma & Hda) (Hyb & Hmb & Hdb).
  pose proof (days_before_month_range ya ma Hma) as (Ha0 & Ha1).
  pose proof (days_before_month_range yb mb Hmb) as (Hb0 & Hb1).
  destruct (Z.eqb_spec ya yb) as [->|Hy].
  - destruct (Z.eqb_spec ma mb) as [->|Hm].
    + rewrite Z.leb_le. lia.
    + rewrite Z.ltb_lt. split; intros H.
      * pose proof (days_before_month_mono yb ma mb ltac:(lia) ltac:(lia)). lia.
      * destruct (Z.lt_ge_cases ma mb) as [|Hge]; [done|].
        pose proof (days_before_month_mono yb mb ma ltac:(lia) ltac:(lia)). lia.
  - rewrite Z.ltb_lt. split; intros H.
    + pose proof (days_before_year_succ ya ltac:(lia)).
      pose proof (days_before_year_mono (ya + 1) yb ltac:(lia)). lia.
    + destruct (Z.lt_ge_cases ya yb) as [|Hge]; [done|].
      pose proof (days_before_year_succ yb ltac:(lia)).
      pose proof (days_before_year_mono (yb + 1) ya ltac:(lia)). lia.
Qed.

(** Every date but the last has a next day. *)
Lemma next_day d :
  valid_date d -> toordinal d < MAXORDINAL ->
  exists d', valid_date d' /\ toordinal d' = toordinal d + 1.
Proof.
  destruct d as [y m dd].
  unfold valid_date, toordinal, ymd2ord, MINYEAR, MAXYEAR, MAXORDINAL.
  cbn [year month day]. intros (Hy & Hm & Hd) Hlt.
  destruct (Z.lt_ge_cases dd (days_in_month y m)) as [Hin|Hlast].
  { exists (mkdate y m (dd + 1)). cbn [year month day]. lia. }
  assert (dd = days_in_month y m) as -> by lia.
  destruct (Z.lt_ge_cases m 12) as [Hmid|Hdec].
  { exists (mkdate y (m + 1) 1). cbn [year month day].
    pose proof (days_in_month_bounds y (m + 1) ltac:(lia)).
    rewrite days_before_month_succ by lia. lia. }
  assert (m = 12) as -> by lia.
  assert (Hend : days_before_month y 12 + days_in_month y 12
                 = 365 + (if is_leap y then 1 else 0)).
  { unfold days_before_month, days_in_month. by destruct (is_leap y). }
  pose proof (days_before_year_succ y ltac:(lia)) as Hsucc.
  assert (Hy' : y + 1 <= 9999).
  { destruct (Z.le_gt_cases (y + 1) 9999) as [|Hgt]; [done|].
    assert (y = 9999) as -> by lia. exfalso. revert Hlt.
    vm_compute. discriminate. }
  exists (mkdate (y + 1) 1 1). cbn [year month day].
  assert (days_before_month (y + 1) 1 = 0)
    by (unfold days_before_month; by destruct (is_leap (y + 1))).
  pose proof (days_in_month_bounds (y + 1) 1 ltac:(lia)). lia.
Qed.

Lemma ordinal_reached k :
  0 <= k -> 1 + k <= MAXORDINAL ->
  exists d, valid_date d /\ toordinal d = 1 + k.
Proof.
  intros Hk. revert k Hk. apply (natlike_ind
    (fun k => 1 + k <= MAXORDINAL -> exists d, valid_date d /\ toordinal d = 1 + k)).
  - intros _. exists (mkdate 1 1 1). split; [|reflexivity].
    apply valid_dateb_spec. reflexivity.
  - intros k Hk IH Hle. destruct IH as (d & Hd & Ho); [lia|].
    destruct (next_day d Hd ltac:(lia)) as (d' & Hd' & Ho').
    exists d'. split; [done|]. lia.
Qed.

(** [fromordinal] answers with the date that has the ordinal. *)
Lemma toordinal_fromordinal o :
  0 < o <= MAXORDINAL ->
  valid_date (fromordinal o) /\ toordinal (fromordinal o) = o.
Proof.
  intros Ho. destruct (ordinal_reached (o - 1) ltac:(lia) ltac:(lia))
    as (d & Hd & Hod).
  replace o with (toordinal d) by lia.
  by rewrite fromordinal_toordinal.
Qed.

(** X19. The cutoff is the date [n] days before today, and an entry's date
    is on or before the cutoff exactly when at least [n] days lie between
    it and today. *)
Theorem cutoff_in_days today n cutoff :
  valid_date today ->
  date_sub_days today n = Ok cutoff ->
  valid_date cutoff
  /\ toordinal cutoff = toordinal today - n
  /\ forall d, valid_date d ->
       (date_le d cutoff = true <-> n <= toordinal today - toordinal d).
Proof.
  intros Htoday H. unfold date_sub_days in H.
  destruct (Z.abs n >? 999999999); [done|].
  destruct (Z.ltb_spec 0 (toordinal today + - n)); [|done].
  destruct (Z.leb_spec (toordinal today + - n) MAXORDINAL); [|done].
  cbn in H. injection H as <-.
  destruct (toordinal_fromordinal (toordinal today + - n) ltac:(lia))
    as [Hvalid Hord].
  split; [done|]. split; [lia|]. intros d Hd.
  rewrite date_le_toordinal by done. lia.
Qed.

Lemma cutoff_in_days_witness :
  toordinal (mkdate 2025 10 30) = toordinal (mkdate 2025 11 29) - 30.
Proof.
  apply (proj1 (proj2 (cutoff_in_days (mkdate 2025 11 29) 30 (mkdate 2025 10 30)
                         ltac:(apply valid_dateb_spec; reflexivity)
                         ltac:(vm_compute; reflexivity)))).
Defined.

(** ** Storing the refresh token *)

Lemma replace_first_Some new lines updated :
  replace_first new lines = Some updated ->
  exists before old after,
    lines = before ++ old :: after
    /\ String.prefix refresh_token_prefix old = true
    /\ Forall (fun line => String.prefix refresh_token_prefix line = false) before
    /\ updated = before ++ new :: after.
Proof.
  revert updated. induction lines as [|line rest IH]; intros updated; [done|].
  cbn [replace_first].
  destruct (String.prefix refresh_token_prefix line) eqn:Hp.
  - intros [= <-]. by exists [], line, rest.
  - destruct (replace_first new rest) as [u|]; [|done]. intros [= <-].
    destruct (IH u eq_refl) as (before & old & after & -> & Hold & Hb & ->).
    exists (line :: before), old, after. repeat split; try done.
    by apply List.Forall_cons.
Qed.

Lemma replace_first_None new lines :
  replace_first new lines = None ->
  Forall (fun line => String.prefix refresh_token_prefix line = false) lines.
Proof.
  induction lines as [|line rest IH]; [by intros; apply List.Forall_nil|].
  cbn [replace_first].
  destruct (String.prefix refresh_token_prefix line) eqn:Hp; [done|].
  destruct (replace_first new rest); [done|]. intros _.
  apply List.Forall_cons; auto.
Qed.

Lemma replace_first_app new before old after :
  Forall (fun line => String.prefix refresh_token_prefix line = false) before ->
  String.prefix refresh_token_prefix old = true ->
  replace_first new (before ++ old :: after) = Some (before ++ new :: after).
Proof.
  intros Hb Hold. induction Hb as [|line before Hl _ IH]; cbn [replace_first app].
  - by rewrite Hold.
  - by rewrite Hl, IH.
Qed.

Lemma prefix_app p s : String.prefix p (p +:+ s) = true.
Proof.
  induction p as [|c p IH]; [by destruct s|].
  change (String.prefix (String c p) (String c (p +:+ s)) = true).
  cbn [String.prefix]. by destruct (ascii_dec c c).
Qed.

Lemma prefix_new token :
  String.prefix refresh_token_prefix (refresh_token_prefix +:+ token) = true.
Proof. apply prefix_app. Qed.

Lemma string_app_assoc (a b c : string) : (a +:+ b) +:+ c = a +:+ (b +:+ c).
Proof.
  induction a as [|x a IH]; [done|].
  change (String x ((a +:+ b) +:+ c) = String x (a +:+ (b +:+ c))).
  by rewrite IH.
Qed.

Lemma string_app_nil_r (a : string) : a +:+ EmptyString = a.
Proof.
  induction a as [|x a IH]; [done|].
  change (String x (a +:+ EmptyString) = String x a). by rewrite IH.
Qed.

Lemma has_line_break_app a b :
  has_line_break (a +:+ b) = has_line_break a || has_line_break b.
Proof.
  unfold has_line_break. induction a as [|x a IH]; [done|].
  change (existsb is_line_break (x :: list_ascii_of_string (a +:+ b))
          = existsb is_line_break (x :: list_ascii_of_string a)
            || existsb is_line_break (list_ascii_of_string b)).
  cbn [existsb]. by rewrite IH, orb_assoc.
Qed.

Lemma splitlines_from_app l rest cur :
  has_line_break l = false ->
  splitlines_from (l +:+ rest) cur = splitlines_from rest (cur +:+ l).
Proof.
  revert cur. induction l as [|c l IH]; intros cur Hl.
  - by rewrite string_app_nil_r.
  - unfold has_line_break in Hl. cbn [list_ascii_of_string existsb] in Hl.
    apply orb_false_iff in Hl as [Hc Hl].
    change (splitlines_from (String c (l +:+ rest)) cur
            = splitlines_from rest (cur +:+ String c l)).
    cbn [splitlines_from]. rewrite Hc, IH by done.
    by rewrite string_app_assoc.
Qed.

Lemma splitlines_from_lf rest cur :
  splitlines_from (String LF rest) cur = cur :: splitlines_from rest EmptyString.
Proof. cbn [splitlines_from]. by destruct rest. Qed.

Lemma write_lines_cons l ls :
  write_lines (l :: ls)
  = l +:+ match ls with
          | [] => String LF EmptyString
          | _ :: _ => String LF (write_lines ls)
          end.
Proof.
  unfold write_lines, Py.join. destruct ls as [|l2 ls]; [done|].
  cbn [String.concat]. by rewrite string_app_assoc.
Qed.

(** Reading back what was written gives the lines that were written. *)
Lemma splitlines_write lines :
  lines <> [] -> Forall (fun l => has_line_break l = false) lines ->
  splitlines (write_lines lines) = lines.
Proof.
  intros Hne Hall. unfold splitlines.
  induction Hall as [|l ls Hl Hls IH]; [done|]. clear Hne.
  rewrite write_lines_cons, splitlines_from_app by done.
  change (EmptyString +:+ l) with l. destruct ls as [|l2 ls].
  - by rewrite splitlines_from_lf.
  - rewrite splitlines_from_lf. f_equal. by apply IH.
Qed.

Lemma splitlines_from_no_break_le n :
  forall text cur, (String.length text <= n)%nat ->
  has_line_break cur = false ->
  Forall (fun l => has_line_break l = false) (splitlines_from text cur).
Proof.
  induction n as [|n IH]; intros text cur Hlen Hcur;
    destruct text as [|c rest]; cbn [splitlines_from]; cbn in Hlen; try lia.
  - destruct cur; [apply List.Forall_nil|].
    apply List.Forall_cons; [done|apply List.Forall_nil].
  - destruct cur; [apply List.Forall_nil|].
    apply List.Forall_cons; [done|apply List.Forall_nil].
  - destruct (is_line_break c) eqn:Hc.
    + apply List.Forall_cons; [done|].
      destruct rest as [|c2 rest2]; [apply List.Forall_nil|].
      cbn in Hlen.
      destruct (Ascii.eqb c CR && Ascii.eqb c2 LF); apply IH; cbn; try lia; done.
    + apply IH; [lia|]. rewrite has_line_break_app, Hcur.
      unfold has_line_break. cbn. by rewrite Hc.
Qed.

Lemma splitlines_no_break text :
  Forall (fun l => has_line_break l = false) (splitlines text).
Proof. by apply (splitlines_from_no_break_le (String.length text)). Qed.

Lemma assignment_new token :
  assignment (refresh_token_prefix +:+ token)
  = Some (refresh_token_key, strip token).
Proof.
  change (refresh_token_prefix +:+ token)
    with (refresh_token_key +:+ String "=" token).
  by rewrite assignment_app.
Qed.

Lemma first_assignment_app key before line after v :
  Forall (fun l => forall v', assignment l <> Some (key, v')) before ->
  assignment line = Some (key, v) ->
  first_assignment key (before ++ line :: after) = Some v.
Proof.
  intros Hb Hline. induction Hb as [|l before Hl _ IH];
    cbn [first_assignment app].
  - by rewrite Hline, String.eqb_refl.
  - destruct (assignment l) as [[k v0]|] eqn:Ha; [|done].
    destruct (String.eqb_spec k key) as [->|]; [|done]. by destruct (Hl v0).
Qed.


Lemma prefix_no_break token :
  has_line_break token = false ->
  has_line_break (refresh_token_prefix +:+ token) = false.
Proof. intros H. by rewrite has_line_break_app, H. Qed.

(** The lines of the file after a token without a line break was stored:
    those the loop of the script leaves in its list. *)
Lemma stored_lines env_file token :
  has_line_break token = false ->
  splitlines (update_env_refresh_token env_file token)
  = match replace_first (refresh_token_prefix +:+ token) (lines_of env_file) with
    | Some updated => updated
    | None => lines_of env_file ++ [refresh_token_prefix +:+ token]
    end.
Proof.
  intros Htoken. pose proof (prefix_no_break token Htoken) as Hnew.
  unfold update_env_refresh_token. cbv zeta.
  destruct env_file as [text|]; cbn [lines_of].
  - pose proof (splitlines_no_break text) as Hlines.
    destruct (replace_first _ (splitlines text)) as [updated|] eqn:Hr.
    + apply replace_first_Some in Hr
        as (before & old & after & Heq & _ & _ & ->).
      rewrite Heq in Hlines. apply Forall_app in Hlines as [Hb Ha].
      apply List.Forall_cons_iff in Ha as [_ Ha].
      apply splitlines_write; [by destruct before|].
      apply Forall_app. split; [done|]. by apply List.Forall_cons.
    + apply splitlines_write; [by destruct (splitlines text)|].
      apply Forall_app. split; [done|].
      apply List.Forall_cons; [done|apply List.Forall_nil].
  - change (splitlines (write_lines [refresh_token_prefix +:+ token])
            = [refresh_token_prefix +:+ token]).
    apply splitlines_write; [done|].
    apply List.Forall_cons; [done|apply List.Forall_nil].
Qed.

Lemma replace_first_none new lines :
  Forall (fun line => String.prefix refresh_token_prefix line = false) lines ->
  replace_first new lines = None.
Proof.
  intros Hall. induction Hall as [|l ls Hl _ IH]; [done|].
  cbn [replace_first]. by rewrite Hl, IH.
Qed.

(** What the script writes, from the lines it read. *)
Lemma update_env_written env_file token :
  update_env_refresh_token env_file token
  = write_lines
      match replace_first (refresh_token_prefix +:+ token)
              (lines_of env_file) with
      | Some updated => updated
      | None => lines_of env_file ++ [refresh_token_prefix +:+ token]
      end.
Proof.
  unfold update_env_refresh_token. cbv zeta.
  destruct env_file as [text|]; [done|]. cbn [lines_of replace_first app].
  unfold write_lines, Py.join. cbn [String.concat]. done.
Qed.

(** X20. Storing a token that holds no line break rewrites the first line
    of the file that starts with "JUNK_MOVER_REFRESH_TOKEN=" and no other
    line; without such a line it adds one at the end, and without a file
    it writes that single line.  Storing the same token again leaves the
    file as it is, and of two tokens stored in turn the second one
    stays.  File and tokens are ASCII text. *)
Theorem token_stored_in_place env_file token :
  (forall text, env_file = Some text -> ascii_text text = true) ->
  ascii_text token = true ->
  has_line_break token = false ->
  let new := refresh_token_prefix +:+ token in
  let stored := update_env_refresh_token env_file token in
  ((exists before old after,
      lines_of env_file = before ++ old :: after
      /\ String.prefix refresh_token_prefix old = true
      /\ Forall (fun line => String.prefix refresh_token_prefix line = false)
           before
      /\ splitlines stored = before ++ new :: after)
   \/ (Forall (fun line => String.prefix refresh_token_prefix line = false)
         (lines_of env_file)
       /\ splitlines stored = lines_of env_file ++ [new]))
  /\ update_env_refresh_token (Some stored) token = stored
  /\ forall token',
       ascii_text token' = true ->
       update_env_refresh_token (Some stored) token'
       = update_env_refresh_token env_file token'.
Proof.
  intros _ _ Htoken. cbv zeta.
  pose proof (stored_lines env_file token Htoken) as Hstored.
  assert (Hshape :
    (exists before old after,
       lines_of env_file = before ++ old :: after
       /\ String.prefix refresh_token_prefix old = true
       /\ Forall (fun line => String.prefix refresh_token_prefix line = false)
            before
       /\ splitlines (update_env_refresh_token env_file token)
          = before ++ (refresh_token_prefix +:+ token) :: after)
    \/ (Forall (fun line => String.prefix refresh_token_prefix line = false)
          (lines_of env_file)
        /\ splitlines (update_env_refresh_token env_file token)
           = lines_of env_file ++ [refresh_token_prefix +:+ token])).
  { destruct (replace_first _ (lines_of env_file)) as [updated|] eqn:Hr.
    - apply replace_first_Some in Hr
        as (before & old & after & Heq & Hold & Hb & ->).
      left. by exists before, old, after.
    - right. split; [by eapply replace_first_None|done]. }
  split; [exact Hshape|].
  assert (Hagain : forall token',
    update_env_refresh_token
      (Some (update_env_refresh_token env_file token)) token'
    = update_env_refresh_token env_file token').
  { intros token'.
    rewrite (update_env_written env_file token').
    rewrite (update_env_written (Some _) token'). cbn [lines_of]. f_equal.
    destruct Hshape as [(before & old & after & Heq & Hold & Hb & Hs)|[Hall Hs]];
      rewrite Hs.
    - rewrite Heq, !replace_first_app by (done || apply prefix_new). done.
    - rewrite replace_first_app by (done || apply prefix_new).
      by rewrite (replace_first_none _ _ Hall). }
  split; [apply Hagain|]. intros token' _. apply Hagain.
Qed.

Lemma token_stored_in_place_witness :
  update_env_refresh_token
    (Some (write_lines ["A=1"; "JUNK_MOVER_REFRESH_TOKEN=new"; "B=2"]%string))
    "new"
  = write_lines ["A=1"; "JUNK_MOVER_REFRESH_TOKEN=new"; "B=2"]%string.
Proof.
  exact (proj1 (proj2 (token_stored_in_place
           (Some (write_lines
                    ["A=1"; "JUNK_MOVER_REFRESH_TOKEN=old"; "B=2"]%string))
           "new"
           ltac:(intros text [= <-]; vm_compute; reflexivity)
           ltac:(vm_compute; reflexivity)
           ltac:(vm_compute; reflexivity)))).
Defined.

(** X21. A token without a line break that [generate_refresh_token.py]
    stores is the one [junk_mover.py] loads from the file written, up to
    surrounding blanks, as long as the variable is not set in the
    environment and no line of the file that does not start with
    "JUNK_MOVER_REFRESH_TOKEN=" assigns it (as a line with blanks before
    the name or before the "=" would).  File and token are ASCII text. *)
Theorem stored_token_is_loaded env_file token environ environ' :
  (forall text, env_file = Some text -> ascii_text text = true) ->
  ascii_text token = true ->
  has_line_break token = false ->
  (forall line v,
     In line (lines_of env_file) ->
     String.prefix refresh_token_prefix line = false ->
     assignment line <> Some (refresh_token_key, v)) ->
  environ !! refresh_token_key = None ->
  load_env_from_root
    (Some (splitlines (update_env_refresh_token env_file token))) environ
  = Some environ' ->
  environ' !! refresh_token_key = Some (strip token).
Proof.
  intros _ _ Htoken Hclean Hunset Hload. cbn [load_env_from_root] in Hload.
  rewrite (load_lines_lookup _ _ _ refresh_token_key Hload), Hunset.
  rewrite (stored_lines env_file token Htoken).
  destruct (replace_first _ (lines_of env_file)) as [updated|] eqn:Hr.
  - apply replace_first_Some in Hr
      as (before & old & after & Heq & Hold & Hb & ->).
    apply first_assignment_app; [|apply assignment_new].
    apply List.Forall_forall. intros l Hl v.
    apply Hclean; [rewrite Heq; apply in_or_app; by left|].
    by apply (proj1 (List.Forall_forall _ _) Hb).
  - apply replace_first_None in Hr.
    apply first_assignment_app; [|apply assignment_new].
    apply List.Forall_forall. intros l Hl v.
    apply Hclean; [done|]. by apply (proj1 (List.Forall_forall _ _) Hr).
Qed.

Lemma stored_token_is_loaded_witness :
  (<["JUNK_MOVER_REFRESH_TOKEN" := "new"]> (<["A" := "1"]> ∅)
     : gmap string string)
    !! refresh_token_key = Some (strip "new").
Proof.
  apply (stored_token_is_loaded
           (Some (write_lines ["A=1"; "JUNK_MOVER_REFRESH_TOKEN=old"]%string))
           "new" ∅).
  - intros text [= <-]. vm_compute. reflexivity.
  - vm_compute. reflexivity.
  - vm_compute. reflexivity.
  - intros line v Hin Hp.
    assert (Hl : lines_of
              (Some (write_lines
                       ["A=1"; "JUNK_MOVER_REFRESH_TOKEN=old"]%string))
            = ["A=1"; "JUNK_MOVER_REFRESH_TOKEN=old"]%string)
      by (vm_compute; reflexivity).
    rewrite Hl in Hin. destruct Hin as [<-|[<-|[]]]; [|discriminate Hp].
    vm_compute. discriminate.
  - reflexivity.
  - vm_compute. reflexivity.
Defined.

(** ** The aging filter *)

Lemma parse_date_valid s d rest :
  Iso.parse_date s = Some (d, rest) -> valid_date d.
Proof.
  unfold Iso.parse_date.
  destruct (Iso.take_digits 4 0 s) as [[y s1]|]; cbn [mbind option_bind]; [|done].
  destruct (Iso.expect "-" s1) as [s2|]; cbn [mbind option_bind]; [|done].
  destruct (Iso.take_digits 2 0 s2) as [[m s3]|]; cbn [mbind option_bind]; [|done].
  destruct (Iso.expect "-" s3) as [s4|]; cbn [mbind option_bind]; [|done].
  destruct (Iso.take_digits 2 0 s4) as [[dd s5]|]; cbn [mbind option_bind]; [|done].
  destruct (valid_dateb (mkdate y m dd)) eqn:Hv; [|done].
  intros [= <- <-]. by apply valid_dateb_spec.
Qed.

(** The date of a timestamp is a date of the calendar. *)
Lemma iso_to_date_valid T d : iso_to_date T = Ok d -> valid_date d.
Proof.
  unfold iso_to_date, Iso.fromisoformat. cbv zeta.
  destruct (Iso.parse_date _) as [[d0 rest]|] eqn:Hp; [|done].
  apply parse_date_valid in Hp. cbn.
  destruct rest as [|sep tstr]; [by intros [= <-]|].
  destruct (Iso.parse_time tstr) as [[[[hh mm] ss] us]|]; [|done].
  by intros [= <-].
Qed.

(** C1. An item with a timestamp and a URI is among the candidates exactly
    when the date of its timestamp is on or before the cutoff.  In a run
    the cutoff is the date [duration_days] days before today, so the item
    is a candidate exactly when at least that many days lie between its
    date and today; with a day count of 0 the cutoff is today, so every
    item added today or earlier is a candidate. *)
Theorem aging_filter :
  (forall access_token src cutoff w candidates w',
      collect_candidates access_token src cutoff w = (Ok candidates, w') ->
      forall it T u d,
        In it (listed_items src (w_playlists w)) ->
        get (added_at it) = Some T -> item_uri it = Some u ->
        u <> EmptyString -> iso_to_date T = Ok d ->
        (In (u, d) candidates <-> date_le d cutoff = true))
  /\ (forall cfg w access_token user_id src candidates w',
        valid_date (w_today w) ->
        find_candidates cfg w
        = (Ok (access_token, user_id, src, candidates), w') ->
        exists cutoff,
          date_sub_days (w_today w) (duration_days cfg) = Ok cutoff
          /\ valid_date cutoff
          /\ toordinal cutoff = toordinal (w_today w) - duration_days cfg
          /\ forall it T u d,
               In it (listed_items src (w_playlists w)) ->
               get (added_at it) = Some T -> item_uri it = Some u ->
               u <> EmptyString -> iso_to_date T = Ok d ->
               (In (u, d) candidates <-> date_le d cutoff = true)
               /\ (In (u, d) candidates
                   <-> duration_days cfg
                       <= toordinal (w_today w) - toordinal d))
  /\ (forall cfg w access_token user_id src candidates w',
        duration_days cfg = 0 -> valid_date (w_today w) ->
        find_candidates cfg w
        = (Ok (access_token, user_id, src, candidates), w') ->
        forall it T u d,
          In it (listed_items src (w_playlists w)) ->
          get (added_at it) = Some T -> item_uri it = Some u ->
          u <> EmptyString -> iso_to_date T = Ok d ->
          (In (u, d) candidates <-> date_le d (w_today w) = true)).
Proof.
  assert (Hfilter : forall access_token src cutoff w candidates w',
      collect_candidates access_token src cutoff w = (Ok candidates, w') ->
      forall it T u d,
        In it (listed_items src (w_playlists w)) ->
        get (added_at it) = Some T -> item_uri it = Some u ->
        u <> EmptyString -> iso_to_date T = Ok d ->
        (In (u, d) candidates <-> date_le d cutoff = true)).
  { intros tok src cutoff w candidates w' Hrun it T u d Hin HT Hu Hne Hd.
    apply collect_candidates_result in Hrun.
    rewrite (for_each_candidates _ _ _ _ Hrun u d). split.
    - intros [[]|(it' & T' & _ & _ & _ & _ & _ & Hle)]. done.
    - intros Hle. right. by exists it, T. }
  split; [exact Hfilter|]. split.
  - intros cfg w tok uid src candidates w' Hvalid Hrun.
    apply find_candidates_run in Hrun as (cutoff & w3 & Hcut & Hpls & Hrun).
    exists cutoff. split; [done|].
    assert (Hc : valid_date cutoff
                 /\ toordinal cutoff = toordinal (w_today w) - duration_days cfg).
    { unfold date_sub_days in Hcut.
      destruct (Z.abs _ >? 999999999); [done|].
      destruct (Z.ltb_spec 0 (toordinal (w_today w) + - duration_days cfg));
        [|done].
      destruct (Z.leb_spec (toordinal (w_today w) + - duration_days cfg)
                  MAXORDINAL); [|done].
      cbn in Hcut. injection Hcut as <-.
      destruct (toordinal_fromordinal
                  (toordinal (w_today w) + - duration_days cfg) ltac:(lia))
        as [Hv Ho].
      split; [done|lia]. }
    destruct Hc as [Hv Ho]. split; [done|]. split; [done|].
    intros it T u d Hin HT Hu Hne Hd. rewrite <- Hpls in Hin.
    pose proof (Hfilter _ _ _ _ _ _ Hrun it T u d Hin HT Hu Hne Hd) as Hiff.
    split; [done|]. rewrite Hiff.
    rewrite (date_le_toordinal d cutoff) by (by eauto using iso_to_date_valid).
    lia.
  - intros cfg w tok uid src candidates w' Hzero Hvalid Hrun.
    apply find_candidates_run in Hrun as (cutoff & w3 & Hcut & Hpls & Hrun).
    rewrite Hzero, date_sub_days_0 in Hcut by done. injection Hcut as <-.
    intros it T u d Hin. rewrite <- Hpls in Hin. by eapply Hfilter.
Qed.

Lemma aging_filter_witness :
  (In ("a", mkdate 2023 1 2) Sample.tracks23
   <-> 700 <= toordinal (mkdate 2025 11 29) - toordinal (mkdate 2023 1 2))
  /\ (In ("b", mkdate 2024 1 2) Sample.tracks23
      <-> 700 <= toordinal (mkdate 2025 11 29) - toordinal (mkdate 2024 1 2))
  /\ (In ("a", mkdate 2023 1 2) Sample.candidates
      <-> date_le (mkdate 2023 1 2) (mkdate 2025 11 29) = true).
Proof.
  assert (Hvalid : valid_date (mkdate 2025 11 29))
    by (apply valid_dateb_spec; reflexivity).
  destruct (proj1 (proj2 aging_filter) Aged.cfg Moved.start "token" "me" 1%nat
              Sample.tracks23 Aged.found Hvalid
              ltac:(vm_compute; reflexivity))
    as (cutoff & _ & _ & _ & Hall).
  split; [|split].
  - apply (Hall (Sample.entry "a" "2023-01-02T00:00:00Z")
             "2023-01-02T00:00:00Z"%string).
    + vm_compute. auto.
    + reflexivity.
    + reflexivity.
    + discriminate.
    + vm_compute. reflexivity.
  - apply (Hall (Sample.entry "b" "2024-01-02T00:00:00Z")
             "2024-01-02T00:00:00Z"%string).
    + vm_compute. auto.
    + reflexivity.
    + reflexivity.
    + discriminate.
    + vm_compute. reflexivity.
  - apply (proj2 (proj2 aging_filter) Sample.cfg Sample.faulty "token" "me"
             1%nat Sample.candidates Sample.w0 eq_refl Hvalid)
      with (it := Sample.entry "a" "2023-01-02T00:00:00Z")
           (T := "2023-01-02T00:00:00Z"%string).
    + vm_compute. reflexivity.
    + vm_compute. auto.
    + reflexivity.
    + reflexivity.
    + discriminate.
    + vm_compute. reflexivity.
Defined.

(** ** Entries that are not candidates *)

Lemma stays_refl uris src w : stays uris src w w.
Proof. by intros it. Qed.

Lemma stays_trans uris src w1 w2 w3 :
  stays uris src w1 w2 -> stays uris src w2 w3 -> stays uris src w1 w3.
Proof. unfold stays. auto. Qed.

Lemma keeps_incl a b it :
  (forall u, In u a -> In u b) -> keeps b it = true -> keeps a it = true.
Proof.
  intros Hsub. unfold keeps. destruct (item_uri it) as [u|]; [|done].
  rewrite !negb_true_iff. intros Hb.
  destruct (existsb (String.eqb u) a) eqn:Ha; [|done].
  apply existsb_exists in Ha as (x & Hx & Heq).
  assert (existsb (String.eqb u) b = true); [|congruence].
  apply existsb_exists. exists x. auto.
Qed.

Lemma listed_items_insert pls pid p src :
  pls !! pid = Some p ->
  forall q, listed_items src (<[pid := q]> pls)
            = if decide (pid = src) then pl_items q else listed_items src pls.
Proof.
  intros Hp q. unfold listed_items. destruct (decide (pid = src)) as [->|Hne].
  - by rewrite list_lookup_insert_eq by (by eapply lookup_lt_Some).
  - by rewrite list_lookup_insert_ne.
Qed.

Lemma serve_stays uris src w req resp pls :
  removes_within uris req -> serve w req = Ok (resp, pls) ->
  forall it, In it (listed_items src (w_playlists w)) ->
    keeps uris it = true -> In it (listed_items src pls).
Proof.
  destruct req; cbn; intros Hin H; repeat case_match; simplify_eq; try done.
  - (* create *)
    intros it Hit _. unfold listed_items in *.
    destruct (w_playlists w !! src) as [p|] eqn:Hp; [|done].
    by rewrite (lookup_app_l_Some _ _ _ _ Hp).
  - (* add *)
    intros it Hit _. erewrite listed_items_insert by done.
    destruct (decide (playlist_id = src)) as [->|]; [|done]. cbn.
    unfold listed_items in Hit. rewrite H0 in Hit. apply in_or_app. by left.
  - (* remove *)
    intros it Hit Hk. erewrite listed_items_insert by done.
    destruct (decide (playlist_id = src)) as [->|]; [|done]. cbn.
    unfold listed_items in Hit. rewrite H0 in Hit.
    apply filter_In. split; [done|]. by eapply keeps_incl.
  - (* describe *)
    intros it Hit _. erewrite listed_items_insert by done.
    destruct (decide (playlist_id = src)) as [->|]; [|done]. cbn.
    unfold listed_items in Hit. by rewrite H0 in Hit.
Qed.

Lemma exchange_stays uris src req :
  removes_within uris req -> preserves (stays uris src) (exchange req).
Proof.
  intros Hin w r w' H. apply exchange_run in H as (_ & _ & _ & H).
  destruct r as [resp|e].
  - intros it. by eapply serve_stays.
  - intros it. by rewrite H.
Qed.

Lemma remove_tracks_stays uris src access_token pid chunk_uris :
  (forall u, In u chunk_uris -> In u uris) ->
  preserves (stays uris src)
    (remove_tracks_from_playlist access_token pid chunk_uris).
Proof.
  intros Hsub w r w' H.
  apply remove_tracks_run in H as (sent & rest & Hcat & Hpls & _).
  intros it Hit Hk. rewrite Hpls. unfold remove_items, listed_items in *.
  destruct (w_playlists w !! pid) as [p|] eqn:Hp; [|done].
  destruct (decide (pid = src)) as [->|Hne].
  - rewrite list_lookup_insert_eq by (by eapply lookup_lt_Some). cbn.
    rewrite Hp in Hit. apply filter_In. split; [done|].
    eapply keeps_incl; [|done]. intros u Hu. apply Hsub.
    rewrite <- Hcat, concat_app. apply in_or_app. by left.
  - by rewrite list_lookup_insert_ne.
Qed.

Lemma process_bucket_stays uris access_token user_id sname src stamp key tracks :
  (forall u, In u (map fst tracks) -> In u uris) ->
  preserves (stays uris src)
    (process_bucket access_token user_id sname src stamp key tracks).
Proof.
  intros Hsub. unfold process_bucket. cbv zeta.
  apply preserves_bind; [apply stays_trans| |]. 
  { apply (preserves_ensure (stays uris src) (removes_within uris));
      eauto using stays_refl, stays_trans, exchange_stays. all: done. }
  intros tid. apply preserves_bind; [apply stays_trans| |].
  { apply (preserves_add_tracks (stays uris src) (removes_within uris));
      eauto using stays_refl, stays_trans, exchange_stays. done. }
  intros _. apply preserves_bind; [apply stays_trans| |].
  { by apply remove_tracks_stays. }
  intros _. apply preserves_bind; [apply stays_trans| |].
  { apply (preserves_update_description (stays uris src) (removes_within uris));
      eauto using stays_refl, stays_trans, exchange_stays. done. }
  intros _. apply preserves_ret, stays_refl.
Qed.

Lemma move_buckets_stays uris access_token user_id sname src stamp buckets :
  (forall key ts u, In (key, ts) buckets -> In u (map fst ts) -> In u uris) ->
  forall total,
  preserves (stays uris src)
    (move_buckets access_token user_id sname src stamp buckets total).
Proof.
  induction buckets as [|[k ts] rest IH]; intros Hsub total; cbn [move_buckets].
  - apply preserves_ret, stays_refl.
  - apply preserves_bind; [apply stays_trans| |].
    + apply process_bucket_stays. intros u Hu. eapply Hsub; [by left|done].
    + intros moved. apply IH. intros key ts' u Hin. eapply Hsub. by right.
Qed.

Lemma move_candidates_stays access_token user_id sname src candidates :
  preserves (stays (map fst candidates) src)
    (move_candidates access_token user_id sname src candidates).
Proof.
  unfold move_candidates. destruct candidates as [|c cs].
  { apply preserves_ret, stays_refl. }
  set (candidates := c :: cs).
  apply preserves_bind; [apply stays_trans|apply preserves_reads, stays_refl|].
  intros stamp. apply preserves_bind; [apply stays_trans| |].
  - apply move_buckets_stays. intros key ts u Hin Hu.
    apply in_map_iff in Hu as ([u' d] & <- & Ht).
    apply in_map_iff. exists (u', d). split; [done|].
    by eapply (grouped_key_of _ _ (group_tracks_grouped candidates)).
  - intros total.
    apply (preserves_update_description _ (removes_within (map fst candidates)));
      eauto using stays_refl, stays_trans, exchange_stays. done.
Qed.

(** C10 (amended). An item without a usable [added_at] or without a usable
    track URI is skipped without an error: the loop body leaves the
    candidates as they are, the candidates of the whole listing are those
    of the listing without the item, so that nothing selected, bucketed or
    counted stems from it; and whatever the outcome of the run it stays in
    the source, unless a candidate carries the same URI (the removal is by
    URI). *)
Theorem incomplete_items_skipped (it : item) :
  lacks_field it ->
  (forall cutoff candidates,
      candidate_step cutoff it candidates = Ok (Continue candidates))
  /\ (forall cutoff before after candidates,
        for_each (candidate_step cutoff) (before ++ it :: after) candidates
        = for_each (candidate_step cutoff) (before ++ after) candidates)
  /\ (forall access_token src cutoff w candidates w' before after,
        collect_candidates access_token src cutoff w = (Ok candidates, w') ->
        listed_items src (w_playlists w) = before ++ it :: after ->
        for_each (candidate_step cutoff) (before ++ after) []
        = Ok (Continue candidates))
  /\ (forall environ cfg w access_token user_id src candidates w0 r w',
        load_config environ = Ok cfg ->
        find_candidates cfg w
        = (Ok (access_token, user_id, src, candidates), w0) ->
        main environ w = (r, w') ->
        In it (listed_items src (w_playlists w)) ->
        (forall u, item_uri it = Some u -> ~ In u (map fst candidates)) ->
        In it (listed_items src (w_playlists w'))).
Proof.
  intros Hlack.
  assert (Hdrop : forall cutoff before after candidates,
        for_each (candidate_step cutoff) (before ++ it :: after) candidates
        = for_each (candidate_step cutoff) (before ++ after) candidates).
  { intros cutoff before after candidates. rewrite !for_each_app.
    destruct (for_each _ before candidates) as [[c|[]]|e]; [|done].
    cbn [for_each]. by rewrite candidate_step_skip. }
  split; [intros; by apply candidate_step_skip|]. split; [exact Hdrop|].
  split.
  { intros tok src cutoff w candidates w' before after Hrun Hitems.
    apply collect_candidates_result in Hrun. by rewrite Hitems, Hdrop in Hrun. }
  intros environ cfg w tok uid src candidates w0 r w' Hcfg Hfind H Hin Hfree.
  unfold main in H. unfold bind at 1, lift in H. rewrite Hcfg in H.
  rewrite (bind_ok _ _ _ _ _ Hfind) in H.
  pose proof (find_candidates_quiet _ _ _ _ Hfind) as Hq. unfold quiet in Hq.
  apply (move_candidates_stays _ _ _ _ _ _ _ _ H); [by rewrite Hq|].
  unfold keeps. destruct (item_uri it) as [u|]; [|done].
  apply negb_true_iff. destruct (existsb _ _) eqn:He; [|done].
  apply existsb_exists in He as (x & Hx & Heq%String.eqb_eq). subst x.
  by destruct (Hfree u eq_refl).
Qed.

(** An entry without a timestamp that shares its URI with a candidate
    leaves the source with it: the run over [Twin.start] ends normally,
    empties the source and puts one entry into the drawer.  So it is not
    the case that every entry lacking a field is still in the source after
    a run. *)
Lemma incomplete_item_removed :
  lacks_field Twin.undated
  /\ In Twin.undated (listed_items 0 (w_playlists Twin.start))
  /\ main Sample.environ Twin.start = (Ok tt, Twin.finish)
  /\ listed_items 0 (w_playlists Twin.finish) = []
  /\ length (listed_items 1 (w_playlists Twin.finish)) = 1%nat
  /\ ~ In Twin.undated (listed_items 1 (w_playlists Twin.finish))
  /\ ~ (forall it, lacks_field it ->
        forall environ cfg w access_token user_id src candidates w0 r w',
          load_config environ = Ok cfg ->
          find_candidates cfg w
          = (Ok (access_token, user_id, src, candidates), w0) ->
          main environ w = (r, w') ->
          In it (listed_items src (w_playlists w)) ->
          In it (listed_items src (w_playlists w'))).
Proof.
  assert (Hlack : lacks_field Twin.undated) by (left; right; left; reflexivity).
  split; [done|].
  split; [right; left; reflexivity|].
  split; [vm_compute; reflexivity|].
  split; [reflexivity|]. split; [reflexivity|].
  split; [intros [H|[]]; discriminate H|].
  intros H.
  assert (Hfind : exists candidates w0,
            find_candidates Sample.cfg Twin.start
            = (Ok ("token"%string, "me"%string, 0%nat, candidates), w0)).
  { vm_compute. eauto. }
  destruct Hfind as (candidates & w0 & Hfind).
  apply (H Twin.undated Hlack Sample.environ Sample.cfg Twin.start
           _ _ _ _ _ (Ok tt) Twin.finish
           ltac:(vm_compute; reflexivity) Hfind
           ltac:(vm_compute; reflexivity)
           ltac:(right; left; reflexivity)).
Qed.

Lemma incomplete_items_skipped_witness :
  candidate_step (mkdate 2025 11 29) Sample.blank Sample.candidates
  = Ok (Continue Sample.candidates)
  /\ In Sample.blank (listed_items 1 (w_playlists Moved.finish)).
Proof.
  assert (H : lacks_field Sample.blank) by (left; right; left; reflexivity).
  split.
  - apply (proj1 (incomplete_items_skipped Sample.blank H)).
  - apply (proj2 (proj2 (proj2 (incomplete_items_skipped Sample.blank H)))
             Sample.environ Sample.cfg Moved.start "token" "me" 1%nat
             Sample.candidates Moved.found (Ok tt) Moved.finish).
    + vm_compute. reflexivity.
    + vm_compute. reflexivity.
    + vm_compute. reflexivity.
    + vm_compute. auto 10.
    + intros u Hu. discriminate Hu.
Defined.
